(** * WoolfOTDocument and WoolfDirectorBridge: a shallow embedding

    The collaborative document model ([WoolfOTDocument]) and the director
    side of the control bus ([WoolfDirectorBridge]) are embedded as pure
    state-passing functions.  A JavaScript [Map] is an association list in
    insertion order, a thrown [Error] is a [Throw] result that keeps the
    state reached before the throw, [Date.now()] is the [now] argument of
    every operation, and a pending [setTimeout] is an entry of a timer
    queue that fires through an explicit step. *)

From Stdlib Require Import ZArith List String Ascii Bool Lia Sorted.
Import ListNotations.
Local Open Scope Z_scope.

(** ** JavaScript [Map]: keyed collection iterated in insertion order *)

Module JsMap.
Section Defs.
Context {V : Type}.

Definition t := list (Z * V).

Definition empty : t := [].

Fixpoint get (k : Z) (m : t) : option V :=
  match m with
  | [] => None
  | (k', v) :: rest => if k' =? k then Some v else get k rest
  end.

Definition has (k : Z) (m : t) : bool :=
  match get k m with Some _ => true | None => false end.

(* [set] on a present key keeps its position, on a new key appends. *)
Fixpoint set (k : Z) (v : V) (m : t) : t :=
  match m with
  | [] => [(k, v)]
  | (k', v') :: rest =>
      if k' =? k then (k, v) :: rest else (k', v') :: set k v rest
  end.

Fixpoint delete (k : Z) (m : t) : t :=
  match m with
  | [] => []
  | (k', v') :: rest =>
      if k' =? k then rest else (k', v') :: delete k rest
  end.

Definition keys (m : t) : list Z := map fst m.
Definition values (m : t) : list V := map snd m.
Definition size (m : t) : Z := Z.of_nat (List.length m).
End Defs.
Arguments t : clear implicits.
End JsMap.

(** ** Data model *)

Definition UserId := string.
Bind Scope string_scope with UserId.

Definition strlen (s : string) : Z := Z.of_nat (String.length s).

Record Range := mkRange { r_index : Z; r_length : Z }.

Record RangeLock := mkLock {
  lockId : Z;
  lock_userId : UserId;
  lock_range : Range;
  lock_timestamp : Z;
  expiresAt : Z
}.

Inductive Status := Pending | Accepted | Rejected.

Record Suggestion := mkSuggestion {
  suggestionId : Z;
  sg_userId : UserId;
  sg_range : Range;
  newText : string;
  oldText : string;
  status : Status;
  createdAt : Z;
  acceptedBy : option UserId;
  acceptedAt : option Z;
  rejectedBy : option UserId;
  rejectedAt : option Z;
  rejectionReason : option string
}.

Record Correction := mkCorrection {
  correctionId : Z;
  c_userId : UserId;
  c_range : Range;
  original : string;
  applied : string;
  alternates : list string;
  c_timestamp : Z;
  c_version : Z;
  reverted : bool;
  revertedBy : option UserId;
  revertedAt : option Z;
  alternateSelected : option Z;
  switchedBy : option UserId;
  switchedAt : option Z
}.

(** One operation of a Quill delta, as [updateContents] consumes it. *)
Inductive DeltaOp :=
| Retain (n : Z)
| InsertOp (s : string)
| DeleteOp (n : Z).

Definition Delta := list DeltaOp.

(** The [change] object each primitive builds before logging it. *)
Inductive Change :=
| ChInsert (userId : UserId) (index : Z) (text : string) (len : Z)
| ChDelete (userId : UserId) (index : Z) (len : Z)
| ChReplace (userId : UserId) (index : Z) (oldLength : Z)
            (newText : string) (newLength : Z)
| ChDelta (userId : UserId) (delta : Delta)
| ChExternal (delta : Delta).

(** A change-log entry: [{...change, version, timestamp}]. *)
Record Entry := mkEntry {
  e_change : Change;
  e_version : Z;
  e_timestamp : Z
}.

Record Transaction := mkTransaction {
  t_userId : UserId;
  startVersion : Z;
  changes : list Entry;
  startedAt : Z;
  committedAt : option Z;
  endVersion : option Z;
  rolledBack : bool;
  rolledBackAt : option Z
}.

(** A subscriber callback either returns or throws; it observes the entry
    and does not reenter the document. *)
Inductive Outcome := Returns | Throws.

Definition Callback := Entry -> Outcome.

(** One invocation of a subscriber callback by [notifySubscribers]. *)
Record Delivery := mkDelivery {
  d_subscriber : Z;
  d_entry : Entry;
  d_outcome : Outcome
}.

(** A pending [setTimeout(() => this.unlockRange(lockId, userId), duration)]. *)
Record Timer := mkTimer {
  tm_due : Z;
  tm_lockId : Z;
  tm_userId : UserId
}.

Record Doc := mkDoc {
  quill : list ascii;
  version : Z;
  changeLog : list Entry;
  suggestions : JsMap.t Suggestion;
  suggestionCounter : Z;
  corrections : JsMap.t Correction;
  correctionCounter : Z;
  changeSubscribers : JsMap.t Callback;
  subscriberCounter : Z;
  currentTransaction : option nat;
  transactionStack : list Transaction;
  rangeLocks : JsMap.t RangeLock;
  lockCounter : Z;
  timers : list Timer;
  delivered : list Delivery
}.

Definition maxLogSize : Z := 1000.

(** The constructor: [new WoolfOTDocument(quill)]. *)
Definition newDoc (text : list ascii) : Doc :=
  {| quill := text; version := 0; changeLog := [];
     suggestions := JsMap.empty; suggestionCounter := 0;
     corrections := JsMap.empty; correctionCounter := 0;
     changeSubscribers := JsMap.empty; subscriberCounter := 0;
     currentTransaction := None; transactionStack := [];
     rangeLocks := JsMap.empty; lockCounter := 0;
     timers := []; delivered := [] |}.

(** Field updates ([this.f = ...]). *)

Definition set_quill (q : list ascii) (d : Doc) : Doc :=
  mkDoc q (version d) (changeLog d) (suggestions d) (suggestionCounter d)
    (corrections d) (correctionCounter d) (changeSubscribers d)
    (subscriberCounter d) (currentTransaction d) (transactionStack d)
    (rangeLocks d) (lockCounter d) (timers d) (delivered d).

Definition set_version (v : Z) (d : Doc) : Doc :=
  mkDoc (quill d) v (changeLog d) (suggestions d) (suggestionCounter d)
    (corrections d) (correctionCounter d) (changeSubscribers d)
    (subscriberCounter d) (currentTransaction d) (transactionStack d)
    (rangeLocks d) (lockCounter d) (timers d) (delivered d).

Definition set_changeLog (l : list Entry) (d : Doc) : Doc :=
  mkDoc (quill d) (version d) l (suggestions d) (suggestionCounter d)
    (corrections d) (correctionCounter d) (changeSubscribers d)
    (subscriberCounter d) (currentTransaction d) (transactionStack d)
    (rangeLocks d) (lockCounter d) (timers d) (delivered d).

Definition set_suggestions (m : JsMap.t Suggestion) (c : Z) (d : Doc) : Doc :=
  mkDoc (quill d) (version d) (changeLog d) m c
    (corrections d) (correctionCounter d) (changeSubscribers d)
    (subscriberCounter d) (currentTransaction d) (transactionStack d)
    (rangeLocks d) (lockCounter d) (timers d) (delivered d).

Definition set_corrections (m : JsMap.t Correction) (c : Z) (d : Doc) : Doc :=
  mkDoc (quill d) (version d) (changeLog d) (suggestions d)
    (suggestionCounter d) m c (changeSubscribers d)
    (subscriberCounter d) (currentTransaction d) (transactionStack d)
    (rangeLocks d) (lockCounter d) (timers d) (delivered d).

Definition set_changeSubscribers (m : JsMap.t Callback) (c : Z) (d : Doc)
  : Doc :=
  mkDoc (quill d) (version d) (changeLog d) (suggestions d)
    (suggestionCounter d) (corrections d) (correctionCounter d) m c
    (currentTransaction d) (transactionStack d)
    (rangeLocks d) (lockCounter d) (timers d) (delivered d).

Definition set_transaction (cur : option nat) (stack : list Transaction)
  (d : Doc) : Doc :=
  mkDoc (quill d) (version d) (changeLog d) (suggestions d)
    (suggestionCounter d) (corrections d) (correctionCounter d)
    (changeSubscribers d) (subscriberCounter d) cur stack
    (rangeLocks d) (lockCounter d) (timers d) (delivered d).

Definition set_rangeLocks (m : JsMap.t RangeLock) (d : Doc) : Doc :=
  mkDoc (quill d) (version d) (changeLog d) (suggestions d)
    (suggestionCounter d) (corrections d) (correctionCounter d)
    (changeSubscribers d) (subscriberCounter d) (currentTransaction d)
    (transactionStack d) m (lockCounter d) (timers d) (delivered d).

Definition set_lockCounter (c : Z) (d : Doc) : Doc :=
  mkDoc (quill d) (version d) (changeLog d) (suggestions d)
    (suggestionCounter d) (corrections d) (correctionCounter d)
    (changeSubscribers d) (subscriberCounter d) (currentTransaction d)
    (transactionStack d) (rangeLocks d) c (timers d) (delivered d).

Definition set_timers (t : list Timer) (d : Doc) : Doc :=
  mkDoc (quill d) (version d) (changeLog d) (suggestions d)
    (suggestionCounter d) (corrections d) (correctionCounter d)
    (changeSubscribers d) (subscriberCounter d) (currentTransaction d)
    (transactionStack d) (rangeLocks d) (lockCounter d) t (delivered d).

Definition set_delivered (l : list Delivery) (d : Doc) : Doc :=
  mkDoc (quill d) (version d) (changeLog d) (suggestions d)
    (suggestionCounter d) (corrections d) (correctionCounter d)
    (changeSubscribers d) (subscriberCounter d) (currentTransaction d)
    (transactionStack d) (rangeLocks d) (lockCounter d) (timers d) l.

(** ** Methods as state transformers that may throw *)

Inductive Error :=
| RangeIsLocked                      (* 'Range is locked by another user' *)
| RangeAlreadyLockedBy (u : UserId)  (* `Range already locked by ${u}` *)
| CannotUnlock          (* 'Cannot unlock range locked by another user' *)
| SuggestionNotFound                 (* 'Suggestion not found' *)
| SuggestionAlready (st : Status)    (* `Suggestion already ${status}` *)
| CorrectionNotFound (id : Z)        (* `Correction ${id} not found` *)
| AlternateOutOfRange (i : Z)        (* `Alternate index ${i} out of range` *)
| TransactionInProgress              (* 'Transaction already in progress' *)
| NoTransaction.                     (* 'No transaction in progress' *)

Inductive Result (A : Type) :=
| Ok (a : A)
| Throw (e : Error).
Arguments Ok {A} a.
Arguments Throw {A} e.

(** A method call: the value or the exception, and the document as the call
    left it (mutations made before a throw stay). *)
Definition M (A : Type) := Doc -> Result A * Doc.

Definition ret {A} (a : A) : M A := fun d => (Ok a, d).

Definition bind {A B} (m : M A) (k : A -> M B) : M B :=
  fun d =>
    match m d with
    | (Ok a, d') => k a d'
    | (Throw e, d') => (Throw e, d')
    end.

Definition throw {A} (e : Error) : M A := fun d => (Throw e, d).
Definition gets {A} (f : Doc -> A) : M A := fun d => (Ok (f d), d).
Definition modify (f : Doc -> Doc) : M unit := fun d => (Ok tt, f d).

Declare Scope js_scope.
Delimit Scope js_scope with js.
Notation "x <- m ;; k" := (bind m (fun x => k))
  (at level 61, m at next level, right associativity) : js_scope.
Notation "m ;; k" := (bind m (fun _ => k))
  (at level 61, right associativity) : js_scope.
Local Open Scope js_scope.

Definition succeeds {A} (r : Result A * Doc) : bool :=
  match fst r with Ok _ => true | Throw _ => false end.

(** ** The external text buffer (Quill), by the interface the document
    uses: positions are clamped to the text. *)

Definition chars (s : string) : list ascii := list_ascii_of_string s.

Definition quill_insertText (index : Z) (text : string) (b : list ascii)
  : list ascii :=
  firstn (Z.to_nat index) b ++ chars text ++ skipn (Z.to_nat index) b.

Definition quill_deleteText (index len : Z) (b : list ascii) : list ascii :=
  firstn (Z.to_nat index) b ++ skipn (Z.to_nat len) (skipn (Z.to_nat index) b).

Definition quill_getText (index len : Z) (b : list ascii) : list ascii :=
  firstn (Z.to_nat len) (skipn (Z.to_nat index) b).

Fixpoint quill_updateContents (delta : Delta) (b : list ascii) : list ascii :=
  match delta with
  | [] => b
  | Retain n :: rest =>
      firstn (Z.to_nat n) b ++ quill_updateContents rest (skipn (Z.to_nat n) b)
  | InsertOp s :: rest => chars s ++ quill_updateContents rest b
  | DeleteOp n :: rest => quill_updateContents rest (skipn (Z.to_nat n) b)
  end.

(** ** Version control and the change log *)

Definition incrementVersion : M Z :=
  modify (fun d => set_version (version d + 1) d) ;;
  gets version.

Definition getChangesSince (sinceVersion : Z) (d : Doc) : list Entry :=
  filter (fun change => e_version change >? sinceVersion) (changeLog d).

(** [Array.prototype.slice(-n)] for [n > 0]: the last [n] elements. *)
Definition slice_last {A} (n : Z) (l : list A) : list A :=
  skipn (List.length l - Z.to_nat n) l.

(** [changeSubscribers.forEach(cb => { try { cb(change) } catch {...} })]:
    the loop over the subscribers in map order; every iteration records the
    invocation, and a throw is caught inside the iteration. *)
Fixpoint notify_loop (subs : list (Z * Callback)) (change : Entry)
  : list Delivery :=
  match subs with
  | [] => []
  | (sid, callback) :: rest =>
      mkDelivery sid change (callback change) :: notify_loop rest change
  end.

Definition notifySubscribers (change : Entry) : M unit :=
  modify (fun d =>
    set_delivered (delivered d ++ notify_loop (changeSubscribers d) change) d).

Definition logChange (change : Change) (now : Z) : M Entry :=
  v <- gets version ;;
  let entry := mkEntry change v now in
  modify (fun d => set_changeLog (changeLog d ++ [entry]) d) ;;
  modify (fun d =>
    if Z.of_nat (List.length (changeLog d)) >? maxLogSize
    then set_changeLog (slice_last maxLogSize (changeLog d)) d
    else d) ;;
  notifySubscribers entry ;;
  ret entry.

Definition subscribe (callback : Callback) : M Z :=
  modify (fun d =>
    let subscriberId := subscriberCounter d + 1 in
    set_changeSubscribers
      (JsMap.set subscriberId callback (changeSubscribers d)) subscriberId d) ;;
  gets subscriberCounter.

Definition unsubscribe (subscriberId : Z) : M bool :=
  present <- gets (fun d => JsMap.has subscriberId (changeSubscribers d)) ;;
  modify (fun d =>
    set_changeSubscribers (JsMap.delete subscriberId (changeSubscribers d))
      (subscriberCounter d) d) ;;
  ret present.

(** ** Range locks *)

Definition rangesOverlap (range1 range2 : Range) : bool :=
  let end1 := r_index range1 + r_length range1 in
  let end2 := r_index range2 + r_length range2 in
  (r_index range1 <? end2) && (r_index range2 <? end1).

Definition user_neq (a b : UserId) : bool := negb (String.eqb a b).

(** The loop of [lockRange]: the first entry of the lock table, expired or
    not, that overlaps and belongs to someone else. *)
Definition lockRange_conflict (userId : UserId) (index len : Z)
  (locks : JsMap.t RangeLock) : option RangeLock :=
  find (fun lock =>
          rangesOverlap (mkRange index len) (lock_range lock)
          && user_neq (lock_userId lock) userId)
       (JsMap.values locks).

Definition lockRange (userId : UserId) (index len duration now : Z)
  : M RangeLock :=
  conflict <- gets (fun d => lockRange_conflict userId index len (rangeLocks d)) ;;
  match conflict with
  | Some lock => throw (RangeAlreadyLockedBy (lock_userId lock))
  | None =>
      modify (fun d => set_lockCounter (lockCounter d + 1) d) ;;
      lockId <- gets lockCounter ;;
      let lock := mkLock lockId userId (mkRange index len) now (now + duration) in
      modify (fun d => set_rangeLocks (JsMap.set lockId lock (rangeLocks d)) d) ;;
      modify (fun d => set_timers (timers d ++ [mkTimer (now + duration) lockId userId]) d) ;;
      ret lock
  end.

Inductive UnlockResult :=
| LockNotFound               (* { success: false, error: 'Lock not found' } *)
| Unlocked (lockId : Z).     (* { success: true, lockId } *)

Definition unlockRange (lockId : Z) (userId : UserId) : M UnlockResult :=
  lock <- gets (fun d => JsMap.get lockId (rangeLocks d)) ;;
  match lock with
  | None => ret LockNotFound
  | Some lock =>
      if user_neq (lock_userId lock) userId then throw CannotUnlock
      else
        modify (fun d => set_rangeLocks (JsMap.delete lockId (rangeLocks d)) d) ;;
        ret (Unlocked lockId)
  end.

(** A due timer runs its callback, [unlockRange(lockId, userId)]; the [n]-th
    pending timer fires once the clock has reached its due time. *)
Definition fireTimer (n : nat) (now : Z) : M unit :=
  tms <- gets timers ;;
  match nth_error tms n with
  | Some tm =>
      if tm_due tm <=? now then
        modify (set_timers (firstn n tms ++ skipn (S n) tms)) ;;
        unlockRange (tm_lockId tm) (tm_userId tm) ;;
        ret tt
      else ret tt
  | None => ret tt
  end.

(** The loop of [isRangeLocked] over the lock table: an expired entry met
    on the way is deleted, the first live entry of another user that
    overlaps ends the loop with [true]. *)
Fixpoint scanLocks (index len : Z) (userId : UserId) (now : Z)
  (locks : JsMap.t RangeLock) : bool * JsMap.t RangeLock :=
  match locks with
  | [] => (false, [])
  | (id, lock) :: rest =>
      if now >? expiresAt lock then scanLocks index len userId now rest
      else if user_neq (lock_userId lock) userId
              && rangesOverlap (mkRange index len) (lock_range lock)
      then (true, (id, lock) :: rest)
      else let (found, rest') := scanLocks index len userId now rest in
           (found, (id, lock) :: rest')
  end.

Definition isRangeLocked (index len : Z) (userId : UserId) (now : Z) : M bool :=
  found <- gets (fun d => fst (scanLocks index len userId now (rangeLocks d))) ;;
  modify (fun d =>
    set_rangeLocks (snd (scanLocks index len userId now (rangeLocks d))) d) ;;
  ret found.

(** ** Mutation primitives *)

Definition transformIndex (index : Z) : Z := index.

Definition insertAt (index : Z) (text : string) (userId : UserId) (now : Z)
  : M Entry :=
  locked <- isRangeLocked index (strlen text) userId now ;;
  if locked : bool then throw RangeIsLocked
  else
    let transformedIndex := transformIndex index in
    modify (fun d => set_quill (quill_insertText transformedIndex text (quill d)) d) ;;
    incrementVersion ;;
    logChange (ChInsert userId transformedIndex text (strlen text)) now.

Definition deleteRange (index len : Z) (userId : UserId) (now : Z) : M Entry :=
  locked <- isRangeLocked index len userId now ;;
  if locked : bool then throw RangeIsLocked
  else
    let transformedIndex := transformIndex index in
    modify (fun d => set_quill (quill_deleteText transformedIndex len (quill d)) d) ;;
    incrementVersion ;;
    logChange (ChDelete userId transformedIndex len) now.

Definition replaceRange (index len : Z) (text : string) (userId : UserId)
  (now : Z) : M Entry :=
  locked <- isRangeLocked index len userId now ;;
  if locked : bool then throw RangeIsLocked
  else
    let transformedIndex := transformIndex index in
    modify (fun d => set_quill (quill_deleteText transformedIndex len (quill d)) d) ;;
    modify (fun d => set_quill (quill_insertText transformedIndex text (quill d)) d) ;;
    incrementVersion ;;
    logChange (ChReplace userId transformedIndex len text (strlen text)) now.

Definition applyDelta (delta : Delta) (userId : UserId) (now : Z) : M Entry :=
  modify (fun d => set_quill (quill_updateContents delta (quill d)) d) ;;
  incrementVersion ;;
  logChange (ChDelta userId delta) now.

Definition getRangeText (index len : Z) (d : Doc) : list ascii :=
  quill_getText index len (quill d).

(** The listener on Quill's [text-change]: only an edit whose source is
    ['user'] is counted and logged here; the edits the primitives make
    through the API are logged by the primitives themselves. *)
Definition handleTextChange (delta : Delta) (source_is_user : bool) (now : Z)
  : M unit :=
  if source_is_user then
    incrementVersion ;;
    logChange (ChExternal delta) now ;;
    ret tt
  else ret tt.

(** ** Suggestions *)

Definition suggestEdit (userId : UserId) (index len : Z) (newText : string)
  (now : Z) : M Suggestion :=
  modify (fun d => set_suggestions (suggestions d) (suggestionCounter d + 1) d) ;;
  suggestionId <- gets suggestionCounter ;;
  old <- gets (getRangeText index len) ;;
  let suggestion :=
    mkSuggestion suggestionId userId (mkRange index len) newText
      (string_of_list_ascii old) Pending now None None None None None in
  modify (fun d =>
    set_suggestions (JsMap.set suggestionId suggestion (suggestions d))
      (suggestionCounter d) d) ;;
  ret suggestion.

Definition mark_accepted (s : Suggestion) (by_ : UserId) (now : Z) : Suggestion :=
  mkSuggestion (suggestionId s) (sg_userId s) (sg_range s) (newText s)
    (oldText s) Accepted (createdAt s) (Some by_) (Some now)
    (rejectedBy s) (rejectedAt s) (rejectionReason s).

Definition mark_rejected (s : Suggestion) (by_ : UserId) (reason : string)
  (now : Z) : Suggestion :=
  mkSuggestion (suggestionId s) (sg_userId s) (sg_range s) (newText s)
    (oldText s) Rejected (createdAt s) (acceptedBy s) (acceptedAt s)
    (Some by_) (Some now) (Some reason).

Definition status_eqb (a b : Status) : bool :=
  match a, b with
  | Pending, Pending | Accepted, Accepted | Rejected, Rejected => true
  | _, _ => false
  end.

Definition acceptSuggestion (suggestionId : Z) (acceptingUserId : UserId)
  (now : Z) : M Suggestion :=
  suggestion <- gets (fun d => JsMap.get suggestionId (suggestions d)) ;;
  match suggestion with
  | None => throw SuggestionNotFound
  | Some suggestion =>
      if negb (status_eqb (status suggestion) Pending)
      then throw (SuggestionAlready (status suggestion))
      else
        replaceRange (r_index (sg_range suggestion))
          (r_length (sg_range suggestion)) (newText suggestion)
          acceptingUserId now ;;
        let suggestion' := mark_accepted suggestion acceptingUserId now in
        modify (fun d =>
          set_suggestions (JsMap.set suggestionId suggestion' (suggestions d))
            (suggestionCounter d) d) ;;
        ret suggestion'
  end.

Definition rejectSuggestion (suggestionId : Z) (rejectingUserId : UserId)
  (reason : string) (now : Z) : M Suggestion :=
  suggestion <- gets (fun d => JsMap.get suggestionId (suggestions d)) ;;
  match suggestion with
  | None => throw SuggestionNotFound
  | Some suggestion =>
      let suggestion' := mark_rejected suggestion rejectingUserId reason now in
      modify (fun d =>
        set_suggestions (JsMap.set suggestionId suggestion' (suggestions d))
          (suggestionCounter d) d) ;;
      ret suggestion'
  end.

(** [clearSuggestions(status)]: ['all'] is [None]. *)
Definition clearSuggestions (st : option Status) : M unit :=
  modify (fun d =>
    match st with
    | None => set_suggestions JsMap.empty (suggestionCounter d) d
    | Some st =>
        set_suggestions
          (filter (fun kv => negb (status_eqb (status (snd kv)) st))
                  (suggestions d))
          (suggestionCounter d) d
    end).

(** ** Quick corrections *)

Definition applyQuickCorrection (userId : UserId) (index len : Z)
  (original correction : string) (alternates : list string) (now : Z)
  : M Correction :=
  modify (fun d => set_corrections (corrections d) (correctionCounter d + 1) d) ;;
  correctionId <- gets correctionCounter ;;
  deleteRange index len userId now ;;
  insertAt index correction userId now ;;
  v <- gets version ;;
  let correctionInfo :=
    mkCorrection correctionId userId (mkRange index (strlen correction))
      original correction alternates now v false None None None None None in
  modify (fun d =>
    set_corrections (JsMap.set correctionId correctionInfo (corrections d))
      (correctionCounter d) d) ;;
  modify (fun d =>
    if JsMap.size (corrections d) >? 100 then
      match JsMap.keys (corrections d) with
      | firstKey :: _ =>
          set_corrections (JsMap.delete firstKey (corrections d))
            (correctionCounter d) d
      | [] => d
      end
    else d) ;;
  ret correctionInfo.

Definition mark_reverted (c : Correction) (by_ : UserId) (now : Z) : Correction :=
  mkCorrection (correctionId c) (c_userId c) (c_range c) (original c)
    (applied c) (alternates c) (c_timestamp c) (c_version c)
    true (Some by_) (Some now)
    (alternateSelected c) (switchedBy c) (switchedAt c).

Definition mark_switched (c : Correction) (alternate : string)
  (alternateIndex : Z) (by_ : UserId) (now : Z) : Correction :=
  mkCorrection (correctionId c) (c_userId c)
    (mkRange (r_index (c_range c)) (strlen alternate)) (original c)
    alternate (alternates c) (c_timestamp c) (c_version c)
    (reverted c) (revertedBy c) (revertedAt c)
    (Some alternateIndex) (Some by_) (Some now).

(** What [revertCorrection] returns:
    [{ correctionId, reverted: true, originalText, version }]. *)
Record RevertResult := mkRevertResult {
  rr_correctionId : Z;
  rr_originalText : string;
  rr_version : Z
}.

Definition revertCorrection (correctionId : Z) (userId : UserId) (now : Z)
  : M RevertResult :=
  correction <- gets (fun d => JsMap.get correctionId (corrections d)) ;;
  match correction with
  | None => throw (CorrectionNotFound correctionId)
  | Some correction =>
      deleteRange (r_index (c_range correction))
        (r_length (c_range correction)) userId now ;;
      insertAt (r_index (c_range correction)) (original correction) userId now ;;
      modify (fun d =>
        set_corrections
          (JsMap.set correctionId (mark_reverted correction userId now)
             (corrections d))
          (correctionCounter d) d) ;;
      v <- gets version ;;
      ret (mkRevertResult correctionId (original correction) v)
  end.

Definition switchToAlternate (correctionId alternateIndex : Z)
  (userId : UserId) (now : Z) : M Correction :=
  correction <- gets (fun d => JsMap.get correctionId (corrections d)) ;;
  match correction with
  | None => throw (CorrectionNotFound correctionId)
  | Some correction =>
      if (alternateIndex <? 0)
         || (alternateIndex >=? Z.of_nat (List.length (alternates correction)))
      then throw (AlternateOutOfRange alternateIndex)
      else
        let alternate :=
          nth (Z.to_nat alternateIndex) (alternates correction) EmptyString in
        deleteRange (r_index (c_range correction))
          (r_length (c_range correction)) userId now ;;
        insertAt (r_index (c_range correction)) alternate userId now ;;
        let correction' :=
          mark_switched correction alternate alternateIndex userId now in
        modify (fun d =>
          set_corrections (JsMap.set correctionId correction' (corrections d))
            (correctionCounter d) d) ;;
        ret correction'
  end.

(** ** Transactions

    [currentTransaction] and the last pushed element of [transactionStack]
    are one object: the current transaction is kept as its position in the
    stack, and commit and rollback update it there. *)

Fixpoint update_nth {A} (n : nat) (f : A -> A) (l : list A) : list A :=
  match l, n with
  | [], _ => []
  | x :: rest, O => f x :: rest
  | x :: rest, S n' => x :: update_nth n' f rest
  end.

Definition beginTransaction (userId : UserId) (now : Z) : M Transaction :=
  cur <- gets currentTransaction ;;
  match cur with
  | Some _ => throw TransactionInProgress
  | None =>
      v <- gets version ;;
      let transaction := mkTransaction userId v [] now None None false None in
      modify (fun d =>
        set_transaction (Some (List.length (transactionStack d)))
          (transactionStack d ++ [transaction]) d) ;;
      ret transaction
  end.

Definition mark_committed (now v : Z) (t : Transaction) : Transaction :=
  mkTransaction (t_userId t) (startVersion t) (changes t) (startedAt t)
    (Some now) (Some v) (rolledBack t) (rolledBackAt t).

Definition mark_rolledBack (now : Z) (t : Transaction) : Transaction :=
  mkTransaction (t_userId t) (startVersion t) (changes t) (startedAt t)
    (committedAt t) (endVersion t) true (Some now).

Definition commitTransaction (now : Z) : M (option Transaction) :=
  cur <- gets currentTransaction ;;
  match cur with
  | None => throw NoTransaction
  | Some i =>
      modify (fun d =>
        set_transaction None
          (update_nth i (mark_committed now (version d)) (transactionStack d)) d) ;;
      gets (fun d => nth_error (transactionStack d) i)
  end.

Definition rollbackTransaction (now : Z) : M (option Transaction) :=
  cur <- gets currentTransaction ;;
  match cur with
  | None => throw NoTransaction
  | Some i =>
      modify (fun d =>
        set_transaction None
          (update_nth i (mark_rolledBack now) (transactionStack d)) d) ;;
      gets (fun d => nth_error (transactionStack d) i)
  end.

(** [run m d]: the document after the call. *)
Definition exec {A} (m : M A) (d : Doc) : Doc := snd (m d).
Definition outcome {A} (m : M A) (d : Doc) : Result A := fst (m d).

(** ** WoolfDirectorBridge: request/response correlation *)

Module Bridge.

(** The state of the promise [run] returned for a request. *)
Inductive PromiseState :=
| Unsettled
| Resolved (result : string)
| Rejected (message : string).

(** A [woolf-control] request posted to the target window. *)
Record Request := mkRequest {
  rq_command : string;
  rq_params : string;
  rq_requestId : Z
}.

(** The data of a [woolf-control-response] message. *)
Record Response := mkResponse {
  rs_requestId : Z;
  rs_success : bool;
  rs_result : string;
  rs_error : option string
}.

(** A pending [setTimeout] of [run]: it closes over the request id and
    the command name. *)
Record Timeout := mkTimeout {
  to_due : Z;
  to_requestId : Z;
  to_command : string
}.

(** [pendingRequests] maps a request id to the [{resolve, reject}] pair of
    its promise; the pair is represented by the id of the promise it
    settles, and [promises] holds the state of every promise handed out. *)
Record t := mkBridge {
  requestCounter : Z;
  pendingRequests : JsMap.t Z;
  promises : JsMap.t PromiseState;
  posted : list Request;
  timeouts : list Timeout;
  listening : bool
}.

(** The constructor registers the response handler. *)
Definition create : t := mkBridge 0 JsMap.empty JsMap.empty [] [] true.

(** [resolve]/[reject] of a promise: only an unsettled promise changes. *)
Definition settle (promise : Z) (s : PromiseState) (ps : JsMap.t PromiseState)
  : JsMap.t PromiseState :=
  match JsMap.get promise ps with
  | Some Unsettled => JsMap.set promise s ps
  | _ => ps
  end.

(** [error || fallback]: a missing or empty message gives the fallback. *)
Definition errorOr (error : option string) (fallback : string) : string :=
  match error with
  | Some EmptyString | None => fallback
  | Some e => e
  end.

(** [run(command, params)] at time [now]; returns the request id, which
    also names the promise. *)
Definition run (command params : string) (now : Z) (b : t) : Z * t :=
  let requestId := requestCounter b + 1 in
  (requestId,
   mkBridge requestId
     (JsMap.set requestId requestId (pendingRequests b))
     (JsMap.set requestId Unsettled (promises b))
     (posted b ++ [mkRequest command params requestId])
     (timeouts b ++ [mkTimeout (now + 30000) requestId command])
     (listening b)).

Definition handleControlResponse (data : Response) (b : t) : t :=
  match JsMap.get (rs_requestId data) (pendingRequests b) with
  | None => b
  | Some promise =>
      mkBridge (requestCounter b)
        (JsMap.delete (rs_requestId data) (pendingRequests b))
        (settle promise
           (if rs_success data then Resolved (rs_result data)
            else Rejected (errorOr (rs_error data) "Unknown error"))
           (promises b))
        (posted b) (timeouts b) (listening b)
  end.

(** A [message] event reaches [handleResponse] only while the listener is
    registered. *)
Definition deliver (data : Response) (b : t) : t :=
  if listening b then handleControlResponse data b else b.

(** The body of the timeout callback of [run]. *)
Definition onTimeout (tm : Timeout) (b : t) : t :=
  if JsMap.has (to_requestId tm) (pendingRequests b) then
    mkBridge (requestCounter b)
      (JsMap.delete (to_requestId tm) (pendingRequests b))
      (settle (to_requestId tm)
         (Rejected ("Command timeout: " ++ to_command tm)%string)
         (promises b))
      (posted b) (timeouts b) (listening b)
  else b.

(** The [n]-th pending timer fires once the clock has reached its due time. *)
Definition fireTimeout (n : nat) (now : Z) (b : t) : t :=
  match nth_error (timeouts b) n with
  | Some tm =>
      if to_due tm <=? now then
        onTimeout tm
          (mkBridge (requestCounter b) (pendingRequests b) (promises b)
             (posted b) (firstn n (timeouts b) ++ skipn (S n) (timeouts b))
             (listening b))
      else b
  | None => b
  end.

(** [destroy()]: the listener is removed and the table is cleared. *)
Definition destroy (b : t) : t :=
  mkBridge (requestCounter b) JsMap.empty (promises b) (posted b)
    (timeouts b) false.

(** What can happen to a bridge from outside. *)
Inductive Event :=
| EvRun (command params : string) (now : Z)
| EvMessage (data : Response)
| EvTimer (n : nat) (now : Z)
| EvDestroy.

Definition step (b : t) (e : Event) : t :=
  match e with
  | EvRun command params now => snd (run command params now b)
  | EvMessage data => deliver data b
  | EvTimer n now => fireTimeout n now b
  | EvDestroy => destroy b
  end.

Definition steps (b : t) (es : list Event) : t := fold_left step es b.

(** The requests whose promise is still unsettled. *)
Definition unsettled (b : t) : list Z :=
  JsMap.keys (filter (fun kv => match snd kv with Unsettled => true | _ => false end)
                     (promises b)).

End Bridge.

(** ** Calls as data: sequences of calls on one document *)

Inductive Primitive :=
| PInsertAt (index : Z) (text : string) (userId : UserId)
| PDeleteRange (index len : Z) (userId : UserId)
| PReplaceRange (index len : Z) (text : string) (userId : UserId)
| PApplyDelta (delta : Delta) (userId : UserId).

Definition runPrimitive (p : Primitive) (now : Z) : M Entry :=
  match p with
  | PInsertAt index text userId => insertAt index text userId now
  | PDeleteRange index len userId => deleteRange index len userId now
  | PReplaceRange index len text userId => replaceRange index len text userId now
  | PApplyDelta delta userId => applyDelta delta userId now
  end.

(** The range a primitive hands to [isRangeLocked]; [applyDelta] asks for
    no lock check. *)
Definition prim_range (p : Primitive) : option Range :=
  match p with
  | PInsertAt index text _ => Some (mkRange index (strlen text))
  | PDeleteRange index len _ => Some (mkRange index len)
  | PReplaceRange index len _ _ => Some (mkRange index len)
  | PApplyDelta _ _ => None
  end.

(** The same call issued by user [u]. *)
Definition prim_as (u : UserId) (p : Primitive) : Primitive :=
  match p with
  | PInsertAt index text _ => PInsertAt index text u
  | PDeleteRange index len _ => PDeleteRange index len u
  | PReplaceRange index len text _ => PReplaceRange index len text u
  | PApplyDelta delta _ => PApplyDelta delta u
  end.

(** A sequence of primitive calls, each at its own time, all of which
    return: the document after the last one, or [None] as soon as one
    throws. *)
Fixpoint runPrimitives (ps : list (Primitive * Z)) (d : Doc) : option Doc :=
  match ps with
  | [] => Some d
  | (p, now) :: rest =>
      match runPrimitive p now d with
      | (Ok _, d') => runPrimitives rest d'
      | (Throw _, _) => None
      end
  end.

(** Any public call of the document, with the time it is made at. *)
Inductive Cmd :=
| CPrimitive (p : Primitive) (now : Z)
| CLockRange (userId : UserId) (index len duration now : Z)
| CUnlockRange (lockId : Z) (userId : UserId)
| CFireTimer (n : nat) (now : Z)
| CIsRangeLocked (index len : Z) (userId : UserId) (now : Z)
| CSuggestEdit (userId : UserId) (index len : Z) (newText : string) (now : Z)
| CAcceptSuggestion (suggestionId : Z) (userId : UserId) (now : Z)
| CRejectSuggestion (suggestionId : Z) (userId : UserId) (reason : string) (now : Z)
| CClearSuggestions (st : option Status)
| CApplyQuickCorrection (userId : UserId) (index len : Z)
    (original correction : string) (alternates : list string) (now : Z)
| CRevertCorrection (correctionId : Z) (userId : UserId) (now : Z)
| CSwitchToAlternate (correctionId alternateIndex : Z) (userId : UserId) (now : Z)
| CBeginTransaction (userId : UserId) (now : Z)
| CCommitTransaction (now : Z)
| CRollbackTransaction (now : Z)
| CSubscribe (callback : Callback)
| CUnsubscribe (subscriberId : Z).

(** The document after a call, whether it returned or threw. *)
Definition runCmd (d : Doc) (c : Cmd) : Doc :=
  match c with
  | CPrimitive p now => exec (runPrimitive p now) d
  | CLockRange u i n dur now => exec (lockRange u i n dur now) d
  | CUnlockRange id u => exec (unlockRange id u) d
  | CFireTimer n now => exec (fireTimer n now) d
  | CIsRangeLocked i n u now => exec (isRangeLocked i n u now) d
  | CSuggestEdit u i n t now => exec (suggestEdit u i n t now) d
  | CAcceptSuggestion id u now => exec (acceptSuggestion id u now) d
  | CRejectSuggestion id u r now => exec (rejectSuggestion id u r now) d
  | CClearSuggestions st => exec (clearSuggestions st) d
  | CApplyQuickCorrection u i n o c alts now =>
      exec (applyQuickCorrection u i n o c alts now) d
  | CRevertCorrection id u now => exec (revertCorrection id u now) d
  | CSwitchToAlternate id k u now => exec (switchToAlternate id k u now) d
  | CBeginTransaction u now => exec (beginTransaction u now) d
  | CCommitTransaction now => exec (commitTransaction now) d
  | CRollbackTransaction now => exec (rollbackTransaction now) d
  | CSubscribe cb => exec (subscribe cb) d
  | CUnsubscribe id => exec (unsubscribe id) d
  end.

Definition runCmds (d : Doc) (cs : list Cmd) : Doc := fold_left runCmd cs d.

(** The documents a session can reach from a freshly constructed one. *)
Definition Reachable (d : Doc) : Prop :=
  exists text cs, d = runCmds (newDoc text) cs.

(** A lock blocks user [u] on range [r] at time [now]. *)
Definition blocks (r : Range) (u : UserId) (now : Z) (lock : RangeLock) : Prop :=
  now <= expiresAt lock /\ lock_userId lock <> u
  /\ rangesOverlap r (lock_range lock) = true.

Definition prim_user (p : Primitive) : UserId :=
  match p with
  | PInsertAt _ _ u | PDeleteRange _ _ u
  | PReplaceRange _ _ _ u | PApplyDelta _ u => u
  end.

(** The answer [isRangeLocked] gives the primitive before it touches the
    buffer. *)
Definition lockedFor (p : Primitive) (now : Z) (d : Doc) : bool :=
  match prim_range p with
  | Some r =>
      fst (scanLocks (r_index r) (r_length r) (prim_user p) now (rangeLocks d))
  | None => false
  end.

(** The buffer a primitive leaves when it is let through. *)
Definition prim_effect (p : Primitive) (b : list ascii) : list ascii :=
  match p with
  | PInsertAt index text _ => quill_insertText index text b
  | PDeleteRange index len _ => quill_deleteText index len b
  | PReplaceRange index len text _ =>
      quill_insertText index text (quill_deleteText index len b)
  | PApplyDelta delta _ => quill_updateContents delta b
  end.

(** The change object a primitive logs. *)
Definition prim_change (p : Primitive) : Change :=
  match p with
  | PInsertAt index text u => ChInsert u index text (strlen text)
  | PDeleteRange index len u => ChDelete u index len
  | PReplaceRange index len text u => ChReplace u index len text (strlen text)
  | PApplyDelta delta u => ChDelta u delta
  end.

(** The log after [push] and the trim to [maxLogSize]. *)
Definition log_append (e : Entry) (log : list Entry) : list Entry :=
  if Z.of_nat (List.length (log ++ [e])) >? maxLogSize
  then slice_last maxLogSize (log ++ [e])
  else log ++ [e].

(** Keys are handed out by a counter: every key of the table is at most
    the counter. *)
Definition keys_below {V} (m : JsMap.t V) (c : Z) : Prop :=
  forall k, In k (JsMap.keys m) -> k <= c.

(** The suggestion table: ids come from the counter, no id occurs twice,
    and a pending suggestion carries no acceptance or rejection yet. *)
Definition sg_wf (m : JsMap.t Suggestion) (c : Z) : Prop :=
  keys_below m c
  /\ NoDup (JsMap.keys m)
  /\ forall k s, In (k, s) m -> status s = Pending ->
       acceptedBy s = None /\ acceptedAt s = None
       /\ rejectedBy s = None /\ rejectedAt s = None.

Definition wf (d : Doc) : Prop :=
  sg_wf (suggestions d) (suggestionCounter d)
  /\ keys_below (changeSubscribers d) (subscriberCounter d)
  /\ keys_below (corrections d) (correctionCounter d).

(** Suggestion [sid] has been decided (or cleared) for good. *)
Definition settled (sid : Z) (d : Doc) : Prop :=
  sid <= suggestionCounter d
  /\ forall s, In (sid, s) (suggestions d) -> status s <> Pending.

(** ** Sessions used as concrete instances *)

Definition sample : Doc := newDoc (chars "Sample document text").

(** Four primitive calls on a fresh document. *)
Definition four_calls : list (Primitive * Z) :=
  [(PInsertAt 0 "Hello" "user1", 1); (PDeleteRange 2 3 "user2", 2);
   (PReplaceRange 0 1 "J" "user1", 3);
   (PApplyDelta [Retain 1; InsertOp "!"] "user1", 4)].

(** Three subscribers, the second of which throws. *)
Definition three_subscribers : list Callback :=
  [(fun _ => Returns); (fun _ => Throws); (fun _ => Returns)].

(** [beginTransaction('user1')], then two inserts by the owner. *)
Definition open_transaction : Doc :=
  runCmds sample
    [CBeginTransaction "user1" 1;
     CPrimitive (PInsertAt 5 "A" "user1") 2;
     CPrimitive (PInsertAt 6 "B" "user1") 3].

(** A lock of one second taken at time 0 whose timer has not run yet. *)
Definition one_lock : Doc :=
  runCmds sample [CLockRange "user1" 10 20 1000 0].

(** Two adjacent locks: [10, 30) by A and [30, 50) by B. *)
Definition two_locks : Doc :=
  runCmds sample
    [CLockRange "A" 10 20 60000 0; CLockRange "B" 30 20 60000 1].

(** A pending suggestion by an agent over [7, 15). *)
Definition one_suggestion : Doc :=
  runCmds sample [CSuggestEdit "llm-agent" 7 8 "manuscript" 1].

(** The same suggestion with its range locked by user1. *)
Definition locked_suggestion : Doc :=
  runCmds sample
    [CSuggestEdit "llm-agent" 7 8 "manuscript" 1;
     CLockRange "user1" 5 10 60000 2].

(** Calls other than the four suggestion calls leave the table alone. *)
Definition suggestion_call (c : Cmd) : bool :=
  match c with
  | CSuggestEdit _ _ _ _ _ | CAcceptSuggestion _ _ _
  | CRejectSuggestion _ _ _ _ | CClearSuggestions _ => true
  | _ => false
  end.

(** Every live lock belongs to [u]: nothing can block a call by [u]. *)
Definition unhindered (u : UserId) (now : Z) (locks : JsMap.t RangeLock) : Prop :=
  forall id lock, In (id, lock) locks -> now <= expiresAt lock ->
    lock_userId lock = u.

(** A correction of "document" into "manuscript" by an agent. *)
Definition corrected_doc : Doc :=
  runCmds sample [CApplyQuickCorrection "llm" 7 8 "document" "manuscript" [] 1].

(** The same correction, with the start of the text then locked by user9. *)
Definition corrected_locked : Doc :=
  runCmds sample
    [CApplyQuickCorrection "llm" 7 8 "document" "manuscript" [] 1;
     CLockRange "user9" 0 30 60000 2].

(** The same correction, reverted once by user1. *)
Definition reverted_doc : Doc :=
  runCmds sample
    [CApplyQuickCorrection "llm" 7 8 "document" "manuscript" [] 1;
     CRevertCorrection 1 "user1" 2].

(** Every key of the table is above [c]. *)
Definition keys_above {V} (m : JsMap.t V) (c : Z) : Prop :=
  forall k, In k (JsMap.keys m) -> c < k.

(** Promises are named by the request ids handed out so far. *)
Definition bridge_wf (b : Bridge.t) : Prop :=
  keys_below (Bridge.promises b) (Bridge.requestCounter b).

(** A bridge destroyed when its counter stood at [c0]: it no longer
    listens, and what its table holds was requested afterwards. *)
Definition destroyed_at (c0 : Z) (b : Bridge.t) : Prop :=
  Bridge.listening b = false
  /\ c0 <= Bridge.requestCounter b
  /\ keys_above (Bridge.pendingRequests b) c0.

(** One request, then [destroy()]. *)
Definition destroyed_with_pending : Bridge.t :=
  Bridge.steps Bridge.create
    [Bridge.EvRun "get-version" "{}" 0; Bridge.EvDestroy].

(** ** Further methods of the document *)

(** [Array.prototype.slice(start)]: a negative start counts from the end,
    and both ends are clamped to the array. *)
Definition js_slice_from {A} (start : Z) (l : list A) : list A :=
  let len := Z.of_nat (List.length l) in
  let k := if start <? 0 then Z.max (len + start) 0 else Z.min start len in
  skipn (Z.to_nat k) l.

Definition getHistory (limit : Z) (d : Doc) : list Entry :=
  js_slice_from (- limit) (changeLog d).

(** The string a status is stored as. *)
Definition status_name (st : Status) : string :=
  match st with
  | Pending => "pending"
  | Accepted => "accepted"
  | Rejected => "rejected"
  end.

(** [getSuggestions(status = null)]: a missing or empty status is falsy and
    selects everything. *)
Definition getSuggestions (st : option string) (d : Doc) : list Suggestion :=
  match st with
  | None | Some EmptyString => JsMap.values (suggestions d)
  | Some name =>
      filter (fun s => String.eqb (status_name (status s)) name)
             (JsMap.values (suggestions d))
  end.

(** The [filters] object of [getCorrections]: an absent or empty [userId]
    and an undefined [reverted] select everything. *)
Record CorrectionFilters := mkFilters {
  f_userId : option UserId;
  f_reverted : option bool
}.

Definition getCorrections (filters : CorrectionFilters) (d : Doc)
  : list Correction :=
  let results := JsMap.values (corrections d) in
  let results :=
    match f_userId filters with
    | None | Some EmptyString => results
    | Some u => filter (fun c => String.eqb (c_userId c) u) results
    end in
  match f_reverted filters with
  | None => results
  | Some r => filter (fun c => Bool.eqb (reverted c) r) results
  end.

Definition range_contains (r : Range) (index : Z) : bool :=
  (index >=? r_index r) && (index <? r_index r + r_length r).

Definition getCorrectionAt (index : Z) (d : Doc) : option Correction :=
  find (fun c => range_contains (c_range c) index) (JsMap.values (corrections d)).

(** The loop of [clearOldCorrections]: what is kept and how many entries
    were deleted. *)
Fixpoint clearOld_loop (maxAge now : Z) (m : JsMap.t Correction)
  : JsMap.t Correction * Z :=
  match m with
  | [] => ([], 0)
  | (id, correction) :: rest =>
      let (kept, cleared) := clearOld_loop maxAge now rest in
      if now - c_timestamp correction >? maxAge then (kept, cleared + 1)
      else ((id, correction) :: kept, cleared)
  end.

Definition clearOldCorrections (maxAge now : Z) : M Z :=
  cleared <- gets (fun d => snd (clearOld_loop maxAge now (corrections d))) ;;
  modify (fun d =>
    set_corrections (fst (clearOld_loop maxAge now (corrections d)))
      (correctionCounter d) d) ;;
  ret cleared.




(** Every call that changes the document: the calls of [Cmd], an edit
    reported by the editor and the clean-up of old corrections. *)
Inductive Call :=
| Public (c : Cmd)
| TextChange (delta : Delta) (source_is_user : bool) (now : Z)
| ClearOldCorrections (maxAge now : Z).

Definition runCall (d : Doc) (c : Call) : Doc :=
  match c with
  | Public c => runCmd d c
  | TextChange delta source_is_user now =>
      exec (handleTextChange delta source_is_user now) d
  | ClearOldCorrections maxAge now => exec (clearOldCorrections maxAge now) d
  end.

Definition runCalls (d : Doc) (cs : list Call) : Doc := fold_left runCall cs d.

(** The documents a session can produce. *)
Definition Reached (d : Doc) : Prop :=
  exists text cs, d = runCalls (newDoc text) cs.

(** A method keeps an invariant, whether it returns or throws. *)
Definition preserves {A} (I : Doc -> Prop) (m : M A) : Prop :=
  forall d, I d -> I (snd (m d)).

Definition version_lt (a b : Entry) : Prop := e_version a < e_version b.

(** The change log against the version counter. *)
Definition log_ok (d : Doc) : Prop :=
  0 <= version d
  /\ Z.of_nat (List.length (changeLog d)) <= maxLogSize
  /\ StronglySorted version_lt (changeLog d)
  /\ Forall (fun e => 1 <= e_version e <= version d) (changeLog d).

(** No two locks of different users overlap. *)
Definition exclusive (locks : JsMap.t RangeLock) : Prop :=
  forall id1 l1 id2 l2,
    In (id1, l1) locks -> In (id2, l2) locks ->
    lock_userId l1 <> lock_userId l2 ->
    rangesOverlap (lock_range l1) (lock_range l2) = false.

(** The lock table against its counter and the release timers. *)
Definition locks_ok (d : Doc) : Prop :=
  keys_below (rangeLocks d) (lockCounter d)
  /\ NoDup (JsMap.keys (rangeLocks d))
  /\ (forall id l, In (id, l) (rangeLocks d) -> lockId l = id)
  /\ exclusive (rangeLocks d)
  /\ (forall tm, In tm (timers d) ->
        tm_lockId tm <= lockCounter d
        /\ forall l, In (tm_lockId tm, l) (rangeLocks d) ->
             lock_userId l = tm_userId tm)
  /\ (forall id l, In (id, l) (rangeLocks d) ->
        In (mkTimer (expiresAt l) id (lock_userId l)) (timers d)).

Definition corrections_ok (d : Doc) : Prop :=
  JsMap.size (corrections d) <= 100
  /\ keys_below (corrections d) (correctionCounter d)
  /\ NoDup (JsMap.keys (corrections d)).

Definition tx_open (t : Transaction) : Prop :=
  committedAt t = None /\ rolledBack t = false.

Definition tx_closed (t : Transaction) : Prop :=
  (committedAt t <> None /\ rolledBack t = false)
  \/ (committedAt t = None /\ rolledBack t = true).

(** The transaction stack: the open transaction, if any, is the last one
    pushed, and every other one was committed or rolled back, not both. *)
Definition tx_ok (d : Doc) : Prop :=
  (forall j t, nth_error (transactionStack d) j = Some t ->
     startVersion t <= version d
     /\ (currentTransaction d = Some j -> tx_open t)
     /\ (currentTransaction d <> Some j -> tx_closed t)
     /\ (forall v, endVersion t = Some v -> startVersion t <= v <= version d))
  /\ (forall i, currentTransaction d = Some i ->
        S i = List.length (transactionStack d)).

(** The versions of the log are consecutive and end at the current one. *)
Definition log_consecutive (d : Doc) : Prop :=
  (forall k e, nth_error (changeLog d) k = Some e ->
     e_version e
     = version d - Z.of_nat (List.length (changeLog d)) + 1 + Z.of_nat k)
  /\ (changeLog d = [] -> version d = 0).

(** The eviction step of [applyQuickCorrection]: past 100 entries the
    first key of the map goes. *)
Definition evict_oldest (m : JsMap.t Correction) : JsMap.t Correction :=
  if JsMap.size m >? 100 then
    match JsMap.keys m with
    | firstKey :: _ => JsMap.delete firstKey m
    | [] => m
    end
  else m.

(** A correction recorded with two alternates. *)
Definition corrected_alt : Doc :=
  runCmds sample
    [CApplyQuickCorrection "llm" 7 8 "document" "manuscript"
       ["paper"; "draft"]%string 1].

(** A lock by user9 right behind the word "document". *)
Definition locked_behind : Doc :=
  runCmds sample [CLockRange "user9" 15 5 60000 0].

(** ** WoolfWorkerBridge: the frame that executes the commands *)

Module Worker.

(** What [addressWoolf.run(command, params)] does: it returns a result or
    throws an error with a message. *)
Inductive Outcome :=
| Returned (result : string)
| Threw (message : string).


End Worker.

(** A director bridge that has not been destroyed: it listens, its table
    holds each id once, under the id of its own promise, and the ids of
    the table are those of the unsettled promises. *)
Definition alive (b : Bridge.t) : Prop :=
  Bridge.listening b = true
  /\ NoDup (JsMap.keys (Bridge.pendingRequests b))
  /\ keys_below (Bridge.promises b) (Bridge.requestCounter b)
  /\ (forall id promise,
        JsMap.get id (Bridge.pendingRequests b) = Some promise -> promise = id)
  /\ (forall id,
        JsMap.has id (Bridge.pendingRequests b) = true
        <-> JsMap.get id (Bridge.promises b) = Some Bridge.Unsettled).

Definition is_destroy (e : Bridge.Event) : bool :=
  match e with Bridge.EvDestroy => true | _ => false end.



(** ** Cursors, selections and presence

    [cursors], [selections] and [activeUsers] are Maps keyed by user id
    that no other method of the document reads or writes; they are kept
    in a record of their own. *)

Module UserMap.
Section Defs.
Context {V : Type}.

Definition t := list (UserId * V).

Definition empty : t := [].

Fixpoint get (k : UserId) (m : t) : option V :=
  match m with
  | [] => None
  | (k', v) :: rest => if String.eqb k' k then Some v else get k rest
  end.

Definition has (k : UserId) (m : t) : bool :=
  match get k m with Some _ => true | None => false end.

Fixpoint set (k : UserId) (v : V) (m : t) : t :=
  match m with
  | [] => [(k, v)]
  | (k', v') :: rest =>
      if String.eqb k' k then (k, v) :: rest else (k', v') :: set k v rest
  end.

Fixpoint delete (k : UserId) (m : t) : t :=
  match m with
  | [] => []
  | (k', v') :: rest =>
      if String.eqb k' k then rest else (k', v') :: delete k rest
  end.

Definition keys (m : t) : list UserId := map fst m.
End Defs.
Arguments t : clear implicits.
End UserMap.

Module Presence.

(** An entry of [cursors] or [selections]. *)
Record Cursor := mkCursor {
  c_index : Z;
  c_length : Z;
  c_timestamp : Z
}.

(** An entry of [activeUsers]. *)
Record User := mkUser {
  u_name : string;
  u_type : string;
  lastSeen : Z;
  joinedAt : Z
}.

Record t := mkPresence {
  cursors : UserMap.t Cursor;
  selections : UserMap.t Cursor;
  activeUsers : UserMap.t User
}.

Definition create : t := mkPresence UserMap.empty UserMap.empty UserMap.empty.

Definition setCursor (userId : UserId) (index now : Z) (p : t) : t :=
  mkPresence (UserMap.set userId (mkCursor index 0 now) (cursors p))
    (selections p) (activeUsers p).

Definition getCursor (userId : UserId) (p : t) : option Cursor :=
  UserMap.get userId (cursors p).

Definition setSelection (userId : UserId) (index len now : Z) (p : t) : t :=
  setCursor userId index now
    (mkPresence (cursors p)
       (UserMap.set userId (mkCursor index len now) (selections p))
       (activeUsers p)).

(** [selections.get(userId) || getCursor(userId)]. *)
Definition getSelection (userId : UserId) (p : t) : option Cursor :=
  match UserMap.get userId (selections p) with
  | Some s => Some s
  | None => getCursor userId p
  end.

(** The listener on Quill's [selection-change]; [range] is [None] when the
    editor lost the focus. *)
Definition handleSelectionChange (range : option Range) (source_is_user : bool)
  (now : Z) (p : t) : t :=
  match source_is_user, range with
  | true, Some r => setSelection "system" (r_index r) (r_length r) now p
  | _, _ => p
  end.

Definition getActiveUsers (activeThresholdMs now : Z) (p : t)
  : list (UserId * User) :=
  filter (fun entry => now - lastSeen (snd entry) <? activeThresholdMs)
         (activeUsers p).

Definition announcePresence (userId : UserId) (userName userType : string)
  (now : Z) (p : t) : list (UserId * User) * t :=
  let joined :=
    match UserMap.get userId (activeUsers p) with
    | Some user => joinedAt user
    | None => now
    end in
  let p' :=
    mkPresence (cursors p) (selections p)
      (UserMap.set userId (mkUser userName userType now joined)
         (activeUsers p)) in
  (getActiveUsers 60000 now p', p').

Definition updatePresence (userId : UserId) (now : Z) (p : t) : t :=
  match UserMap.get userId (activeUsers p) with
  | Some user =>
      mkPresence (cursors p) (selections p)
        (UserMap.set userId
           (mkUser (u_name user) (u_type user) now (joinedAt user))
           (activeUsers p))
  | None => p
  end.

Definition removePresence (userId : UserId) (p : t) : t :=
  mkPresence (UserMap.delete userId (cursors p))
    (UserMap.delete userId (selections p))
    (UserMap.delete userId (activeUsers p)).

(** The calls that change the three tables. *)
Inductive Event :=
| SetCursor (userId : UserId) (index now : Z)
| SetSelection (userId : UserId) (index len now : Z)
| SelectionChange (range : option Range) (source_is_user : bool) (now : Z)
| Announce (userId : UserId) (userName userType : string) (now : Z)
| Update (userId : UserId) (now : Z)
| Remove (userId : UserId).

Definition step (p : t) (e : Event) : t :=
  match e with
  | SetCursor userId index now => setCursor userId index now p
  | SetSelection userId index len now => setSelection userId index len now p
  | SelectionChange range src now => handleSelectionChange range src now p
  | Announce userId userName userType now =>
      snd (announcePresence userId userName userType now p)
  | Update userId now => updatePresence userId now p
  | Remove userId => removePresence userId p
  end.

Definition steps (p : t) (es : list Event) : t := fold_left step es p.

Definition removes (userId : UserId) (e : Event) : bool :=
  match e with
  | Remove u => String.eqb u userId
  | _ => false
  end.

(** No user id occurs twice in a table. *)
Definition wf (p : t) : Prop :=
  NoDup (UserMap.keys (cursors p))
  /\ NoDup (UserMap.keys (selections p))
  /\ NoDup (UserMap.keys (activeUsers p)).

End Presence.

(** Two users at work, one of whom announces itself again. *)
Definition two_users : list Presence.Event :=
  [Presence.Announce "llm" "Assistant" "llm" 10;
   Presence.SetSelection "llm" 4 6 20;
   Presence.Announce "user1" "Ann" "human" 30;
   Presence.SetCursor "llm" 12 40;
   Presence.Update "llm" 50].

(** ** Annotations

    [annotations] and [annotationCounter] are used by these three methods
    only. *)

Module Annotations.

Record Annotation := mkAnnotation {
  annotationId : Z;
  a_userId : UserId;
  a_range : Range;
  a_text : string;
  a_type : string;
  createdAt : Z
}.

Record t := mkStore {
  annotations : JsMap.t Annotation;
  annotationCounter : Z
}.

Definition create : t := mkStore JsMap.empty 0.

Definition annotate (userId : UserId) (index len : Z) (text type : string)
  (now : Z) (a : t) : Annotation * t :=
  let annotationId := annotationCounter a + 1 in
  let annotation :=
    mkAnnotation annotationId userId (mkRange index len) text type now in
  (annotation,
   mkStore (JsMap.set annotationId annotation (annotations a)) annotationId).

(** [filterType] is tested for truthiness: no filter and the empty string
    both give every annotation. *)
Definition getAnnotations (filterType : option string) (a : t)
  : list Annotation :=
  match filterType with
  | None | Some EmptyString => JsMap.values (annotations a)
  | Some ty =>
      filter (fun an => String.eqb (a_type an) ty)
             (JsMap.values (annotations a))
  end.

(** [Map.delete] tells whether the key was present. *)
Definition deleteAnnotation (annotationId : Z) (a : t) : bool * t :=
  (JsMap.has annotationId (annotations a),
   mkStore (JsMap.delete annotationId (annotations a)) (annotationCounter a)).

Inductive Event :=
| Annotate (userId : UserId) (index len : Z) (text type : string) (now : Z)
| Delete (annotationId : Z).

Definition step (a : t) (e : Event) : t :=
  match e with
  | Annotate userId index len text type now =>
      snd (annotate userId index len text type now a)
  | Delete annotationId => snd (deleteAnnotation annotationId a)
  end.

Definition steps (a : t) (es : list Event) : t := fold_left step es a.

(** Ids come from the counter and every annotation is stored under its
    own id, oldest first. *)
Definition wf (a : t) : Prop :=
  keys_below (annotations a) (annotationCounter a)
  /\ StronglySorted Z.lt (JsMap.keys (annotations a))
  /\ (forall k an, In (k, an) (annotations a) -> annotationId an = k).

End Annotations.

(** Three annotations, the second of which is deleted again. *)
Definition three_annotations : list Annotations.Event :=
  [Annotations.Annotate "user1" 0 6 "opening" "comment" 1;
   Annotations.Annotate "llm" 7 8 "word choice" "style" 2;
   Annotations.Delete 2;
   Annotations.Annotate "llm" 16 4 "ending" "comment" 3].

(** ** WoolfDirectorBridgeStream: requests of the streaming client *)

Module StreamDirector.

(** What a promise of the bridge can be resolved with: the stream id, for
    [registerStream], or the result of a command, for [run]. *)
Inductive Value :=
| StreamId (streamId : Z)
| Result (result : string).

Inductive PromiseState :=
| Unsettled
| Resolved (value : Value)
| Rejected (message : string).

(** A pending [setTimeout] of [registerStream] or [run], with the message
    it rejects with. *)
Record Timeout := mkTimeout {
  to_due : Z;
  to_requestId : Z;
  to_message : string
}.

(** As for the director bridge, the [{resolve, reject}] pair stored under
    a request id is represented by the id of the promise it settles. *)
Record t := mkBridge {
  requestIdCounter : Z;
  pendingRequests : JsMap.t Z;
  promises : JsMap.t PromiseState;
  streamId : option Z;
  timeouts : list Timeout
}.

Definition create : t := mkBridge 0 JsMap.empty JsMap.empty None [].

Definition settle (promise : Z) (s : PromiseState) (ps : JsMap.t PromiseState)
  : JsMap.t PromiseState :=
  match JsMap.get promise ps with
  | Some Unsettled => JsMap.set promise s ps
  | _ => ps
  end.

(** The common part of [registerStream] and [run]: a new request id, its
    entry in the table, and the timeout. *)
Definition request (delay : Z) (message : string) (now : Z) (b : t) : Z * t :=
  let requestId := requestIdCounter b + 1 in
  (requestId,
   mkBridge requestId
     (JsMap.set requestId requestId (pendingRequests b))
     (JsMap.set requestId Unsettled (promises b))
     (streamId b)
     (timeouts b ++ [mkTimeout (now + delay) requestId message])).

Definition registerStream (now : Z) (b : t) : Z * t :=
  request 5000 "Stream registration timeout" now b.

Definition run (command params : string) (now : Z) (b : t) : Z * t :=
  request 10000 "Command timeout" now b.

(** [unregisterStream]: nothing happens without a (truthy) stream id. *)
Definition unregisterStream (b : t) : t :=
  match streamId b with
  | None | Some 0 => b
  | Some _ =>
      mkBridge (requestIdCounter b) (pendingRequests b) (promises b) None
        (timeouts b)
  end.

(** The messages [handleMessage] distinguishes; the four kinds of event
    message only reach the event handlers. *)
Inductive Message :=
| StreamRegistered (streamId : Z)
| EventMessage
| Response (requestId : Z) (success : bool) (result error : string).

(** The loop over the entries of [pendingRequests] that the
    [woolf-stream-registered] branch runs: each entry is resolved with
    the stream id and deleted. *)
Fixpoint resolve_entries (entries : list (Z * Z)) (sid : Z) (b : t) : t :=
  match entries with
  | [] => b
  | (reqId, pending) :: rest =>
      resolve_entries rest sid
        (mkBridge (requestIdCounter b)
           (JsMap.delete reqId (pendingRequests b))
           (settle pending (Resolved (StreamId sid)) (promises b))
           (streamId b) (timeouts b))
  end.

Definition handleMessage (m : Message) (b : t) : t :=
  match m with
  | StreamRegistered sid =>
      resolve_entries (pendingRequests b) sid
        (mkBridge (requestIdCounter b) (pendingRequests b) (promises b)
           (Some sid) (timeouts b))
  | EventMessage => b
  | Response requestId success result error =>
      match JsMap.get requestId (pendingRequests b) with
      | Some pending =>
          mkBridge (requestIdCounter b)
            (JsMap.delete requestId (pendingRequests b))
            (settle pending
               (if success then Resolved (Result result) else Rejected error)
               (promises b))
            (streamId b) (timeouts b)
      | None => b
      end
  end.

Definition onTimeout (tm : Timeout) (b : t) : t :=
  if JsMap.has (to_requestId tm) (pendingRequests b) then
    mkBridge (requestIdCounter b)
      (JsMap.delete (to_requestId tm) (pendingRequests b))
      (settle (to_requestId tm) (Rejected (to_message tm)) (promises b))
      (streamId b) (timeouts b)
  else b.

Definition fireTimeout (n : nat) (now : Z) (b : t) : t :=
  match nth_error (timeouts b) n with
  | Some tm =>
      if to_due tm <=? now then
        onTimeout tm
          (mkBridge (requestIdCounter b) (pendingRequests b) (promises b)
             (streamId b) (firstn n (timeouts b) ++ skipn (S n) (timeouts b)))
      else b
  | None => b
  end.

Inductive Event :=
| EvRegisterStream (now : Z)
| EvRun (command params : string) (now : Z)
| EvUnregisterStream
| EvMessage (m : Message)
| EvTimer (n : nat) (now : Z).

Definition step (b : t) (e : Event) : t :=
  match e with
  | EvRegisterStream now => snd (registerStream now b)
  | EvRun command params now => snd (run command params now b)
  | EvUnregisterStream => unregisterStream b
  | EvMessage m => handleMessage m b
  | EvTimer n now => fireTimeout n now b
  end.

Definition steps (b : t) (es : list Event) : t := fold_left step es b.

(** The table holds each id once, under the id of its own promise, and
    its ids are those of the unsettled promises. *)
Definition wf (b : t) : Prop :=
  NoDup (JsMap.keys (pendingRequests b))
  /\ keys_below (promises b) (requestIdCounter b)
  /\ (forall id promise,
        JsMap.get id (pendingRequests b) = Some promise -> promise = id)
  /\ (forall id,
        In id (JsMap.keys (pendingRequests b))
        <-> JsMap.get id (promises b) = Some Unsettled).

End StreamDirector.

(** A registration and a command, both still waiting. *)
Definition register_and_run : list StreamDirector.Event :=
  [StreamDirector.EvRegisterStream 0;
   StreamDirector.EvRun "get-version" "{}" 1].

(** ** The director bridge when posting fails

    [run] stores the entry of the request before it calls [postMessage];
    when [postMessage] throws inside the promise executor (params that
    cannot be cloned, a target window that is gone) the promise is rejected
    with the error thrown, nothing is posted and the timeout is never
    scheduled. *)
Definition run_post_throws (message : string) (b : Bridge.t) : Z * Bridge.t :=
  let requestId := Bridge.requestCounter b + 1 in
  (requestId,
   Bridge.mkBridge requestId
     (JsMap.set requestId requestId (Bridge.pendingRequests b))
     (JsMap.set requestId (Bridge.Rejected message) (Bridge.promises b))
     (Bridge.posted b) (Bridge.timeouts b) (Bridge.listening b)).

(** What can happen to a director bridge that is not destroyed; a [run]
    comes with the outcome of its [postMessage]. *)
Inductive LiveEvent :=
| LvRun (command params : string) (now : Z)
| LvRunPostThrows (command params message : string)
| LvMessage (data : Bridge.Response)
| LvTimer (n : nat) (now : Z).

Definition live_step (b : Bridge.t) (e : LiveEvent) : Bridge.t :=
  match e with
  | LvRun command params now => snd (Bridge.run command params now b)
  | LvRunPostThrows _ _ message => snd (run_post_throws message b)
  | LvMessage data => Bridge.deliver data b
  | LvTimer n now => Bridge.fireTimeout n now b
  end.

Definition live_steps (b : Bridge.t) (es : list LiveEvent) : Bridge.t :=
  fold_left live_step es b.

Definition post_returned (e : LiveEvent) : bool :=
  match e with LvRunPostThrows _ _ _ => false | _ => true end.

(** A live bridge, whether or not every post returned: it listens, its
    table holds each id once, under the id of its own promise, and every
    unsettled promise has its entry in the table. *)
Definition live_ok (b : Bridge.t) : Prop :=
  Bridge.listening b = true
  /\ NoDup (JsMap.keys (Bridge.pendingRequests b))
  /\ keys_below (Bridge.promises b) (Bridge.requestCounter b)
  /\ (forall id promise,
        JsMap.get id (Bridge.pendingRequests b) = Some promise -> promise = id)
  /\ (forall id,
        JsMap.get id (Bridge.promises b) = Some Bridge.Unsettled ->
        JsMap.has id (Bridge.pendingRequests b) = true).

(** A request, a request whose post throws, and a third request. *)
Definition failed_post : list LiveEvent :=
  [LvRun "get-version" "{}" 0;
   LvRunPostThrows "set-content" "{}" "DataCloneError";
   LvRun "get-text" "{}" 5].

(** * Properties *)

(** ** Tactics for unfolding method bodies *)

Ltac js_unfold :=
  unfold exec, outcome, runPrimitive,
    applyQuickCorrection, revertCorrection, switchToAlternate,
    acceptSuggestion, rejectSuggestion, suggestEdit, clearSuggestions,
    insertAt, deleteRange, replaceRange, applyDelta,
    isRangeLocked, lockRange, fireTimer, unlockRange,
    beginTransaction, commitTransaction, rollbackTransaction,
    subscribe, unsubscribe, logChange, notifySubscribers, incrementVersion,
    transformIndex, bind, gets, modify, ret, throw in *.

Ltac js_case :=
  match goal with
  | |- context [match ?x with _ => _ end] =>
      lazymatch x with
      | context [match _ with _ => _ end] => fail
      | _ => destruct x eqn:?
      end
  end.

Ltac js_cases := repeat (simpl; js_case); simpl.

(** ** Lock-table lemmas *)

Lemma rangesOverlap_spec (a b : Range) :
  rangesOverlap a b = true <->
  r_index a < r_index b + r_length b /\ r_index b < r_index a + r_length a.
Proof.
  unfold rangesOverlap. rewrite andb_true_iff, !Z.ltb_lt. tauto.
Qed.

(** On ranges of positive length the test is exactly "the two half-open
    intervals share a position". *)
Lemma rangesOverlap_shared_position (a b : Range) :
  0 < r_length a -> 0 < r_length b ->
  (rangesOverlap a b = true <->
   exists x, r_index a <= x < r_index a + r_length a
          /\ r_index b <= x < r_index b + r_length b).
Proof.
  intros Ha Hb. rewrite rangesOverlap_spec. split.
  - intros [H1 H2]. exists (Z.max (r_index a) (r_index b)). lia.
  - intros [x Hx]. lia.
Qed.

Lemma user_neq_true (a b : UserId) : user_neq a b = true <-> a <> b.
Proof.
  unfold user_neq. rewrite negb_true_iff.
  destruct (String.eqb_spec a b); split; congruence.
Qed.

Lemma user_neq_refl (a : UserId) : user_neq a a = false.
Proof. unfold user_neq. now rewrite String.eqb_refl. Qed.

Lemma scanLocks_true_iff i n u now locks :
  fst (scanLocks i n u now locks) = true <->
  exists id lock, In (id, lock) locks /\ blocks (mkRange i n) u now lock.
Proof.
  unfold blocks. induction locks as [|[id lock] rest IH]; simpl.
  - split; [discriminate | intros (?&?&[]&_)].
  - destruct (now >? expiresAt lock) eqn:Hexp.
    + rewrite IH. split.
      * intros (id'&l'&Hin&H). exists id', l'. auto.
      * intros (id'&l'&[Heq|Hin]&H); [|eauto].
        inversion Heq; subst. apply Z.gtb_lt in Hexp. lia.
    + destruct (user_neq (lock_userId lock) u
                && rangesOverlap (mkRange i n) (lock_range lock)) eqn:Hb.
      * simpl. split; [intros _|reflexivity].
        apply andb_true_iff in Hb. destruct Hb as [Hu Ho].
        apply user_neq_true in Hu.
        exists id, lock. repeat split; auto.
        destruct (Z.gtb_spec now (expiresAt lock)); [discriminate | lia].
      * destruct (scanLocks i n u now rest) as [found rest'] eqn:Hs.
        simpl in *. rewrite IH. split.
        -- intros (id'&l'&Hin&H). exists id', l'. auto.
        -- intros (id'&l'&[Heq|Hin]&H); [|eauto].
           inversion Heq; subst. destruct H as (_&Hu&Ho).
           apply user_neq_true in Hu. rewrite Hu, Ho in Hb. discriminate.
Qed.

Lemma scanLocks_false_iff i n u now locks :
  fst (scanLocks i n u now locks) = false <->
  forall id lock, In (id, lock) locks -> ~ blocks (mkRange i n) u now lock.
Proof.
  split.
  - intros H id lock Hin Hb.
    assert (fst (scanLocks i n u now locks) = true)
      by (apply scanLocks_true_iff; eauto).
    congruence.
  - intros H. destruct (fst (scanLocks i n u now locks)) eqn:E; [|reflexivity].
    apply scanLocks_true_iff in E. destruct E as (id&lock&Hin&Hb).
    exfalso. eapply H; eauto.
Qed.

(** ** What a primitive call does *)

Lemma runPrimitive_locked p now d :
  lockedFor p now d = true ->
  let r := runPrimitive p now d in
  fst r = Throw RangeIsLocked
  /\ quill (snd r) = quill d
  /\ version (snd r) = version d
  /\ changeLog (snd r) = changeLog d
  /\ suggestions (snd r) = suggestions d
  /\ corrections (snd r) = corrections d
  /\ delivered (snd r) = delivered d.
Proof.
  unfold lockedFor.
  destruct p; simpl; intros H; try discriminate;
    js_unfold; simpl; rewrite H; simpl; repeat split; reflexivity.
Qed.

Lemma runPrimitive_unlocked p now d :
  lockedFor p now d = false ->
  let r := runPrimitive p now d in
  let e := mkEntry (prim_change p) (version d + 1) now in
  fst r = Ok e
  /\ quill (snd r) = prim_effect p (quill d)
  /\ version (snd r) = version d + 1
  /\ changeLog (snd r) = log_append e (changeLog d)
  /\ suggestions (snd r) = suggestions d
  /\ suggestionCounter (snd r) = suggestionCounter d
  /\ corrections (snd r) = corrections d
  /\ correctionCounter (snd r) = correctionCounter d
  /\ currentTransaction (snd r) = currentTransaction d
  /\ delivered (snd r) = delivered d ++ notify_loop (changeSubscribers d) e.
Proof.
  unfold lockedFor, log_append.
  destruct p; simpl; intros H;
    js_unfold; simpl; try rewrite H; simpl;
    repeat split; try reflexivity;
    destruct (Z.of_nat (List.length (changeLog d ++ _)) >? maxLogSize);
    reflexivity.
Qed.

Lemma runPrimitive_dichotomy p now d :
  (lockedFor p now d = true /\ fst (runPrimitive p now d) = Throw RangeIsLocked)
  \/ (lockedFor p now d = false /\ exists e, fst (runPrimitive p now d) = Ok e).
Proof.
  destruct (lockedFor p now d) eqn:H.
  - left. split; auto. now apply runPrimitive_locked.
  - right. split; auto. eexists. now apply runPrimitive_unlocked.
Qed.

(** ** Version counter *)

Lemma runPrimitive_ok_version p now d e d' :
  runPrimitive p now d = (Ok e, d') ->
  version d' = version d + 1 /\ e_version e = version d'.
Proof.
  intros H. destruct (lockedFor p now d) eqn:L.
  - apply (runPrimitive_locked p now d) in L. simpl in L.
    rewrite H in L. simpl in L. destruct L as [L _]. discriminate.
  - apply (runPrimitive_unlocked p now d) in L. simpl in L.
    rewrite H in L. simpl in L. destruct L as (He & _ & Hv & _).
    inversion He; subst e. simpl. lia.
Qed.

Lemma runPrimitive_throw_version p now d err d' :
  runPrimitive p now d = (Throw err, d') ->
  version d' = version d /\ quill d' = quill d /\ changeLog d' = changeLog d.
Proof.
  intros H. destruct (lockedFor p now d) eqn:L.
  - apply (runPrimitive_locked p now d) in L. simpl in L.
    rewrite H in L. simpl in L. tauto.
  - apply (runPrimitive_unlocked p now d) in L. simpl in L.
    rewrite H in L. simpl in L. destruct L as [L _]. discriminate.
Qed.

Lemma runPrimitives_prefix ps : forall d d' (k : nat),
  runPrimitives ps d = Some d' ->
  (k <= List.length ps)%nat ->
  exists dk, runPrimitives (firstn k ps) d = Some dk
          /\ version dk = version d + Z.of_nat k.
Proof.
  induction ps as [|[p now] rest IH]; intros d d' k Hrun Hk.
  - simpl in Hk. assert (k = 0%nat) by lia. subst k.
    exists d. simpl. split; [reflexivity | lia].
  - destruct k as [|k].
    + exists d. simpl. split; [reflexivity | lia].
    + simpl in Hrun, Hk |- *.
      destruct (runPrimitive p now d) as [[e|err] d1] eqn:Hp; [|discriminate].
      apply runPrimitive_ok_version in Hp. destruct Hp as [Hv _].
      destruct (IH d1 d' k Hrun ltac:(lia)) as (dk & Hdk & Hvk).
      exists dk. split; [assumption | lia].
Qed.

(** C6. With no transaction open, a sequence of N mutation-primitive calls
    ([insertAt], [deleteRange], [replaceRange], [applyDelta]) that all
    return raises the document version by exactly N; after the first k of
    them it stands at the initial version plus k, so every call adds
    exactly one and the version never decreases. *)
Theorem version_counts_primitive_calls ps d d' :
  currentTransaction d = None ->
  runPrimitives ps d = Some d' ->
  version d' = version d + Z.of_nat (List.length ps)
  /\ forall k : nat, (k <= List.length ps)%nat ->
       exists dk, runPrimitives (firstn k ps) d = Some dk
               /\ version dk = version d + Z.of_nat k.
Proof.
  intros _ Hrun. split.
  - destruct (runPrimitives_prefix ps d d' (List.length ps) Hrun (le_n _))
      as (dk & Hdk & Hv).
    rewrite firstn_all in Hdk. congruence.
  - intros k Hk. eapply runPrimitives_prefix; eauto.
Qed.

Lemma version_counts_primitive_calls_witness :
  exists d', runPrimitives four_calls sample = Some d' /\ version d' = 4.
Proof.
  destruct (runPrimitives four_calls sample) as [d'|] eqn:E; [|discriminate E].
  exists d'. split; [reflexivity|].
  destruct (version_counts_primitive_calls four_calls sample d' eq_refl E)
    as [H _].
  exact H.
Defined.

(** ** Insertion-ordered maps *)

Lemma JsMap_get_In {V} k (m : JsMap.t V) v :
  JsMap.get k m = Some v -> In k (JsMap.keys m).
Proof.
  induction m as [|[k' v'] rest IH]; simpl; [discriminate|].
  destruct (Z.eqb_spec k' k); intros H; [left; assumption | right; auto].
Qed.

Lemma JsMap_get_None {V} k (m : JsMap.t V) :
  ~ In k (JsMap.keys m) -> JsMap.get k m = None.
Proof.
  induction m as [|[k' v'] rest IH]; simpl; [reflexivity|].
  intros H. destruct (Z.eqb_spec k' k); [exfalso; auto | apply IH; auto].
Qed.

Lemma JsMap_set_fresh {V} k (v : V) m :
  ~ In k (JsMap.keys m) -> JsMap.set k v m = m ++ [(k, v)].
Proof.
  induction m as [|[k' v'] rest IH]; simpl; [reflexivity|].
  intros H. destruct (Z.eqb_spec k' k); [exfalso; auto|].
  rewrite IH; auto.
Qed.

Lemma JsMap_keys_set {V} k (v : V) m k0 :
  In k0 (JsMap.keys (JsMap.set k v m)) -> k0 = k \/ In k0 (JsMap.keys m).
Proof.
  induction m as [|[k' v'] rest IH]; simpl.
  - intros [H|[]]; auto.
  - destruct (Z.eqb_spec k' k); simpl.
    + intros [H|H]; auto.
    + intros [H|H]; auto. destruct (IH H); auto.
Qed.

Lemma JsMap_keys_delete {V} k (m : JsMap.t V) k0 :
  In k0 (JsMap.keys (JsMap.delete k m)) -> In k0 (JsMap.keys m).
Proof.
  induction m as [|[k' v'] rest IH]; simpl; [auto|].
  destruct (Z.eqb_spec k' k); simpl; intros H; [auto|].
  destruct H; auto.
Qed.

Lemma JsMap_keys_filter {V} (f : Z * V -> bool) (m : JsMap.t V) k0 :
  In k0 (JsMap.keys (filter f m)) -> In k0 (JsMap.keys m).
Proof.
  unfold JsMap.keys. rewrite !in_map_iff.
  intros (x & Hx & Hin). apply filter_In in Hin. exists x. tauto.
Qed.

Lemma JsMap_get_set_same {V} k (v : V) m :
  JsMap.get k (JsMap.set k v m) = Some v.
Proof.
  induction m as [|[k' v'] rest IH]; simpl.
  - now rewrite Z.eqb_refl.
  - destruct (Z.eqb_spec k' k); simpl.
    + now rewrite Z.eqb_refl.
    + destruct (Z.eqb_spec k' k); [contradiction | assumption].
Qed.

Lemma JsMap_get_set_other {V} k k0 (v : V) m :
  k0 <> k -> JsMap.get k0 (JsMap.set k v m) = JsMap.get k0 m.
Proof.
  intros Hne. induction m as [|[k' v'] rest IH]; simpl.
  - destruct (Z.eqb_spec k k0); [congruence | reflexivity].
  - destruct (Z.eqb_spec k' k); simpl.
    + subst k'. destruct (Z.eqb_spec k k0); [congruence | reflexivity].
    + destruct (Z.eqb_spec k' k0); [reflexivity | assumption].
Qed.

Lemma keys_below_set {V} k (v : V) m c c' :
  keys_below m c -> c <= c' -> k <= c' -> keys_below (JsMap.set k v m) c'.
Proof.
  intros H Hc Hk k0 Hin. apply JsMap_keys_set in Hin.
  destruct Hin as [->|Hin]; [assumption|]. specialize (H k0 Hin). lia.
Qed.

Lemma keys_below_delete {V} k (m : JsMap.t V) c :
  keys_below m c -> keys_below (JsMap.delete k m) c.
Proof. intros H k0 Hin. apply H. eapply JsMap_keys_delete; eauto. Qed.

Lemma keys_below_filter {V} f (m : JsMap.t V) c :
  keys_below m c -> keys_below (filter f m) c.
Proof. intros H k0 Hin. apply H. eapply JsMap_keys_filter; eauto. Qed.

Lemma keys_below_weaken {V} (m : JsMap.t V) c c' :
  keys_below m c -> c <= c' -> keys_below m c'.
Proof. intros H Hc k0 Hin. specialize (H k0 Hin). lia. Qed.

Lemma keys_below_empty {V} c : keys_below (@JsMap.empty V) c.
Proof. intros k []. Qed.

Lemma keys_below_present {V} k (m : JsMap.t V) v c :
  keys_below m c -> JsMap.get k m = Some v -> k <= c.
Proof. intros H Hg. apply H. eapply JsMap_get_In; eauto. Qed.

Lemma JsMap_In_set {V} k (v : V) m k0 v0 :
  In (k0, v0) (JsMap.set k v m) -> (k0 = k /\ v0 = v) \/ In (k0, v0) m.
Proof.
  induction m as [|[k' v'] rest IH]; simpl.
  - intros [H|[]]. inversion H; auto.
  - destruct (Z.eqb_spec k' k); simpl.
    + intros [H|H]; [inversion H; auto | auto].
    + intros [H|H]; [auto|]. destruct (IH H); auto.
Qed.

Lemma JsMap_In_get {V} k (v : V) m :
  NoDup (JsMap.keys m) -> In (k, v) m -> JsMap.get k m = Some v.
Proof.
  induction m as [|[k' v'] rest IH]; simpl; [intros _ []|].
  intros Hnd [H|H].
  - inversion H; subst. now rewrite Z.eqb_refl.
  - inversion Hnd; subst. destruct (Z.eqb_spec k' k).
    + subst k'. exfalso. apply H2.
      change (In (fst (k, v)) (map fst rest)). now apply in_map.
    + auto.
Qed.

Lemma JsMap_get_In_pair {V} k (v : V) m :
  JsMap.get k m = Some v -> In (k, v) m.
Proof.
  induction m as [|[k' v'] rest IH]; simpl; [discriminate|].
  destruct (Z.eqb_spec k' k); intros H.
  - inversion H; subst. auto.
  - auto.
Qed.

Lemma JsMap_keys_set_present {V} k (v v0 : V) m :
  JsMap.get k m = Some v0 -> JsMap.keys (JsMap.set k v m) = JsMap.keys m.
Proof.
  induction m as [|[k' v'] rest IH]; simpl; [discriminate|].
  destruct (Z.eqb_spec k' k); simpl; intros H.
  - now subst.
  - now rewrite IH.
Qed.

Lemma NoDup_keys_set {V} k (v : V) m :
  NoDup (JsMap.keys m) -> NoDup (JsMap.keys (JsMap.set k v m)).
Proof.
  intros Hnd. destruct (JsMap.get k m) as [v0|] eqn:E.
  - now rewrite (JsMap_keys_set_present k v v0 m E).
  - assert (Hk : ~ In k (JsMap.keys m)).
    { intros Hin. unfold JsMap.keys in Hin. apply in_map_iff in Hin.
      destruct Hin as ([k1 v1] & Hk & Hin). simpl in Hk. subst k1.
      apply (JsMap_In_get _ _ _ Hnd) in Hin. congruence. }
    rewrite JsMap_set_fresh by assumption.
    unfold JsMap.keys in *. rewrite map_app. simpl.
    apply NoDup_app; [assumption | repeat constructor; intros [] |].
    intros x Hx [<-|[]]. auto.
Qed.

Lemma NoDup_keys_filter {V} (f : Z * V -> bool) (m : JsMap.t V) :
  NoDup (JsMap.keys m) -> NoDup (JsMap.keys (filter f m)).
Proof.
  unfold JsMap.keys. induction m as [|[k v] rest IH]; simpl; [auto|].
  intros Hnd. inversion Hnd; subst.
  destruct (f (k, v)); simpl; [|auto].
  constructor; [|auto].
  intros Hin. apply H1. apply in_map_iff in Hin.
  destruct Hin as (x & Hx & Hin). apply filter_In in Hin.
  apply in_map_iff. exists x. tauto.
Qed.

Lemma sg_wf_empty c : sg_wf JsMap.empty c.
Proof.
  split; [|split]; [intros k [] | constructor | intros k s []].
Qed.

Lemma sg_wf_weaken m c :
  sg_wf m c -> sg_wf m (c + 1).
Proof.
  intros (H1 & H2 & H3). split; [|split]; [|assumption|assumption].
  eapply keys_below_weaken; eauto. lia.
Qed.

Lemma sg_wf_suggest m c s :
  sg_wf m c ->
  acceptedBy s = None -> acceptedAt s = None ->
  rejectedBy s = None -> rejectedAt s = None ->
  sg_wf (JsMap.set (c + 1) s m) (c + 1).
Proof.
  intros (H1 & H2 & H3) Ha Hb Hc Hd. split; [|split].
  - eapply keys_below_set; eauto; lia.
  - now apply NoDup_keys_set.
  - intros k s0 Hin Hp. apply JsMap_In_set in Hin.
    destruct Hin as [[_ ->]|Hin]; [auto | eapply H3; eauto].
Qed.

Lemma sg_wf_decide m c k s0 s :
  sg_wf m c -> JsMap.get k m = Some s0 -> status s <> Pending ->
  sg_wf (JsMap.set k s m) c.
Proof.
  intros (H1 & H2 & H3) Hg Hs. split; [|split].
  - eapply keys_below_set; eauto; try lia. eapply keys_below_present; eauto.
  - now apply NoDup_keys_set.
  - intros k1 s1 Hin Hp. apply JsMap_In_set in Hin.
    destruct Hin as [[_ ->]|Hin]; [contradiction | eapply H3; eauto].
Qed.

Lemma sg_wf_filter f m c : sg_wf m c -> sg_wf (filter f m) c.
Proof.
  intros (H1 & H2 & H3). split; [|split].
  - now apply keys_below_filter.
  - now apply NoDup_keys_filter.
  - intros k s Hin. apply filter_In in Hin. apply (H3 k). tauto.
Qed.

Create HintDb jsmap.
#[local] Hint Resolve keys_below_set keys_below_delete keys_below_filter
  keys_below_weaken keys_below_empty keys_below_present
  sg_wf_empty sg_wf_filter sg_wf_decide : jsmap.
#[local] Hint Extern 1 (status _ <> Pending) => (simpl; discriminate) : jsmap.

(** ** Well-formedness is kept by every call *)

Lemma runCmd_wf d c : wf d -> wf (runCmd d c).
Proof.
  unfold wf. intros (Hs & Hc & Hk).
  destruct c as [[]| | | | | | | | | | | | | | | | ]; simpl;
    js_unfold; js_cases; (split; [|split]); simpl;
    eauto 6 with jsmap zarith;
    try (apply sg_wf_suggest; auto);
    try (apply sg_wf_weaken; auto).
Qed.

Lemma runCmds_wf cs : forall d, wf d -> wf (runCmds d cs).
Proof.
  induction cs as [|c cs IH]; intros d H; simpl; [assumption|].
  apply IH, runCmd_wf, H.
Qed.

Lemma newDoc_wf text : wf (newDoc text).
Proof.
  split; [apply sg_wf_empty | split; apply keys_below_empty].
Qed.

Lemma Reachable_wf d : Reachable d -> wf d.
Proof. intros (text & cs & ->). apply runCmds_wf, newDoc_wf. Qed.

Lemma Reachable_newDoc text : Reachable (newDoc text).
Proof. exists text, []. reflexivity. Qed.

Lemma Reachable_runCmds d cs : Reachable d -> Reachable (runCmds d cs).
Proof.
  intros (text & cs0 & ->). exists text, (cs0 ++ cs).
  unfold runCmds. now rewrite fold_left_app.
Qed.

(** ** Change log and subscribers *)

Lemma log_append_last e log :
  exists older, log_append e log = older ++ [e].
Proof.
  unfold log_append, slice_last.
  destruct (Z.of_nat (List.length (log ++ [e])) >? maxLogSize).
  - assert (Hk : exists k,
              (List.length (log ++ [e]) - Z.to_nat maxLogSize)%nat = k
              /\ (k <= List.length log)%nat).
    { eexists. split; [reflexivity|].
      rewrite length_app. unfold maxLogSize. simpl. lia. }
    destruct Hk as (k & -> & Hk).
    rewrite skipn_app.
    replace (k - List.length log)%nat with 0%nat by lia.
    exists (skipn k log). reflexivity.
  - exists log. reflexivity.
Qed.

Lemma log_append_bounded e log :
  Z.of_nat (List.length log) <= maxLogSize ->
  Z.of_nat (List.length (log_append e log)) <= maxLogSize.
Proof.
  unfold log_append, slice_last. intros H.
  destruct (Z.gtb_spec (Z.of_nat (List.length (log ++ [e]))) maxLogSize)
    as [Hgt|Hle]; [|assumption].
  rewrite length_skipn, length_app in *. simpl in *.
  unfold maxLogSize in *. lia.
Qed.

Lemma logChange_spec change now d :
  let e := mkEntry change (version d) now in
  logChange change now d =
  (Ok e,
   set_delivered (delivered d ++ notify_loop (changeSubscribers d) e)
     (set_changeLog (log_append e (changeLog d)) d)).
Proof.
  unfold log_append. js_unfold. simpl.
  destruct (Z.of_nat (List.length (changeLog d ++ _)) >? maxLogSize);
    reflexivity.
Qed.

Lemma notify_loop_map subs e :
  notify_loop subs e = map (fun kv => mkDelivery (fst kv) e (snd kv e)) subs.
Proof.
  induction subs as [|[sid cb] rest IH]; simpl; [reflexivity | now rewrite IH].
Qed.

Lemma subscribe_appends cb d :
  wf d ->
  changeSubscribers (exec (subscribe cb) d)
  = changeSubscribers d ++ [(subscriberCounter d + 1, cb)]
  /\ version (exec (subscribe cb) d) = version d
  /\ delivered (exec (subscribe cb) d) = delivered d
  /\ changeLog (exec (subscribe cb) d) = changeLog d.
Proof.
  intros (_ & Hsub & _). js_unfold. simpl.
  split; [|auto].
  apply JsMap_set_fresh. intros Hin. specialize (Hsub _ Hin). lia.
Qed.

Lemma subscribe_all_appends cbs : forall d,
  wf d ->
  let d1 := runCmds d (map CSubscribe cbs) in
  JsMap.values (changeSubscribers d1)
  = JsMap.values (changeSubscribers d) ++ cbs
  /\ version d1 = version d
  /\ delivered d1 = delivered d
  /\ changeLog d1 = changeLog d.
Proof.
  induction cbs as [|cb cbs IH]; intros d Hwf.
  - simpl. now rewrite app_nil_r.
  - change (runCmds d (map CSubscribe (cb :: cbs)))
      with (runCmds (exec (subscribe cb) d) (map CSubscribe cbs)).
    destruct (subscribe_appends cb d Hwf) as (Hs & Hv & Hd & Hl).
    destruct (IH (exec (subscribe cb) d) (runCmd_wf d (CSubscribe cb) Hwf))
      as (Hs' & Hv' & Hd' & Hl').
    cbv zeta in *. rewrite Hs', Hv', Hd', Hl', Hs, Hv, Hd, Hl.
    unfold JsMap.values. rewrite map_app, <- app_assoc. simpl. auto.
Qed.

(** C7. Appending a change to the log stores the entry as the last log
    entry and calls every subscriber once, in registration order, with that
    entry, whatever each callback does: a callback that throws neither
    aborts the call nor stops the callbacks registered after it.  The
    subscribers [cbs] registered on a reachable document are iterated
    after the earlier ones and in the order they were registered. *)
Theorem notify_survives_throwing_subscriber d cbs change now :
  Reachable d ->
  let d1 := runCmds d (map CSubscribe cbs) in
  let e := mkEntry change (version d1) now in
  let r := logChange change now d1 in
  JsMap.values (changeSubscribers d1)
    = JsMap.values (changeSubscribers d) ++ cbs
  /\ fst r = Ok e
  /\ (exists older, changeLog (snd r) = older ++ [e])
  /\ delivered (snd r)
     = delivered d1
       ++ map (fun kv => mkDelivery (fst kv) e (snd kv e)) (changeSubscribers d1)
  /\ (forall i j cbi cbj,
        nth_error (JsMap.values (changeSubscribers d1)) i = Some cbi ->
        cbi e = Throws -> (i < j)%nat ->
        nth_error (JsMap.values (changeSubscribers d1)) j = Some cbj ->
        exists sid,
          nth_error (delivered (snd r)) (List.length (delivered d1) + j)
          = Some (mkDelivery sid e (cbj e))).
Proof.
  intros Hr d1 e r. apply Reachable_wf in Hr.
  destruct (subscribe_all_appends cbs d Hr) as (Hs & _).
  fold d1 in Hs. split; [exact Hs|].
  unfold r. rewrite logChange_spec. fold e. simpl.
  split; [reflexivity|]. split; [apply log_append_last|].
  rewrite notify_loop_map. split; [reflexivity|].
  intros i j cbi cbj _ _ _ Hj.
  rewrite nth_error_app2 by lia.
  replace (List.length (delivered d1) + j - List.length (delivered d1))%nat
    with j by lia.
  unfold JsMap.values in Hj. rewrite nth_error_map in Hj.
  destruct (nth_error (changeSubscribers d1) j) as [[sid cb]|] eqn:E;
    [|discriminate].
  simpl in Hj. inversion Hj; subst cbj. exists sid.
  exact (map_nth_error
           (fun kv => mkDelivery (fst kv) e (snd kv e)) j _ E).
Qed.

Lemma notify_survives_throwing_subscriber_witness :
  map d_outcome
    (delivered (snd (logChange (ChInsert "user1" 0 "Hi" 2) 7
                       (runCmds sample (map CSubscribe three_subscribers)))))
  = [Returns; Throws; Returns]
  /\ map d_subscriber
    (delivered (snd (logChange (ChInsert "user1" 0 "Hi" 2) 7
                       (runCmds sample (map CSubscribe three_subscribers)))))
  = [1; 2; 3].
Proof.
  destruct (notify_survives_throwing_subscriber sample three_subscribers
              (ChInsert "user1" 0 "Hi" 2) 7
              (Reachable_newDoc (chars "Sample document text")))
    as (_ & _ & _ & Hd & _).
  cbv zeta in Hd. rewrite Hd. split; reflexivity.
Defined.

(** ** Transactions *)

Lemma rollbackTransaction_frame now d :
  quill (exec (rollbackTransaction now) d) = quill d
  /\ version (exec (rollbackTransaction now) d) = version d
  /\ changeLog (exec (rollbackTransaction now) d) = changeLog d.
Proof. js_unfold. js_cases; auto. Qed.

Lemma commitTransaction_frame now d :
  quill (exec (commitTransaction now) d) = quill d
  /\ version (exec (commitTransaction now) d) = version d
  /\ changeLog (exec (commitTransaction now) d) = changeLog d.
Proof. js_unfold. js_cases; auto. Qed.

(** C1. The claim fails on the code: the inserts issued while the
    transaction is open are applied to the buffer and counted in the
    version at once, and [rollbackTransaction] only marks the transaction.
    After begin, two inserts and rollback on "Sample document text" at
    version 0, the call returns the transaction marked rolled back, but the
    buffer holds both inserted characters and the version is 2. *)
Theorem rollback_keeps_applied_edits :
  currentTransaction open_transaction = Some 0%nat
  /\ quill sample = chars "Sample document text"
  /\ version sample = 0
  /\ fst (rollbackTransaction 4 open_transaction)
     = Ok (Some (mkTransaction "user1" 0 [] 1 None None true (Some 4)))
  /\ currentTransaction (snd (rollbackTransaction 4 open_transaction)) = None
  /\ quill (snd (rollbackTransaction 4 open_transaction))
     = chars "SamplABe document text"
  /\ version (snd (rollbackTransaction 4 open_transaction)) = 2.
Proof. repeat split. Qed.

(** C2. The claim fails on the code: every insert of an open transaction
    increments the version and logs its own entry, and [commitTransaction]
    adds nothing.  After begin at version 0, two inserts and commit, the
    version is 2 and [getChangesSince(0)] holds the two insert entries, with
    no entry for the batch. *)
Theorem commit_counts_every_call :
  fst (commitTransaction 4 open_transaction)
  = Ok (Some (mkTransaction "user1" 0 [] 1 (Some 4) (Some 2) false None))
  /\ version (snd (commitTransaction 4 open_transaction)) = 2
  /\ getChangesSince 0 (snd (commitTransaction 4 open_transaction))
     = [mkEntry (ChInsert "user1" 5 "A" 1) 1 2;
        mkEntry (ChInsert "user1" 6 "B" 1) 2 3].
Proof. repeat split. Qed.

(** ** Range locks *)

Lemma lockRange_conflict_None u i n locks :
  lockRange_conflict u i n locks = None <->
  forall id lock, In (id, lock) locks ->
    lock_userId lock <> u ->
    rangesOverlap (mkRange i n) (lock_range lock) = false.
Proof.
  unfold lockRange_conflict, JsMap.values. split.
  - intros H id lock Hin Hne.
    pose proof (find_none _ _ H lock) as Hf.
    assert (Hl : In lock (map snd locks))
      by (apply in_map_iff; exists (id, lock); auto).
    specialize (Hf Hl). simpl in Hf.
    apply andb_false_iff in Hf. destruct Hf as [Hf|Hf]; [assumption|].
    apply user_neq_true in Hne. congruence.
  - intros H.
    destruct (find _ (map snd locks)) as [lock|] eqn:E; [|reflexivity].
    apply find_some in E. destruct E as [Hin Hb].
    apply in_map_iff in Hin. destruct Hin as ([id l] & Heq & Hin).
    simpl in Heq. subst l.
    apply andb_true_iff in Hb. destruct Hb as [Ho Hu].
    apply user_neq_true in Hu. rewrite (H id lock Hin Hu) in Ho. discriminate.
Qed.

(** [lockRange] goes through exactly when no entry of the lock table, live
    or expired, overlaps and belongs to someone else; it then stores the
    lock and queues the timer that releases it. *)
Lemma lockRange_spec u i n dur now d :
  let r := lockRange u i n dur now d in
  let lock := mkLock (lockCounter d + 1) u (mkRange i n) now (now + dur) in
  (lockRange_conflict u i n (rangeLocks d) = None ->
   fst r = Ok lock
   /\ rangeLocks (snd r) = JsMap.set (lockCounter d + 1) lock (rangeLocks d)
   /\ timers (snd r) = timers d ++ [mkTimer (now + dur) (lockCounter d + 1) u])
  /\ (forall other, lockRange_conflict u i n (rangeLocks d) = Some other ->
      r = (Throw (RangeAlreadyLockedBy (lock_userId other)), d)).
Proof.
  js_unfold. simpl. split.
  - intros ->. simpl. auto.
  - intros other ->. reflexivity.
Qed.

(** The timer queued by [lockRange] releases the lock when it runs. *)
Lemma lock_timer_releases u lock now d :
  JsMap.get (lockId lock) (rangeLocks d) = Some lock ->
  lock_userId lock = u ->
  rangeLocks (exec (unlockRange (lockId lock) u) d)
  = JsMap.delete (lockId lock) (rangeLocks d)
  /\ (nth_error (timers d) 0 = Some (mkTimer (expiresAt lock) (lockId lock) u) ->
      expiresAt lock <= now ->
      rangeLocks (exec (fireTimer 0 now) d)
      = JsMap.delete (lockId lock) (rangeLocks d)).
Proof.
  intros Hg Hu. split.
  - js_unfold. simpl. rewrite Hg, Hu, user_neq_refl. reflexivity.
  - intros Ht Hdue. apply Z.leb_le in Hdue.
    destruct (timers d) as [|tm rest] eqn:Et; [discriminate|].
    simpl in Ht. inversion Ht; subst tm.
    js_unfold. simpl. rewrite Et. simpl. rewrite Hdue. simpl.
    rewrite Hg, Hu, user_neq_refl. reflexivity.
Qed.

(** C3. The claim fails on the code: [lockRange] tests every entry of the
    lock table without looking at [expiresAt].  The lock user1 took at time
    0 for one second over [10, 30) is expired at time 2000 but still in the
    table, its timer not having run yet: [isRangeLocked] reports the range
    free for user2, while [lockRange] by user2 over [15, 20) throws. *)
Theorem lockRange_blocked_by_expired_lock :
  rangeLocks one_lock = [(1, mkLock 1 "user1" (mkRange 10 20) 0 1000)]
  /\ timers one_lock = [mkTimer 1000 1 "user1"]
  /\ fst (scanLocks 15 5 "user2" 2000 (rangeLocks one_lock)) = false
  /\ fst (isRangeLocked 15 5 "user2" 2000 one_lock) = Ok false
  /\ fst (lockRange "user2" 15 5 60000 2000 one_lock)
     = Throw (RangeAlreadyLockedBy "user1").
Proof. repeat split. Qed.

(** ** Locks gate the mutation primitives *)

Lemma prim_range_as u p : prim_range (prim_as u p) = prim_range p.
Proof. destruct p; reflexivity. Qed.

Lemma prim_user_as u p : prim_user (prim_as u p) = u.
Proof. destruct p; reflexivity. Qed.

Lemma prim_effect_as u p b : prim_effect (prim_as u p) b = prim_effect p b.
Proof. destruct p; reflexivity. Qed.

Lemma lockedFor_true_iff p r now d :
  prim_range p = Some r ->
  (lockedFor p now d = true <->
   exists id lock, In (id, lock) (rangeLocks d)
                /\ blocks r (prim_user p) now lock).
Proof.
  intros Hr. unfold lockedFor. rewrite Hr.
  rewrite scanLocks_true_iff. destruct r; reflexivity.
Qed.

Lemma lockedFor_false_iff p r now d :
  prim_range p = Some r ->
  (lockedFor p now d = false <->
   forall id lock, In (id, lock) (rangeLocks d)
                -> ~ blocks r (prim_user p) now lock).
Proof.
  intros Hr. unfold lockedFor. rewrite Hr.
  rewrite scanLocks_false_iff. destruct r; reflexivity.
Qed.

(** C4 (amended). While a lock held by its owner is in the table and
    unexpired, [insertAt], [deleteRange] or [replaceRange] by any other user
    over a range that overlaps the lock throws 'Range is locked by another
    user' and leaves the buffer, the version and the change log as they
    were.  The same call by the lock's owner returns, edits the buffer and
    adds one to the version, provided no unexpired lock of another user
    overlaps the range of the call. *)
Theorem locked_range_rejects_other_users d id lock p r userB now :
  In (id, lock) (rangeLocks d) ->
  now <= expiresAt lock ->
  prim_range p = Some r ->
  rangesOverlap r (lock_range lock) = true ->
  userB <> lock_userId lock ->
  (fst (runPrimitive (prim_as userB p) now d) = Throw RangeIsLocked
   /\ quill (snd (runPrimitive (prim_as userB p) now d)) = quill d
   /\ version (snd (runPrimitive (prim_as userB p) now d)) = version d
   /\ changeLog (snd (runPrimitive (prim_as userB p) now d)) = changeLog d)
  /\ ((forall id' lock', In (id', lock') (rangeLocks d) ->
         ~ blocks r (lock_userId lock) now lock') ->
      exists e,
        fst (runPrimitive (prim_as (lock_userId lock) p) now d) = Ok e
        /\ quill (snd (runPrimitive (prim_as (lock_userId lock) p) now d))
           = prim_effect p (quill d)
        /\ version (snd (runPrimitive (prim_as (lock_userId lock) p) now d))
           = version d + 1).
Proof.
  intros Hin Hexp Hr Ho Hne. split.
  - assert (L : lockedFor (prim_as userB p) now d = true).
    { apply (lockedFor_true_iff _ r); [now rewrite prim_range_as|].
      exists id, lock. rewrite prim_user_as. unfold blocks. auto. }
    apply (runPrimitive_locked _ now d) in L. simpl in L. tauto.
  - intros Hfree.
    assert (L : lockedFor (prim_as (lock_userId lock) p) now d = false).
    { apply (lockedFor_false_iff _ r); [now rewrite prim_range_as|].
      rewrite prim_user_as. assumption. }
    apply (runPrimitive_unlocked _ now d) in L. simpl in L.
    destruct L as (He & Hq & Hv & _).
    eexists. rewrite He, Hq, Hv, prim_effect_as. auto.
Qed.

Lemma locked_range_rejects_other_users_witness :
  fst (runPrimitive (PInsertAt 15 "test" "user2") 5 one_lock)
  = Throw RangeIsLocked
  /\ exists e,
       fst (runPrimitive (PInsertAt 15 "test" "user1") 5 one_lock) = Ok e.
Proof.
  destruct (locked_range_rejects_other_users one_lock 1
              (mkLock 1 "user1" (mkRange 10 20) 0 1000)
              (PInsertAt 15 "test" "user2") (mkRange 15 4) "user2" 5)
    as [[H1 _] H2].
  - left. reflexivity.
  - simpl. lia.
  - reflexivity.
  - reflexivity.
  - discriminate.
  - split; [exact H1|].
    destruct H2 as (e & He & _).
    + intros id' lock' [Heq|[]] (_ & Hne & _).
      inversion Heq; subst. apply Hne. reflexivity.
    + exists e. exact He.
Defined.

(** C4, as stated, fails when the call of the owner runs into the lock of a
    neighbour: with [10, 30) locked by A and [30, 50) by B, an insert of two
    characters at 29 overlaps A's lock and is refused to B, and it is
    refused to A as well, because it overlaps B's lock. *)
Lemma lock_owner_blocked_by_neighbour :
  In (1, mkLock 1 "A" (mkRange 10 20) 0 60000) (rangeLocks two_locks)
  /\ 5 <= 60000
  /\ rangesOverlap (mkRange 29 (strlen "xx")) (mkRange 10 20) = true
  /\ fst (insertAt 29 "xx" "B" 5 two_locks) = Throw RangeIsLocked
  /\ ~ exists e, fst (insertAt 29 "xx" "A" 5 two_locks) = Ok e.
Proof.
  repeat split.
  - left. reflexivity.
  - discriminate.
  - intros [e He]. discriminate He.
Qed.

(** ** Suggestions *)

Lemma status_eqb_Pending st :
  status_eqb st Pending = true <-> st = Pending.
Proof. destruct st; simpl; split; congruence. Qed.

(** The three ways [acceptSuggestion] can end on a stored suggestion, and
    the one on an unknown id. *)
Lemma acceptSuggestion_cases sid u now d :
  let r := acceptSuggestion sid u now d in
  match JsMap.get sid (suggestions d) with
  | None => r = (Throw SuggestionNotFound, d)
  | Some s =>
      if status_eqb (status s) Pending then
        if fst (scanLocks (r_index (sg_range s)) (r_length (sg_range s))
                  u now (rangeLocks d))
        then fst r = Throw RangeIsLocked
             /\ suggestions (snd r) = suggestions d
             /\ suggestionCounter (snd r) = suggestionCounter d
             /\ quill (snd r) = quill d
             /\ version (snd r) = version d
             /\ changeLog (snd r) = changeLog d
        else fst r = Ok (mark_accepted s u now)
             /\ suggestions (snd r)
                = JsMap.set sid (mark_accepted s u now) (suggestions d)
             /\ suggestionCounter (snd r) = suggestionCounter d
             /\ quill (snd r)
                = quill_insertText (r_index (sg_range s)) (newText s)
                    (quill_deleteText (r_index (sg_range s))
                       (r_length (sg_range s)) (quill d))
             /\ version (snd r) = version d + 1
      else r = (Throw (SuggestionAlready (status s)), d)
  end.
Proof.
  js_unfold. simpl.
  destruct (JsMap.get sid (suggestions d)) as [s|]; [|reflexivity].
  destruct (status_eqb (status s) Pending); simpl; [|reflexivity].
  destruct (fst (scanLocks _ _ u now (rangeLocks d))); simpl;
    repeat split; try reflexivity;
    destruct (Z.of_nat (List.length (changeLog d ++ _)) >? maxLogSize);
    reflexivity.
Qed.

Lemma rejectSuggestion_cases sid u reason now d :
  let r := rejectSuggestion sid u reason now d in
  match JsMap.get sid (suggestions d) with
  | None => r = (Throw SuggestionNotFound, d)
  | Some s =>
      fst r = Ok (mark_rejected s u reason now)
      /\ suggestions (snd r)
         = JsMap.set sid (mark_rejected s u reason now) (suggestions d)
      /\ suggestionCounter (snd r) = suggestionCounter d
      /\ quill (snd r) = quill d
      /\ version (snd r) = version d
  end.
Proof.
  js_unfold. simpl.
  destruct (JsMap.get sid (suggestions d)) as [s|]; simpl; auto.
Qed.

Lemma runCmd_suggestions_frame d c :
  suggestion_call c = false ->
  suggestions (runCmd d c) = suggestions d
  /\ suggestionCounter (runCmd d c) = suggestionCounter d.
Proof.
  destruct c as [[]| | | | | | | | | | | | | | | | ]; simpl;
    try discriminate; intros _;
    js_unfold; js_cases; auto.
Qed.

Lemma runCmd_settled sid d c : settled sid d -> settled sid (runCmd d c).
Proof.
  intros [Hle Hst].
  destruct (suggestion_call c) eqn:Hc.
  - destruct c; try discriminate; simpl; unfold exec, settled.
    + (* suggestEdit *)
      js_unfold. unfold settled. simpl. split; [lia|].
      intros s Hin. apply JsMap_In_set in Hin.
      destruct Hin as [[Hk _]|Hin]; [lia | auto].
    + (* acceptSuggestion *)
      pose proof (acceptSuggestion_cases suggestionId0 userId now d) as H.
      cbv zeta in H.
      destruct (JsMap.get suggestionId0 (suggestions d)) as [s0|] eqn:Hg;
        [|rewrite H; split; assumption].
      destruct (status_eqb (status s0) Pending) eqn:Hp;
        [|rewrite H; split; assumption].
      destruct (fst (scanLocks _ _ userId now (rangeLocks d))).
      * destruct H as (_ & Hs & Hcnt & _). rewrite Hs, Hcnt. split; assumption.
      * destruct H as (_ & Hs & Hcnt & _). rewrite Hs, Hcnt.
        split; [assumption|].
        intros s Hin. apply JsMap_In_set in Hin.
        destruct Hin as [[_ ->]|Hin]; [simpl; discriminate | auto].
    + (* rejectSuggestion *)
      pose proof (rejectSuggestion_cases suggestionId0 userId reason now d) as H.
      cbv zeta in H.
      destruct (JsMap.get suggestionId0 (suggestions d)) as [s0|] eqn:Hg;
        [|rewrite H; split; assumption].
      destruct H as (_ & Hs & Hcnt & _). rewrite Hs, Hcnt.
      split; [assumption|].
      intros s Hin. apply JsMap_In_set in Hin.
      destruct Hin as [[_ ->]|Hin]; [simpl; discriminate | auto].
    + (* clearSuggestions *)
      js_unfold. unfold settled. destruct st; simpl; split; try assumption.
      * intros s' Hin. apply filter_In in Hin. apply Hst. tauto.
      * intros s' [].
  - destruct (runCmd_suggestions_frame d c Hc) as [Hs Hcnt].
    unfold settled. rewrite Hs, Hcnt. split; assumption.
Qed.

Lemma runCmds_settled sid cs : forall d,
  settled sid d -> settled sid (runCmds d cs).
Proof.
  induction cs as [|c cs IH]; intros d H; simpl; [assumption|].
  apply IH, runCmd_settled, H.
Qed.

(** On a decided suggestion every accept throws. *)
Lemma accept_settled_throws sid d u now :
  settled sid d ->
  (JsMap.get sid (suggestions d) = None
   /\ acceptSuggestion sid u now d = (Throw SuggestionNotFound, d))
  \/ (exists st, st <> Pending
      /\ acceptSuggestion sid u now d = (Throw (SuggestionAlready st), d)).
Proof.
  intros [_ Hst].
  pose proof (acceptSuggestion_cases sid u now d) as H. cbv zeta in H.
  destruct (JsMap.get sid (suggestions d)) as [s|] eqn:Hg; [|left; auto].
  right. exists (status s).
  assert (Hs : status s <> Pending)
    by (apply Hst; now apply JsMap_get_In_pair).
  destruct (status_eqb (status s) Pending) eqn:Hp; [|auto].
  apply status_eqb_Pending in Hp. contradiction.
Qed.

Lemma JsMap_In_set_same {V} k (v v0 v' : V) m :
  NoDup (JsMap.keys m) ->
  In (k, v') (JsMap.set k v m) -> v' = v.
Proof.
  intros Hnd Hin.
  apply (JsMap_In_get _ _ _ (NoDup_keys_set k v m Hnd)) in Hin.
  rewrite JsMap_get_set_same in Hin. congruence.
Qed.

Lemma not_blocked_scan r u now locks :
  (forall id lock, In (id, lock) locks -> ~ blocks r u now lock) ->
  fst (scanLocks (r_index r) (r_length r) u now locks) = false.
Proof.
  intros H. apply scanLocks_false_iff. destruct r. exact H.
Qed.

Lemma blocked_scan r u now locks id lock :
  In (id, lock) locks -> blocks r u now lock ->
  fst (scanLocks (r_index r) (r_length r) u now locks) = true.
Proof.
  intros Hin Hb. apply scanLocks_true_iff. destruct r. eauto.
Qed.

Lemma insert_then_getText i t b :
  (Z.to_nat i <= List.length b)%nat ->
  quill_getText i (strlen t) (quill_insertText i t b) = chars t.
Proof.
  intros Hi. unfold quill_getText, quill_insertText, strlen, chars.
  rewrite skipn_app, skipn_firstn_comm, length_firstn.
  replace (Z.to_nat i - Z.to_nat i)%nat with 0%nat by lia.
  replace (Z.to_nat i - Nat.min (Z.to_nat i) (List.length b))%nat
    with 0%nat by lia.
  simpl. rewrite Nat2Z.id.
  assert (Hl : String.length t = List.length (list_ascii_of_string t)).
  { induction t; simpl; congruence. }
  rewrite Hl, firstn_app, firstn_all, Nat.sub_diag. simpl.
  now rewrite app_nil_r.
Qed.

(** C5 (amended). On a reachable document, [acceptSuggestion] on a pending
    suggestion S whose range no unexpired lock of another user overlaps
    returns S marked accepted and replaces S's range in the buffer by
    [S.newText]; from then on, whatever calls follow, every
    [acceptSuggestion] on S throws: 'Suggestion already accepted' or
    'Suggestion already rejected' while S is stored, 'Suggestion not found'
    once it was cleared. *)
Theorem accept_pending_once d sid s u now :
  Reachable d ->
  JsMap.get sid (suggestions d) = Some s ->
  status s = Pending ->
  (forall id lock, In (id, lock) (rangeLocks d) ->
     ~ blocks (sg_range s) u now lock) ->
  let r := acceptSuggestion sid u now d in
  fst r = Ok (mark_accepted s u now)
  /\ quill (snd r)
     = quill_insertText (r_index (sg_range s)) (newText s)
         (quill_deleteText (r_index (sg_range s)) (r_length (sg_range s))
            (quill d))
  /\ ((Z.to_nat (r_index (sg_range s)) <= List.length (quill d))%nat ->
      getRangeText (r_index (sg_range s)) (strlen (newText s)) (snd r)
      = chars (newText s))
  /\ JsMap.get sid (suggestions (snd r)) = Some (mark_accepted s u now)
  /\ forall cs u2 now2,
       let later := acceptSuggestion sid u2 now2 (runCmds (snd r) cs) in
       (exists st, st <> Pending /\ fst later = Throw (SuggestionAlready st))
       \/ (JsMap.get sid (suggestions (runCmds (snd r) cs)) = None
           /\ fst later = Throw SuggestionNotFound).
Proof.
  intros Hr Hg Hp Hfree r.
  apply Reachable_wf in Hr. destruct Hr as ((Hkb & Hnd & _) & _).
  pose proof (acceptSuggestion_cases sid u now d) as H. cbv zeta in H.
  rewrite Hg, Hp in H. simpl in H.
  rewrite (not_blocked_scan _ _ _ _ Hfree) in H.
  fold r in H. destruct H as (Hok & Hs & Hcnt & Hq & Hv).
  split; [exact Hok|]. split; [exact Hq|]. split; [|split].
  - intros Hi. unfold getRangeText. rewrite Hq.
    apply insert_then_getText.
    unfold quill_deleteText. rewrite length_app, length_firstn. lia.
  - rewrite Hs. apply JsMap_get_set_same.
  - intros cs u2 now2 later.
    assert (Hset : settled sid (snd r)).
    { split.
      - rewrite Hcnt. eapply keys_below_present; eauto.
      - intros s' Hin. rewrite Hs in Hin.
        apply JsMap_In_set_same in Hin; [|exact s|assumption].
        subst s'. simpl. discriminate. }
    destruct (accept_settled_throws sid _ u2 now2
                (runCmds_settled sid cs _ Hset))
      as [[Hnone Hthrow]|(st & Hst & Hthrow)].
    + right. unfold later. rewrite Hthrow. auto.
    + left. exists st. unfold later. rewrite Hthrow. auto.
Qed.

Lemma accept_pending_once_witness :
  fst (acceptSuggestion 1 "user1" 2 one_suggestion)
  = Ok (mkSuggestion 1 "llm-agent" (mkRange 7 8) "manuscript" "document"
          Accepted 1 (Some "user1"%string) (Some 2) None None None)
  /\ quill (snd (acceptSuggestion 1 "user1" 2 one_suggestion))
     = chars "Sample manuscript text".
Proof.
  destruct (accept_pending_once one_suggestion 1
              (mkSuggestion 1 "llm-agent" (mkRange 7 8) "manuscript" "document"
                 Pending 1 None None None None None)
              "user1" 2)
    as (Hok & Hq & _).
  - apply Reachable_runCmds, Reachable_newDoc.
  - reflexivity.
  - reflexivity.
  - intros id lock [].
  - split; [exact Hok | exact Hq].
Defined.

(** C5, as stated, fails twice: the first accept of a pending suggestion
    throws when its range is locked by someone else, and a reject issued
    after a successful accept returns and turns the accepted suggestion
    into a rejected one. *)
Lemma reject_after_accept_returns :
  (exists s, JsMap.get 1 (suggestions locked_suggestion) = Some s
          /\ status s = Pending)
  /\ fst (acceptSuggestion 1 "user2" 3 locked_suggestion) = Throw RangeIsLocked
  /\ succeeds (acceptSuggestion 1 "user1" 2 one_suggestion) = true
  /\ fst (rejectSuggestion 1 "user1" "changed my mind" 3
            (snd (acceptSuggestion 1 "user1" 2 one_suggestion)))
     = Ok (mkSuggestion 1 "llm-agent" (mkRange 7 8) "manuscript" "document"
             Rejected 1 (Some "user1"%string) (Some 2)
             (Some "user1"%string) (Some 3) (Some "changed my mind"%string)).
Proof.
  split; [eexists; split; reflexivity|]. repeat split.
Qed.

(** C10. On a reachable document, when a pending suggestion S overlaps an
    unexpired lock held by someone other than the accepting user,
    [acceptSuggestion] throws 'Range is locked by another user' and S's
    record stays as it was: still pending, with no [acceptedBy] and no
    [acceptedAt]; the buffer and the version are untouched.  On any later
    document that holds the same record and where no unexpired lock of
    another user overlaps, the accept goes through. *)
Theorem accept_blocked_leaves_suggestion_pending d sid s u id lock now :
  Reachable d ->
  JsMap.get sid (suggestions d) = Some s ->
  status s = Pending ->
  In (id, lock) (rangeLocks d) ->
  now <= expiresAt lock ->
  lock_userId lock <> u ->
  rangesOverlap (sg_range s) (lock_range lock) = true ->
  let r := acceptSuggestion sid u now d in
  fst r = Throw RangeIsLocked
  /\ suggestions (snd r) = suggestions d
  /\ JsMap.get sid (suggestions (snd r)) = Some s
  /\ status s = Pending /\ acceptedBy s = None /\ acceptedAt s = None
  /\ quill (snd r) = quill d
  /\ version (snd r) = version d
  /\ forall d2 now2,
       JsMap.get sid (suggestions d2) = Some s ->
       (forall id' lock', In (id', lock') (rangeLocks d2) ->
          ~ blocks (sg_range s) u now2 lock') ->
       fst (acceptSuggestion sid u now2 d2) = Ok (mark_accepted s u now2).
Proof.
  intros Hr Hg Hp Hin Hexp Hne Ho r.
  apply Reachable_wf in Hr. destruct Hr as ((_ & _ & Hpend) & _).
  pose proof (acceptSuggestion_cases sid u now d) as H. cbv zeta in H.
  rewrite Hg, Hp in H. simpl in H.
  rewrite (blocked_scan (sg_range s) u now _ id lock Hin) in H
    by (unfold blocks; auto).
  fold r in H. destruct H as (Hthrow & Hs & _ & Hq & Hv & _).
  destruct (Hpend sid s (JsMap_get_In_pair _ _ _ Hg) Hp) as (Hby & Hat & _).
  repeat (split; [first [assumption | now rewrite Hs]|]).
  intros d2 now2 Hg2 Hfree.
  pose proof (acceptSuggestion_cases sid u now2 d2) as H. cbv zeta in H.
  rewrite Hg2, Hp in H. simpl in H.
  rewrite (not_blocked_scan _ _ _ _ Hfree) in H. tauto.
Qed.

Lemma accept_blocked_leaves_suggestion_pending_witness :
  fst (acceptSuggestion 1 "user2" 3 locked_suggestion) = Throw RangeIsLocked
  /\ suggestions (snd (acceptSuggestion 1 "user2" 3 locked_suggestion))
     = suggestions locked_suggestion
  /\ succeeds (acceptSuggestion 1 "user2" 5
                 (exec (unlockRange 1 "user1")
                    (snd (acceptSuggestion 1 "user2" 3 locked_suggestion))))
     = true.
Proof.
  destruct (accept_blocked_leaves_suggestion_pending locked_suggestion 1
              (mkSuggestion 1 "llm-agent" (mkRange 7 8) "manuscript" "document"
                 Pending 1 None None None None None)
              "user2" 1 (mkLock 1 "user1" (mkRange 5 10) 2 60002) 3)
    as (Hthrow & Hs & _ & _ & _ & _ & _ & _ & Hretry).
  - apply Reachable_runCmds, Reachable_newDoc.
  - reflexivity.
  - reflexivity.
  - left. reflexivity.
  - simpl. lia.
  - discriminate.
  - reflexivity.
  - split; [exact Hthrow|]. split; [exact Hs|].
    unfold succeeds. rewrite Hretry; [reflexivity | reflexivity |].
    intros id' lock' [].
Defined.

(** ** Quick corrections *)

Lemma chars_length t : List.length (chars t) = Z.to_nat (strlen t).
Proof.
  unfold strlen, chars. rewrite Nat2Z.id.
  induction t; simpl; congruence.
Qed.

Lemma quill_replace_text i n t b :
  (Z.to_nat i <= List.length b)%nat ->
  quill_insertText i t (quill_deleteText i n b)
  = firstn (Z.to_nat i) b ++ chars t
    ++ skipn (Z.to_nat n) (skipn (Z.to_nat i) b).
Proof.
  intros Hi. unfold quill_insertText, quill_deleteText.
  assert (Hl : List.length (firstn (Z.to_nat i) b) = Z.to_nat i)
    by (rewrite length_firstn; lia).
  rewrite firstn_app, skipn_app, Hl, Nat.sub_diag. simpl.
  rewrite <- Hl at 1 3. rewrite firstn_all, skipn_all, app_nil_r.
  reflexivity.
Qed.

Lemma quill_insert_at_join i t pre post :
  List.length pre = Z.to_nat i ->
  quill_insertText i t (pre ++ post) = pre ++ chars t ++ post.
Proof.
  intros Hl. unfold quill_insertText.
  rewrite firstn_app, skipn_app, <- Hl, Nat.sub_diag. simpl.
  now rewrite firstn_all, skipn_all, app_nil_r.
Qed.

Lemma quill_delete_inserted i t pre post :
  List.length pre = Z.to_nat i ->
  quill_deleteText i (strlen t) (pre ++ chars t ++ post) = pre ++ post.
Proof.
  intros Hl. unfold quill_deleteText.
  rewrite firstn_app, skipn_app, <- Hl, Nat.sub_diag. simpl.
  rewrite firstn_all, skipn_all, app_nil_r. simpl.
  rewrite skipn_app, <- chars_length, skipn_all, Nat.sub_diag.
  reflexivity.
Qed.

Lemma scanLocks_keeps_only i n u now locks x :
  In x (snd (scanLocks i n u now locks)) -> In x locks.
Proof.
  induction locks as [|[id lock] rest IH]; simpl; [auto|].
  destruct (now >? expiresAt lock); [auto|].
  destruct (user_neq (lock_userId lock) u
            && rangesOverlap (mkRange i n) (lock_range lock)); [auto|].
  destruct (scanLocks i n u now rest) as [found rest']. simpl in *.
  intros [H|H]; auto.
Qed.

Lemma unhindered_scan u now locks i n :
  unhindered u now locks ->
  fst (scanLocks i n u now locks) = false.
Proof.
  intros H. apply scanLocks_false_iff.
  intros id lock Hin (Hexp & Hne & _). apply Hne. eapply H; eauto.
Qed.

Lemma unhindered_after_scan u now locks i n :
  unhindered u now locks ->
  unhindered u now (snd (scanLocks i n u now locks)).
Proof.
  intros H id lock Hin. apply (H id). eapply scanLocks_keeps_only; eauto.
Qed.

(** What a primitive that returned has done. *)
Lemma runPrimitive_ok_inv p now d e d' :
  runPrimitive p now d = (Ok e, d') ->
  quill d' = prim_effect p (quill d)
  /\ version d' = version d + 1
  /\ corrections d' = corrections d
  /\ correctionCounter d' = correctionCounter d
  /\ (forall x, In x (rangeLocks d') -> In x (rangeLocks d)).
Proof.
  intros H. destruct (lockedFor p now d) eqn:L.
  - apply (runPrimitive_locked p now d) in L. simpl in L.
    rewrite H in L. simpl in L. destruct L as [L _]. discriminate.
  - pose proof (runPrimitive_unlocked p now d L) as U. simpl in U.
    rewrite H in U. simpl in U.
    destruct U as (_ & Hq & Hv & _ & _ & _ & Hc & Hcc & _).
    repeat (split; [assumption|]).
    replace d' with (snd (runPrimitive p now d)) by now rewrite H.
    destruct p; js_unfold; simpl; unfold lockedFor in L; simpl in L;
      try rewrite L; simpl;
      try (destruct (Z.of_nat (List.length (changeLog d ++ _)) >? maxLogSize);
           simpl; intros x Hx; eauto using scanLocks_keeps_only).
Qed.

(** A primitive by an unhindered user returns. *)
Lemma runPrimitive_unhindered p now d :
  unhindered (prim_user p) now (rangeLocks d) ->
  exists e d', runPrimitive p now d = (Ok e, d')
            /\ unhindered (prim_user p) now (rangeLocks d').
Proof.
  intros H.
  assert (L : lockedFor p now d = false).
  { unfold lockedFor. destruct (prim_range p); [|reflexivity].
    now apply unhindered_scan. }
  pose proof (runPrimitive_unlocked p now d L) as U. simpl in U.
  destruct (runPrimitive p now d) as [[e|err] d'] eqn:E;
    simpl in U; destruct U as (U & _); [|discriminate].
  exists e, d'. split; [reflexivity|].
  destruct (runPrimitive_ok_inv p now d e d' E) as (_ & _ & _ & _ & Hl).
  intros id lock Hin. apply (H id). auto.
Qed.

Lemma JsMap_get_delete_other {V} k k0 (m : JsMap.t V) :
  k0 <> k -> JsMap.get k (JsMap.delete k0 m) = JsMap.get k m.
Proof.
  intros Hne. induction m as [|[k' v'] rest IH]; simpl; [reflexivity|].
  destruct (Z.eqb_spec k' k0); simpl.
  - subst k'. destruct (Z.eqb_spec k0 k); [contradiction | reflexivity].
  - destruct (Z.eqb_spec k' k); [reflexivity | assumption].
Qed.

(** The eviction of [applyQuickCorrection] never removes the correction
    that was just stored. *)
Lemma evict_keeps_new (m : JsMap.t Correction) c k v :
  keys_below m c -> c < k ->
  JsMap.get k
    (if JsMap.size (JsMap.set k v m) >? 100 then
       match JsMap.keys (JsMap.set k v m) with
       | firstKey :: _ => JsMap.delete firstKey (JsMap.set k v m)
       | [] => JsMap.set k v m
       end
     else JsMap.set k v m) = Some v.
Proof.
  intros Hkb Hlt.
  destruct (JsMap.size (JsMap.set k v m) >? 100) eqn:Hsz;
    [|apply JsMap_get_set_same].
  destruct m as [|[k0 v0] rest].
  - discriminate Hsz.
  - assert (Hk0 : k0 <= c) by (apply Hkb; left; reflexivity).
    simpl. destruct (Z.eqb_spec k0 k); [lia|]. simpl.
    rewrite Z.eqb_refl.
    pose proof (JsMap_get_set_same k v ((k0, v0) :: rest)) as Hg.
    simpl in Hg. destruct (Z.eqb_spec k0 k); [lia|].
    simpl in Hg. destruct (Z.eqb_spec k0 k); [lia | exact Hg].
Qed.

Lemma applyQuickCorrection_ok u i n orig corr alts now d c d' :
  wf d ->
  applyQuickCorrection u i n orig corr alts now d = (Ok c, d') ->
  c = mkCorrection (correctionCounter d + 1) u (mkRange i (strlen corr))
        orig corr alts now (version d + 2) false None None None None None
  /\ quill d' = quill_insertText i corr (quill_deleteText i n (quill d))
  /\ version d' = version d + 2
  /\ JsMap.get (correctionCounter d + 1) (corrections d') = Some c.
Proof.
  intros (_ & _ & Hkb) H.
  cbv beta iota delta [applyQuickCorrection bind modify gets ret] in H.
  change (deleteRange i n u now) with (runPrimitive (PDeleteRange i n u) now) in H.
  change (insertAt i corr u now) with (runPrimitive (PInsertAt i corr u) now) in H.
  destruct (runPrimitive (PDeleteRange i n u) now _) as [[e1|err] d1] eqn:E1;
    [|discriminate].
  destruct (runPrimitive (PInsertAt i corr u) now d1) as [[e2|err] d2] eqn:E2;
    [|discriminate].
  apply runPrimitive_ok_inv in E1, E2. simpl in E1, E2.
  destruct E1 as (Hq1 & Hv1 & Hc1 & Hcc1 & _).
  destruct E2 as (Hq2 & Hv2 & Hc2 & Hcc2 & _).
  inversion H; subst c d'; clear H.
  pose proof (evict_keeps_new (corrections d) (correctionCounter d)
                (correctionCounter d + 1)
                (mkCorrection (correctionCounter d + 1) u
                   (mkRange i (strlen corr)) orig corr alts now
                   (version d + 2) false None None None None None)
                Hkb ltac:(lia)) as Hev.
  replace (version d2) with (version d + 2) by (simpl in *; lia).
  match goal with
  | |- context [if ?b then _ else _] => destruct b eqn:Hsz
  end; simpl in Hsz |- *; rewrite ?Hc2, ?Hc1, ?Hcc2, ?Hcc1 in *; simpl in *;
    rewrite Hsz in Hev.
  - destruct (JsMap.keys (JsMap.set _ _ (corrections d))) eqn:Hkeys;
      simpl; rewrite ?Hc2, ?Hc1, ?Hq2, ?Hq1, ?Hv2, ?Hv1;
      repeat split; try lia; try exact Hev.
  - rewrite ?Hq2, ?Hq1, ?Hv2, ?Hv1. repeat split; try lia; try exact Hev.
Qed.

Lemma revertCorrection_ok cid u now d c res d' :
  JsMap.get cid (corrections d) = Some c ->
  revertCorrection cid u now d = (Ok res, d') ->
  quill d'
  = quill_insertText (r_index (c_range c)) (original c)
      (quill_deleteText (r_index (c_range c)) (r_length (c_range c)) (quill d))
  /\ version d' = version d + 2
  /\ JsMap.get cid (corrections d') = Some (mark_reverted c u now)
  /\ res = mkRevertResult cid (original c) (version d + 2).
Proof.
  intros Hg H.
  cbv beta iota delta [revertCorrection bind modify gets ret] in H.
  rewrite Hg in H.
  set (i := r_index (c_range c)) in *. set (n := r_length (c_range c)) in *.
  change (deleteRange i n u now) with (runPrimitive (PDeleteRange i n u) now) in H.
  change (insertAt i (original c) u now)
    with (runPrimitive (PInsertAt i (original c) u) now) in H.
  destruct (runPrimitive (PDeleteRange i n u) now d) as [[e1|err] d1] eqn:E1;
    [|discriminate].
  destruct (runPrimitive (PInsertAt i (original c) u) now d1)
    as [[e2|err] d2] eqn:E2; [|discriminate].
  apply runPrimitive_ok_inv in E1, E2. simpl in E1, E2.
  destruct E1 as (Hq1 & Hv1 & Hc1 & Hcc1 & _).
  destruct E2 as (Hq2 & Hv2 & Hc2 & Hcc2 & _).
  inversion H; subst; clear H. simpl.
  rewrite Hv2, Hv1, Hq2, Hq1.
  split; [reflexivity|]. split; [lia|].
  split; [apply JsMap_get_set_same | f_equal; lia].
Qed.

Lemma revertCorrection_unhindered cid u now d c :
  JsMap.get cid (corrections d) = Some c ->
  unhindered u now (rangeLocks d) ->
  exists res d', revertCorrection cid u now d = (Ok res, d').
Proof.
  intros Hg Hfree.
  cbv beta iota delta [revertCorrection bind modify gets ret].
  rewrite Hg.
  set (i := r_index (c_range c)). set (n := r_length (c_range c)).
  destruct (runPrimitive_unhindered (PDeleteRange i n u) now d Hfree)
    as (e1 & d1 & E1 & Hfree1).
  destruct (runPrimitive_unhindered (PInsertAt i (original c) u) now d1 Hfree1)
    as (e2 & d2 & E2 & _).
  simpl in E1, E2. rewrite E1, E2. eauto.
Qed.

(** A primitive call goes through when no lock of the table blocks its
    range for its user; the lock table it leaves holds no new lock. *)
Lemma runPrimitive_unblocked p r now d :
  prim_range p = Some r ->
  (forall id lock, In (id, lock) (rangeLocks d) ->
     ~ blocks r (prim_user p) now lock) ->
  exists e d', runPrimitive p now d = (Ok e, d')
            /\ forall x, In x (rangeLocks d') -> In x (rangeLocks d).
Proof.
  intros Hr H.
  assert (L : lockedFor p now d = false)
    by (apply (lockedFor_false_iff p r now d Hr); exact H).
  pose proof (runPrimitive_unlocked p now d L) as U. simpl in U.
  destruct (runPrimitive p now d) as [[e|err] d'] eqn:E;
    simpl in U; destruct U as (U & _); [|discriminate].
  exists e, d'. split; [reflexivity|].
  now destruct (runPrimitive_ok_inv p now d e d' E) as (_ & _ & _ & _ & Hl).
Qed.

(** [revertCorrection] returns when no lock blocks the delete over the
    correction's range nor the insert of the original at its index. *)
Lemma revertCorrection_unblocked cid u now d c :
  JsMap.get cid (corrections d) = Some c ->
  (forall id lock, In (id, lock) (rangeLocks d) ->
     ~ blocks (c_range c) u now lock) ->
  (forall id lock, In (id, lock) (rangeLocks d) ->
     ~ blocks (mkRange (r_index (c_range c)) (strlen (original c))) u now lock) ->
  exists res d', revertCorrection cid u now d = (Ok res, d').
Proof.
  intros Hg Hdel Hins.
  cbv beta iota delta [revertCorrection bind modify gets ret].
  rewrite Hg.
  set (i := r_index (c_range c)) in *. set (n := r_length (c_range c)).
  change (deleteRange i n u now) with (runPrimitive (PDeleteRange i n u) now).
  change (insertAt i (original c) u now)
    with (runPrimitive (PInsertAt i (original c) u) now).
  assert (Hdel' : forall id lock, In (id, lock) (rangeLocks d) ->
                    ~ blocks (mkRange i n) (prim_user (PDeleteRange i n u))
                        now lock).
  { intros id lock Hin. unfold i, n.
    replace (mkRange (r_index (c_range c)) (r_length (c_range c)))
      with (c_range c) by (destruct (c_range c); reflexivity).
    now apply (Hdel id). }
  destruct (runPrimitive_unblocked (PDeleteRange i n u) (mkRange i n) now d
              eq_refl Hdel') as (e1 & d1 & E1 & Hsub).
  rewrite E1.
  destruct (runPrimitive_unblocked (PInsertAt i (original c) u)
              (mkRange i (strlen (original c))) now d1 eq_refl)
    as (e2 & d2 & E2 & _).
  { intros id lock Hin. apply (Hins id). now apply Hsub. }
  rewrite E2. eauto.
Qed.

(** C8 (amended). For a correction c that is stored and has not been
    reverted, at an index inside the buffer: [revertCorrection(c.id, u)],
    made while no unexpired lock of a user other than [u] overlaps c's
    range or the range the original text will occupy at c's index, returns
    c's original text, replaces the characters of c's range by that text
    and keeps the text before and after, so that the buffer text at c's
    index is exactly c's original, and marks the record reverted.  When c
    is the correction [applyQuickCorrection] returned, the buffer has not
    been edited since, and the original passed to [applyQuickCorrection]
    was the text of the corrected range, the whole buffer is the buffer
    from before the correction. *)
Theorem revert_restores_original d1 cid c u2 now2 :
  JsMap.get cid (corrections d1) = Some c ->
  reverted c = false ->
  (Z.to_nat (r_index (c_range c)) <= List.length (quill d1))%nat ->
  (forall id lock, In (id, lock) (rangeLocks d1) ->
     ~ blocks (c_range c) u2 now2 lock) ->
  (forall id lock, In (id, lock) (rangeLocks d1) ->
     ~ blocks (mkRange (r_index (c_range c)) (strlen (original c)))
         u2 now2 lock) ->
  exists res d2,
    revertCorrection cid u2 now2 d1 = (Ok res, d2)
    /\ rr_originalText res = original c
    /\ quill d2
       = firstn (Z.to_nat (r_index (c_range c))) (quill d1)
         ++ chars (original c)
         ++ skipn (Z.to_nat (r_length (c_range c)))
              (skipn (Z.to_nat (r_index (c_range c))) (quill d1))
    /\ getRangeText (r_index (c_range c)) (strlen (original c)) d2
       = chars (original c)
    /\ (exists c', JsMap.get cid (corrections d2) = Some c'
                /\ reverted c' = true /\ revertedBy c' = Some u2
                /\ revertedAt c' = Some now2 /\ original c' = original c)
    /\ (forall d u i n orig corr alts now d0,
          Reachable d ->
          (Z.to_nat i <= List.length (quill d))%nat ->
          applyQuickCorrection u i n orig corr alts now d = (Ok c, d0) ->
          quill d1 = quill d0 ->
          quill_getText i n (quill d) = chars orig ->
          quill d2 = quill d).
Proof.
  intros Hg _ Hi Hdel Hins.
  destruct (revertCorrection_unblocked cid u2 now2 d1 c Hg Hdel Hins)
    as (res & d2 & Hrev).
  destruct (revertCorrection_ok _ _ _ _ _ _ _ Hg Hrev)
    as (Hq2 & _ & Hg2 & Hres).
  exists res, d2. split; [exact Hrev|].
  split; [subst res; reflexivity|].
  split; [rewrite Hq2; now apply quill_replace_text|].
  split; [|split].
  - unfold getRangeText. rewrite Hq2. apply insert_then_getText.
    unfold quill_deleteText. rewrite length_app, length_firstn. lia.
  - exists (mark_reverted c u2 now2). repeat split. exact Hg2.
  - intros d u i n orig corr alts now d0 Hr Hi0 Happly Hsame Htext.
    apply Reachable_wf in Hr.
    destruct (applyQuickCorrection_ok _ _ _ _ _ _ _ _ _ _ Hr Happly)
      as (Hc & Hq0 & _ & _).
    assert (Hrange : c_range c = mkRange i (strlen corr)) by now subst c.
    assert (Horig : original c = orig) by now subst c.
    rewrite Hrange, Horig in Hq2. cbn [r_index r_length] in Hq2.
    set (pre := firstn (Z.to_nat i) (quill d)) in *.
    set (post := skipn (Z.to_nat n) (skipn (Z.to_nat i) (quill d))) in *.
    assert (Hpre : List.length pre = Z.to_nat i)
      by (unfold pre; rewrite length_firstn; lia).
    rewrite Hsame, Hq0, (quill_replace_text i n corr (quill d) Hi0) in Hq2.
    fold pre post in Hq2.
    rewrite (quill_delete_inserted i corr pre post Hpre) in Hq2.
    rewrite Hq2, quill_insert_at_join by assumption.
    rewrite <- Htext. unfold quill_getText, pre, post.
    now rewrite !firstn_skipn.
Qed.

Lemma revert_restores_original_witness :
  exists res d2,
    revertCorrection 1 "user1" 2 corrected_doc = (Ok res, d2)
    /\ quill d2 = chars "Sample document text".
Proof.
  destruct (revert_restores_original corrected_doc 1
              (mkCorrection 1 "llm" (mkRange 7 10) "document" "manuscript"
                 [] 1 2 false None None None None None)
              "user1" 2)
    as (res & d2 & Hrev & _ & _ & _ & _ & Hq).
  - vm_compute. reflexivity.
  - reflexivity.
  - vm_compute. lia.
  - intros id lock [].
  - intros id lock [].
  - exists res, d2. split; [exact Hrev|].
    apply (Hq sample "llm"%string 7 8 "document"%string "manuscript"%string
             [] 1 corrected_doc).
    + apply Reachable_newDoc.
    + simpl. lia.
    + vm_compute. reflexivity.
    + reflexivity.
    + reflexivity.
Defined.

(** C8, as stated, fails on its last part: a second [revertCorrection] on
    the reverted correction returns as the first did, and runs the delete
    and the insert again over the stored range of ten characters.  And a
    first revert throws when another user's lock covers the range. *)
Lemma second_revert_returns :
  fst (revertCorrection 1 "user1" 3 corrected_locked) = Throw RangeIsLocked
  /\ (exists c, JsMap.get 1 (corrections reverted_doc) = Some c
          /\ reverted c = true)
  /\ quill reverted_doc = chars "Sample document text"
  /\ fst (revertCorrection 1 "user1" 3 reverted_doc)
     = Ok (mkRevertResult 1 "document" 6)
  /\ quill (snd (revertCorrection 1 "user1" 3 reverted_doc))
     = chars "Sample documentext".
Proof.
  split; [vm_compute; reflexivity|].
  split; [eexists; split; vm_compute; reflexivity|].
  repeat split; vm_compute; reflexivity.
Qed.

(** ** Director bridge *)

Lemma JsMap_has_In {V} k (m : JsMap.t V) :
  JsMap.has k m = true -> In k (JsMap.keys m).
Proof.
  unfold JsMap.has. destruct (JsMap.get k m) eqn:E; [|discriminate].
  intros _. eapply JsMap_get_In; eauto.
Qed.

Lemma settle_get_other k id s ps :
  id <> k -> JsMap.get id (Bridge.settle k s ps) = JsMap.get id ps.
Proof.
  intros Hne. unfold Bridge.settle.
  destruct (JsMap.get k ps) as [[]|]; try reflexivity.
  now apply JsMap_get_set_other.
Qed.

Lemma settle_keys_below k s ps c :
  keys_below ps c -> keys_below (Bridge.settle k s ps) c.
Proof.
  intros H. unfold Bridge.settle.
  destruct (JsMap.get k ps) as [[]|] eqn:E; try assumption.
  eapply keys_below_set; eauto; try lia. eapply keys_below_present; eauto.
Qed.

Lemma bridge_step_wf b e : bridge_wf b -> bridge_wf (Bridge.step b e).
Proof.
  unfold bridge_wf. intros H. destruct e as [cmd params now|data|n now|]; simpl.
  - eapply keys_below_set; eauto; lia.
  - unfold Bridge.deliver, Bridge.handleControlResponse.
    destruct (Bridge.listening b); [|assumption].
    destruct (JsMap.get _ (Bridge.pendingRequests b)); [|assumption].
    simpl. now apply settle_keys_below.
  - unfold Bridge.fireTimeout.
    destruct (nth_error (Bridge.timeouts b) n) as [tm|]; [|assumption].
    destruct (Bridge.to_due tm <=? now); [|assumption].
    unfold Bridge.onTimeout. simpl.
    destruct (JsMap.has _ (Bridge.pendingRequests b)); simpl; [|assumption].
    now apply settle_keys_below.
  - assumption.
Qed.

Lemma bridge_steps_wf es : forall b,
  bridge_wf b -> bridge_wf (Bridge.steps b es).
Proof.
  induction es as [|e es IH]; intros b H; simpl; [assumption|].
  apply IH, bridge_step_wf, H.
Qed.

Lemma bridge_create_wf : bridge_wf Bridge.create.
Proof. intros k []. Qed.

(** After [destroy()], no event settles a promise handed out before it. *)
Lemma bridge_step_abandoned c0 id b e :
  id <= c0 ->
  destroyed_at c0 b ->
  destroyed_at c0 (Bridge.step b e)
  /\ JsMap.get id (Bridge.promises (Bridge.step b e))
     = JsMap.get id (Bridge.promises b).
Proof.
  intros Hid (Hl & Hc & Hab).
  destruct e as [cmd params now|data|n now|]; simpl.
  - split; [|apply JsMap_get_set_other; lia].
    split; [assumption|]. split; [simpl; lia|].
    intros k Hin. simpl in Hin. apply JsMap_keys_set in Hin.
    destruct Hin as [->|Hin]; [lia | auto].
  - unfold Bridge.deliver. rewrite Hl. repeat split; assumption.
  - unfold Bridge.fireTimeout.
    destruct (nth_error (Bridge.timeouts b) n) as [tm|];
      [|repeat split; assumption].
    destruct (Bridge.to_due tm <=? now); [|repeat split; assumption].
    unfold Bridge.onTimeout. simpl.
    destruct (JsMap.has (Bridge.to_requestId tm) (Bridge.pendingRequests b))
      eqn:Hhas; simpl; [|repeat split; assumption].
    apply JsMap_has_In in Hhas. pose proof (Hab _ Hhas) as Hk.
    split; [|apply settle_get_other; lia].
    split; [assumption|]. split; [assumption|].
    intros k Hin. apply JsMap_keys_delete in Hin. auto.
  - repeat split; simpl; try assumption. intros k [].
Qed.

Lemma bridge_steps_abandoned c0 id es : forall b,
  id <= c0 ->
  destroyed_at c0 b ->
  JsMap.get id (Bridge.promises (Bridge.steps b es))
  = JsMap.get id (Bridge.promises b).
Proof.
  induction es as [|e es IH]; intros b Hid Hd; [reflexivity|].
  destruct (bridge_step_abandoned c0 id b e Hid Hd) as [Hd' Hg].
  change (Bridge.steps b (e :: es)) with (Bridge.steps (Bridge.step b e) es).
  rewrite IH by assumption. exact Hg.
Qed.

(** C9 (amended). When the director bridge is destroyed, whatever it did
    before, the table of pending requests is emptied and the response
    listener removed, and no promise is settled: the promises [run] handed
    out keep the state they had, and one that was still unsettled stays
    unsettled through every later event (its timeout finds no entry, and
    responses are no longer heard). *)
Theorem destroy_abandons_pending_requests es0 es id :
  let b := Bridge.steps Bridge.create es0 in
  Bridge.pendingRequests (Bridge.destroy b) = JsMap.empty
  /\ Bridge.listening (Bridge.destroy b) = false
  /\ Bridge.promises (Bridge.destroy b) = Bridge.promises b
  /\ (JsMap.get id (Bridge.promises b) = Some Bridge.Unsettled ->
      JsMap.get id (Bridge.promises (Bridge.steps (Bridge.destroy b) es))
      = Some Bridge.Unsettled).
Proof.
  intros b. repeat split.
  intros Hun.
  assert (Hwf : bridge_wf b) by apply bridge_steps_wf, bridge_create_wf.
  assert (Hid : id <= Bridge.requestCounter b)
    by (eapply keys_below_present; eauto).
  rewrite (bridge_steps_abandoned (Bridge.requestCounter b) id es
             (Bridge.destroy b) Hid); [exact Hun|].
  repeat split; simpl; try lia. intros k [].
Qed.

(** C9, as stated, fails: after one [run] and [destroy()], the promise of
    request 1 is neither rejected nor resolved, and it still is not once
    its thirty-second timeout has fired. *)
Lemma destroy_rejects_nothing :
  JsMap.get 1 (Bridge.promises destroyed_with_pending) = Some Bridge.Unsettled
  /\ Bridge.pendingRequests destroyed_with_pending = JsMap.empty
  /\ Bridge.timeouts destroyed_with_pending
     = [Bridge.mkTimeout 30000 1 "get-version"]
  /\ JsMap.get 1 (Bridge.promises
                    (Bridge.step destroyed_with_pending (Bridge.EvTimer 0 30000)))
     = Some Bridge.Unsettled
  /\ ~ exists message,
         JsMap.get 1 (Bridge.promises destroyed_with_pending)
         = Some (Bridge.Rejected message).
Proof.
  repeat split. intros [message H]. discriminate H.
Qed.

(** A request that is answered or times out while the bridge is alive is
    settled, so the promise left unsettled above is the doing of
    [destroy()]. *)
Lemma run_times_out_when_alive :
  JsMap.get 1 (Bridge.promises
                 (Bridge.steps Bridge.create
                    [Bridge.EvRun "slow-command" "{}" 0;
                     Bridge.EvTimer 0 30000]))
  = Some (Bridge.Rejected "Command timeout: slow-command").
Proof. reflexivity. Qed.

(** * Further properties of the document *)

(** ** Invariants through method bodies *)

Lemma preserves_ret {A} (I : Doc -> Prop) (a : A) : preserves I (ret a).
Proof. intros d H. exact H. Qed.

Lemma preserves_throw {A} (I : Doc -> Prop) e : preserves I (@throw A e).
Proof. intros d H. exact H. Qed.

Lemma preserves_gets {A} (I : Doc -> Prop) (f : Doc -> A) :
  preserves I (gets f).
Proof. intros d H. exact H. Qed.

Lemma preserves_modify (I : Doc -> Prop) f :
  (forall d, I d -> I (f d)) -> preserves I (modify f).
Proof. intros Hf d H. simpl. auto. Qed.

Lemma preserves_bind {A B} (I : Doc -> Prop) (m : M A) (k : A -> M B) :
  preserves I m -> (forall a, preserves I (k a)) -> preserves I (bind m k).
Proof.
  intros Hm Hk d H. unfold bind.
  specialize (Hm d H). destruct (m d) as [[a|e] d']; simpl in *.
  - now apply Hk.
  - assumption.
Qed.

Create HintDb pres.

(** An update that leaves the fields of the invariant alone. *)
Ltac frame_modify :=
  let d := fresh "d" in
  let H := fresh "H" in
  intros d H;
  repeat match goal with
         | |- context [if ?b then _ else _] => destruct b
         | |- context [match ?x with _ => _ end] => destruct x
         end;
  exact H.

Ltac pres :=
  repeat first
    [ apply preserves_ret
    | apply preserves_throw
    | apply preserves_gets
    | solve [auto with pres]
    | apply preserves_bind; [|intro]
    | apply preserves_modify; solve [frame_modify]
    | match goal with
      | |- preserves _ (match ?x with _ => _ end) => destruct x
      end ].

(** ** The change log *)

Lemma StronglySorted_skipn {A} (R : A -> A -> Prop) n : forall l,
  StronglySorted R l -> StronglySorted R (skipn n l).
Proof.
  induction n as [|n IH]; intros l H; [assumption|].
  destruct l as [|x l]; [constructor|].
  simpl. apply IH. now inversion H.
Qed.

Lemma Forall_skipn {A} (P : A -> Prop) n : forall l,
  Forall P l -> Forall P (skipn n l).
Proof.
  induction n as [|n IH]; intros l H; [assumption|].
  destruct l as [|x l]; [constructor|].
  simpl. apply IH. now inversion H.
Qed.

Lemma StronglySorted_snoc (log : list Entry) e :
  StronglySorted version_lt log ->
  Forall (fun x => e_version x < e_version e) log ->
  StronglySorted version_lt (log ++ [e]).
Proof.
  induction log as [|x log IH]; intros Hs Hf; simpl.
  - repeat constructor.
  - inversion Hs; subst. inversion Hf; subst.
    constructor; [auto|].
    apply Forall_app. split; [assumption|]. repeat constructor. assumption.
Qed.

(** Logging the entry of the next version keeps the log well formed. *)
Lemma log_ok_append d d' change now :
  log_ok d ->
  version d' = version d + 1 ->
  changeLog d' = log_append (mkEntry change (version d + 1) now) (changeLog d) ->
  log_ok d'.
Proof.
  intros (Hv & Hlen & Hs & Hf) Hv' Hl'. unfold log_ok.
  rewrite Hv', Hl'. split; [lia|]. split; [now apply log_append_bounded|].
  assert (Hs' : StronglySorted version_lt
                  (changeLog d ++ [mkEntry change (version d + 1) now])).
  { apply StronglySorted_snoc; [assumption|].
    eapply Forall_impl; [|exact Hf]. simpl. intros x Hx. lia. }
  assert (Hf' : Forall (fun e => 1 <= e_version e <= version d + 1)
                  (changeLog d ++ [mkEntry change (version d + 1) now])).
  { apply Forall_app. split.
    - eapply Forall_impl; [|exact Hf]. simpl. intros x Hx. lia.
    - repeat constructor; simpl; lia. }
  unfold log_append, slice_last.
  destruct (Z.of_nat (List.length (changeLog d ++ _)) >? maxLogSize).
  - split; [now apply StronglySorted_skipn | now apply Forall_skipn].
  - split; assumption.
Qed.

Lemma log_ok_primitive p now : preserves log_ok (runPrimitive p now).
Proof.
  intros d H. destruct (lockedFor p now d) eqn:L.
  - destruct (runPrimitive_locked p now d L) as (_ & _ & Hv & Hl & _).
    destruct H as (H0 & H1 & H2 & H3). unfold log_ok.
    rewrite Hv, Hl. auto.
  - destruct (runPrimitive_unlocked p now d L) as (_ & _ & Hv & Hl & _).
    eapply log_ok_append; eauto.
Qed.

Lemma log_ok_insertAt i t u now : preserves log_ok (insertAt i t u now).
Proof. exact (log_ok_primitive (PInsertAt i t u) now). Qed.

Lemma log_ok_deleteRange i n u now : preserves log_ok (deleteRange i n u now).
Proof. exact (log_ok_primitive (PDeleteRange i n u) now). Qed.

Lemma log_ok_replaceRange i n t u now :
  preserves log_ok (replaceRange i n t u now).
Proof. exact (log_ok_primitive (PReplaceRange i n t u) now). Qed.

Lemma log_ok_applyDelta delta u now : preserves log_ok (applyDelta delta u now).
Proof. exact (log_ok_primitive (PApplyDelta delta u) now). Qed.

Lemma log_ok_handleTextChange delta src now :
  preserves log_ok (handleTextChange delta src now).
Proof.
  intros d H. destruct src; [|exact H].
  cbv beta iota delta [handleTextChange incrementVersion bind modify gets ret].
  rewrite logChange_spec. simpl.
  eapply log_ok_append; [exact H | reflexivity | reflexivity].
Qed.

#[local] Hint Resolve log_ok_insertAt log_ok_deleteRange log_ok_replaceRange
  log_ok_applyDelta log_ok_handleTextChange : pres.

(** Reduces a goal about [runCmd] to one about the method it runs. *)
Ltac to_preserves I :=
  match goal with
  | d : Doc, H : I ?d0 |- I (snd (?m ?d0)) =>
      revert d0 H; change (preserves I m)
  end.

Ltac unfold_methods :=
  unfold lockRange, unlockRange, fireTimer, isRangeLocked, suggestEdit,
    acceptSuggestion, rejectSuggestion, clearSuggestions,
    applyQuickCorrection, revertCorrection, switchToAlternate,
    beginTransaction, commitTransaction, rollbackTransaction,
    subscribe, unsubscribe, clearOldCorrections.

Lemma log_ok_runCmd d c : log_ok d -> log_ok (runCmd d c).
Proof.
  intros H.
  destruct c as [p now| | | | | | | | | | | | | | | | ];
    cbv beta iota delta [runCmd exec];
    [ exact (log_ok_primitive p now d H) | .. ];
    to_preserves log_ok; unfold_methods; pres.
Qed.

Lemma log_consecutive_append d d' change now :
  log_consecutive d ->
  version d' = version d + 1 ->
  changeLog d' = log_append (mkEntry change (version d + 1) now) (changeLog d) ->
  log_consecutive d'.
Proof.
  intros [Hc _] Hv Hl. unfold log_consecutive in *. rewrite Hv, Hl.
  set (e0 := mkEntry change (version d + 1) now).
  split;
    [|intros Hnil; destruct (log_append_last e0 (changeLog d)) as [older Ho];
      rewrite Ho in Hnil; destruct older; discriminate].
  assert (Happ : forall k e, nth_error (changeLog d ++ [e0]) k = Some e ->
            e_version e
            = version d + 1 - Z.of_nat (List.length (changeLog d ++ [e0]))
              + 1 + Z.of_nat k).
  { intros k e Hk. rewrite length_app. simpl.
    destruct (Nat.lt_ge_cases k (List.length (changeLog d))) as [Hlt|Hge].
    - rewrite nth_error_app1 in Hk by assumption.
      rewrite (Hc k e Hk). lia.
    - rewrite nth_error_app2 in Hk by assumption.
      destruct (k - List.length (changeLog d))%nat as [|j] eqn:Hj.
      + simpl in Hk. inversion Hk; subst e. simpl. lia.
      + simpl in Hk. destruct j; discriminate. }
  unfold log_append, slice_last.
  destruct (Z.of_nat (List.length (changeLog d ++ [e0])) >? maxLogSize);
    [|exact Happ].
  intros k e Hk. rewrite nth_error_skipn in Hk.
  rewrite (Happ _ e Hk), length_skipn. lia.
Qed.

Lemma log_consecutive_primitive p now :
  preserves log_consecutive (runPrimitive p now).
Proof.
  intros d H. destruct (lockedFor p now d) eqn:L.
  - destruct (runPrimitive_locked p now d L) as (_ & _ & Hv & Hl & _).
    unfold log_consecutive. rewrite Hv, Hl. exact H.
  - destruct (runPrimitive_unlocked p now d L) as (_ & _ & Hv & Hl & _).
    eapply log_consecutive_append; eauto.
Qed.

Lemma log_consecutive_insertAt i t u now :
  preserves log_consecutive (insertAt i t u now).
Proof. exact (log_consecutive_primitive (PInsertAt i t u) now). Qed.

Lemma log_consecutive_deleteRange i n u now :
  preserves log_consecutive (deleteRange i n u now).
Proof. exact (log_consecutive_primitive (PDeleteRange i n u) now). Qed.

Lemma log_consecutive_replaceRange i n t u now :
  preserves log_consecutive (replaceRange i n t u now).
Proof. exact (log_consecutive_primitive (PReplaceRange i n t u) now). Qed.

Lemma log_consecutive_handleTextChange delta src now :
  preserves log_consecutive (handleTextChange delta src now).
Proof.
  intros d H. destruct src; [|exact H].
  cbv beta iota delta [handleTextChange incrementVersion bind modify gets ret].
  rewrite logChange_spec. simpl.
  eapply log_consecutive_append; [exact H | reflexivity | reflexivity].
Qed.

#[local] Hint Resolve log_consecutive_insertAt log_consecutive_deleteRange
  log_consecutive_replaceRange log_consecutive_handleTextChange : pres.

Lemma log_consecutive_runCmd d c :
  log_consecutive d -> log_consecutive (runCmd d c).
Proof.
  intros H.
  destruct c as [p now| | | | | | | | | | | | | | | | ];
    cbv beta iota delta [runCmd exec];
    [ exact (log_consecutive_primitive p now d H) | .. ];
    to_preserves log_consecutive; unfold_methods; pres.
Qed.

Lemma log_invariants_runCall d c :
  log_ok d /\ log_consecutive d ->
  log_ok (runCall d c) /\ log_consecutive (runCall d c).
Proof.
  intros [H1 H2]. destruct c as [c|delta src now|maxAge now];
    cbv beta iota delta [runCall exec].
  - split; [now apply log_ok_runCmd | now apply log_consecutive_runCmd].
  - split; [now apply log_ok_handleTextChange
           | now apply log_consecutive_handleTextChange].
  - split.
    + clear H2. to_preserves log_ok. unfold_methods. pres.
    + clear H1. to_preserves log_consecutive. unfold_methods. pres.
Qed.

Lemma Reached_log d : Reached d -> log_ok d /\ log_consecutive d.
Proof.
  intros (text & cs & ->).
  assert (H0 : log_ok (newDoc text) /\ log_consecutive (newDoc text)).
  { split.
    - unfold log_ok. simpl. unfold maxLogSize.
      repeat split; try lia; constructor.
    - split; [intros k e Hk; destruct k; discriminate | reflexivity]. }
  revert H0. generalize (newDoc text).
  induction cs as [|c cs IH]; intros d H; simpl; [assumption|].
  apply IH, log_invariants_runCall, H.
Qed.

Lemma Reachable_Reached d : Reachable d -> Reached d.
Proof.
  intros (text & cs & ->). exists text, (map Public cs).
  generalize (newDoc text). induction cs as [|c cs IH]; intros d0; simpl;
    [reflexivity | apply IH].
Qed.

Lemma Reached_newDoc text : Reached (newDoc text).
Proof. exists text, []. reflexivity. Qed.

Lemma Reached_runCalls d cs : Reached d -> Reached (runCalls d cs).
Proof.
  intros (text & cs0 & ->). exists text, (cs0 ++ cs).
  unfold runCalls. now rewrite fold_left_app.
Qed.

(** X1. The change log of a document never holds more than 1000 entries,
    however many edits were made. *)
Theorem changeLog_never_exceeds_maxLogSize d :
  Reached d ->
  Z.of_nat (List.length (changeLog d)) <= 1000.
Proof. intros H. apply Reached_log in H. destruct H as [(_ & H & _) _]. exact H. Qed.

(** X2. The entries of the change log carry consecutive versions that end
    at the current version of the document: the log is the record of the
    latest edits, none missing, oldest first; all versions are at least 1
    and the log is empty exactly when the version is 0. *)
Theorem changeLog_versions_consecutive d :
  Reached d ->
  (forall k e, nth_error (changeLog d) k = Some e ->
     e_version e
     = version d - Z.of_nat (List.length (changeLog d)) + 1 + Z.of_nat k
     /\ 1 <= e_version e <= version d)
  /\ StronglySorted version_lt (changeLog d)
  /\ (changeLog d = [] <-> version d = 0).
Proof.
  intros H. apply Reached_log in H.
  destruct H as [(Hv & Hlen & Hs & Hf) Hc]. split; [|split].
  - intros k e Hk. split; [now apply (proj1 Hc)|].
    rewrite Forall_forall in Hf. apply Hf. eapply nth_error_In; eauto.
  - exact Hs.
  - split.
    + apply (proj2 Hc).
    + intros Hz. destruct (changeLog d) as [|e l] eqn:El; [reflexivity|].
      inversion Hf; subst. lia.
Qed.

Lemma Reached_open_transaction : Reached open_transaction.
Proof. apply Reachable_Reached, Reachable_runCmds, Reachable_newDoc. Qed.

Lemma changeLog_never_exceeds_maxLogSize_witness :
  Z.of_nat (List.length (changeLog open_transaction)) <= 1000.
Proof.
  exact (changeLog_never_exceeds_maxLogSize open_transaction
           Reached_open_transaction).
Defined.

Lemma changeLog_versions_consecutive_witness :
  StronglySorted version_lt (changeLog open_transaction)
  /\ (changeLog open_transaction = [] <-> version open_transaction = 0).
Proof.
  exact (proj2 (changeLog_versions_consecutive open_transaction
                  Reached_open_transaction)).
Defined.

Lemma filter_consecutive v : forall (l : list Entry) a,
  (forall k e, nth_error l k = Some e -> e_version e = a + Z.of_nat k) ->
  filter (fun e => e_version e >? v) l = skipn (Z.to_nat (v + 1 - a)) l.
Proof.
  induction l as [|h t IH]; intros a H.
  - now rewrite skipn_nil.
  - assert (Hh : e_version h = a) by (rewrite (H 0%nat h eq_refl); lia).
    assert (Ht : forall k e, nth_error t k = Some e ->
                   e_version e = (a + 1) + Z.of_nat k).
    { intros k e Hk. rewrite (H (S k) e Hk). lia. }
    simpl. rewrite (IH (a + 1) Ht), Hh.
    destruct (Z.gtb_spec a v) as [Hgt|Hle].
    + replace (Z.to_nat (v + 1 - a)) with 0%nat by lia.
      replace (Z.to_nat (v + 1 - (a + 1))) with 0%nat by lia.
      reflexivity.
    + replace (Z.to_nat (v + 1 - a)) with (S (Z.to_nat (v + 1 - (a + 1))))
        by lia.
      reflexivity.
Qed.

Lemma consecutive_versions : forall (l : list Entry) a,
  (forall k e, nth_error l k = Some e -> e_version e = a + Z.of_nat k) ->
  map e_version l = map (fun k => a + Z.of_nat k) (seq 0 (List.length l)).
Proof.
  induction l as [|h t IH]; intros a H; [reflexivity|].
  simpl. rewrite (H 0%nat h eq_refl). f_equal.
  rewrite <- seq_shift, map_map.
  rewrite (IH (a + 1)).
  - apply map_ext. intros k. lia.
  - intros k e Hk. rewrite (H (S k) e Hk). lia.
Qed.

(** X3. [getChangesSince(v)] returns a tail of the change log: the entries
    of versions v+1 up to the current version, oldest first.  None is
    missing as long as they are still in the log, that is when at most as
    many versions have passed since v as the log holds; asked with the
    current version it returns nothing. *)
Theorem getChangesSince_is_log_tail d v :
  Reached d ->
  getChangesSince v d
  = skipn (Z.to_nat (Z.of_nat (List.length (changeLog d)) - (version d - v)))
          (changeLog d)
  /\ (0 <= version d - v <= Z.of_nat (List.length (changeLog d)) ->
      map e_version (getChangesSince v d)
      = map (fun k => v + 1 + Z.of_nat k) (seq 0 (Z.to_nat (version d - v))))
  /\ getChangesSince (version d) d = [].
Proof.
  intros H. apply Reached_log in H. destruct H as [_ [Hc _]].
  assert (Htail : forall w,
            getChangesSince w d
            = skipn (Z.to_nat (Z.of_nat (List.length (changeLog d))
                               - (version d - w))) (changeLog d)).
  { intros w. unfold getChangesSince.
    rewrite (filter_consecutive w (changeLog d)
               (version d - Z.of_nat (List.length (changeLog d)) + 1)).
    - f_equal. lia.
    - intros k e Hk. rewrite (Hc k e Hk). lia. }
  split; [apply Htail|]. split.
  - intros Hv. rewrite Htail.
    set (len := List.length (changeLog d)) in *.
    set (j := Z.to_nat (Z.of_nat len - (version d - v))).
    assert (Hj : (j + Z.to_nat (version d - v) = len)%nat)
      by (unfold j; lia).
    rewrite (consecutive_versions (skipn j (changeLog d)) (v + 1)).
    + rewrite length_skipn. fold len.
      replace (len - j)%nat with (Z.to_nat (version d - v)) by lia.
      reflexivity.
    + intros k e Hk. rewrite nth_error_skipn in Hk.
      rewrite (Hc _ e Hk). fold len. lia.
  - rewrite Htail. replace (version d - version d) with 0 by lia.
    rewrite Z.sub_0_r, Nat2Z.id. apply skipn_all.
Qed.

Lemma getChangesSince_is_log_tail_witness :
  map e_version (getChangesSince 1 open_transaction) = [2]
  /\ getChangesSince 2 open_transaction = [].
Proof.
  destruct (getChangesSince_is_log_tail open_transaction 1
              Reached_open_transaction) as (_ & H & _).
  destruct (getChangesSince_is_log_tail open_transaction 2
              Reached_open_transaction) as (_ & _ & H2).
  split; [apply H; simpl; lia | exact H2].
Defined.

(** X4. [getHistory(limit)] with a positive limit returns the latest
    [limit] entries of the log in log order (all of them when the log is
    shorter); with limit 0 it returns the whole log, not an empty list,
    because [slice(-0)] is [slice(0)]; and a negative limit drops that many
    of the oldest entries. *)
Theorem getHistory_limits d limit :
  (0 < limit ->
   getHistory limit d
   = skipn (List.length (changeLog d) - Z.to_nat limit) (changeLog d)
   /\ List.length (getHistory limit d)
      = Nat.min (Z.to_nat limit) (List.length (changeLog d)))
  /\ (limit = 0 -> getHistory limit d = changeLog d)
  /\ (limit < 0 -> getHistory limit d = skipn (Z.to_nat (- limit)) (changeLog d)).
Proof.
  unfold getHistory, js_slice_from.
  set (len := List.length (changeLog d)). split; [|split].
  - intros Hl. destruct (Z.ltb_spec (- limit) 0); [|lia].
    assert (Hk : Z.to_nat (Z.max (Z.of_nat len + - limit) 0)
                 = (len - Z.to_nat limit)%nat) by lia.
    rewrite Hk. split; [reflexivity|]. rewrite length_skipn. fold len. lia.
  - intros ->. simpl. rewrite Z.min_l by lia. reflexivity.
  - intros Hl. destruct (Z.ltb_spec (- limit) 0); [lia|].
    destruct (Z.le_ge_cases (- limit) (Z.of_nat len)) as [Hle|Hge].
    + now rewrite Z.min_l by assumption.
    + rewrite Z.min_r by assumption. rewrite Nat2Z.id.
      rewrite !skipn_all2; [reflexivity | fold len; lia | fold len; lia].
Qed.

Lemma getHistory_limits_witness :
  getHistory 1 open_transaction = [mkEntry (ChInsert "user1" 6 "B" 1) 2 3]
  /\ getHistory 0 open_transaction = changeLog open_transaction.
Proof.
  destruct (getHistory_limits open_transaction 1) as ((H1 & _) & _); [lia|].
  destruct (getHistory_limits open_transaction 0) as (_ & H0 & _).
  split; [rewrite H1; reflexivity | apply H0; reflexivity].
Defined.

(** ** The lock table *)

Lemma rangesOverlap_sym a b : rangesOverlap a b = rangesOverlap b a.
Proof. unfold rangesOverlap. apply andb_comm. Qed.

Lemma JsMap_In_keys {V} k (v : V) m : In (k, v) m -> In k (JsMap.keys m).
Proof.
  intros H. unfold JsMap.keys. apply in_map_iff. exists (k, v). auto.
Qed.

Lemma JsMap_In_delete {V} k (m : JsMap.t V) k0 v0 :
  NoDup (JsMap.keys m) ->
  In (k0, v0) (JsMap.delete k m) -> k0 <> k /\ In (k0, v0) m.
Proof.
  induction m as [|[k' v'] rest IH]; simpl; [intros _ []|].
  intros Hnd. inversion Hnd; subst.
  destruct (Z.eqb_spec k' k).
  - subst k'. intros Hin. split; [|auto].
    intros ->. apply H1. eapply JsMap_In_keys; eauto.
  - intros [Heq|Hin].
    + inversion Heq; subst. auto.
    + destruct (IH H2 Hin). auto.
Qed.

Lemma NoDup_keys_delete {V} k (m : JsMap.t V) :
  NoDup (JsMap.keys m) -> NoDup (JsMap.keys (JsMap.delete k m)).
Proof.
  induction m as [|[k' v'] rest IH]; simpl; [auto|].
  intros Hnd. inversion Hnd; subst.
  destruct (Z.eqb_spec k' k); [assumption|].
  simpl. constructor; [|auto].
  intros Hin. apply H1. eapply JsMap_keys_delete; eauto.
Qed.

Lemma scanLocks_NoDup i n u now locks :
  NoDup (JsMap.keys locks) ->
  NoDup (JsMap.keys (snd (scanLocks i n u now locks))).
Proof.
  induction locks as [|[id lock] rest IH]; simpl; [auto|].
  intros Hnd. inversion Hnd; subst.
  destruct (now >? expiresAt lock); [auto|].
  destruct (user_neq (lock_userId lock) u
            && rangesOverlap (mkRange i n) (lock_range lock)); [assumption|].
  destruct (scanLocks i n u now rest) as [found rest'] eqn:Hs. simpl in *.
  constructor; [|auto].
  intros Hin. apply H1. unfold JsMap.keys in *.
  apply in_map_iff in Hin. destruct Hin as (x & Hx & Hin).
  apply in_map_iff. exists x. split; [assumption|].
  apply (scanLocks_keeps_only i n u now rest). now rewrite Hs.
Qed.

(** Dropping entries from the lock table keeps it well formed. *)
Lemma locks_ok_subtable d d' :
  locks_ok d ->
  lockCounter d' = lockCounter d ->
  timers d' = timers d ->
  (forall x, In x (rangeLocks d') -> In x (rangeLocks d)) ->
  NoDup (JsMap.keys (rangeLocks d')) ->
  locks_ok d'.
Proof.
  intros (Hkb & Hnd & Hid & Hex & Htm & Hhas) Hc Ht Hsub Hnd'.
  unfold locks_ok. rewrite Hc, Ht. repeat split.
  - intros k Hin. apply Hkb. unfold JsMap.keys in *.
    apply in_map_iff in Hin. destruct Hin as (x & Hx & Hin).
    apply in_map_iff. exists x. auto.
  - exact Hnd'.
  - intros id l Hin. apply Hid. auto.
  - intros id1 l1 id2 l2 H1 H2. apply (Hex id1 l1 id2 l2); auto.
  - apply Htm. assumption.
  - intros l Hin. apply (proj2 (Htm tm H)). auto.
  - intros id l Hin. apply Hhas. auto.
Qed.

Lemma locks_ok_isRangeLocked i n u now :
  preserves locks_ok (isRangeLocked i n u now).
Proof.
  unfold isRangeLocked. apply preserves_bind; [apply preserves_gets|intro].
  apply preserves_bind; [|intro; apply preserves_ret].
  apply preserves_modify. intros d H.
  apply (locks_ok_subtable d); try reflexivity; try assumption.
  - simpl. apply scanLocks_keeps_only.
  - simpl. apply scanLocks_NoDup. apply H.
Qed.

Lemma locks_ok_unlockRange id u : preserves locks_ok (unlockRange id u).
Proof.
  unfold unlockRange. apply preserves_bind; [apply preserves_gets|intros lock].
  destruct lock as [lock|]; [|apply preserves_ret].
  destruct (user_neq (lock_userId lock) u); [apply preserves_throw|].
  apply preserves_bind; [|intro; apply preserves_ret].
  apply preserves_modify. intros d H.
  apply (locks_ok_subtable d); try reflexivity; try assumption; simpl.
  - intros [k v] Hin. eapply JsMap_In_delete; [apply H | exact Hin].
  - apply NoDup_keys_delete, H.
Qed.

Lemma locks_ok_lockRange u i n dur now :
  preserves locks_ok (lockRange u i n dur now).
Proof.
  intros d H.
  destruct (lockRange_spec u i n dur now d) as [Hok Hthrow].
  destruct (lockRange_conflict u i n (rangeLocks d)) as [other|] eqn:Hc.
  - rewrite (Hthrow other eq_refl). exact H.
  - destruct (Hok eq_refl) as (_ & Hl & Ht).
    assert (Hcnt : lockCounter (snd (lockRange u i n dur now d))
                   = lockCounter d + 1).
    { unfold lockRange, bind, gets, modify, ret, throw. rewrite Hc. reflexivity. }
    destruct H as (Hkb & Hnd & Hid & Hex & Htm & Hhas).
    pose proof (proj1 (lockRange_conflict_None u i n (rangeLocks d)) Hc) as Hfree.
    unfold locks_ok. rewrite Hl, Ht, Hcnt.
    set (new := mkLock (lockCounter d + 1) u (mkRange i n) now (now + dur)).
    repeat split.
    + eapply keys_below_set; eauto; lia.
    + now apply NoDup_keys_set.
    + intros id l Hin. apply JsMap_In_set in Hin.
      destruct Hin as [[-> ->]|Hin]; [reflexivity | auto].
    + intros id1 l1 id2 l2 H1 H2 Hne.
      apply JsMap_In_set in H1. apply JsMap_In_set in H2.
      destruct H1 as [[-> ->]|H1], H2 as [[-> ->]|H2].
      * contradiction.
      * apply (Hfree id2 l2 H2). auto.
      * rewrite rangesOverlap_sym. apply (Hfree id1 l1 H1). auto.
      * eapply Hex; eauto.
    + apply in_app_or in H. destruct H as [H|[<-|[]]]; simpl;
        [specialize (Htm tm H); lia | lia].
    + intros l Hin. apply JsMap_In_set in Hin.
      apply in_app_or in H. destruct H as [H|[<-|[]]]; simpl in *.
      * destruct Hin as [[Hk _]|Hin]; [|now apply (proj2 (Htm tm H))].
        specialize (Htm tm H). lia.
      * destruct Hin as [[_ ->]|Hin]; [reflexivity|].
        apply JsMap_In_keys in Hin. specialize (Hkb _ Hin). lia.
    + intros id l Hin. apply JsMap_In_set in Hin. apply in_or_app.
      destruct Hin as [[-> ->]|Hin]; [right; left; reflexivity | left; auto].
Qed.

Lemma In_remove_nth {A} (l : list A) n x y :
  In x l -> nth_error l n = Some y -> x <> y ->
  In x (firstn n l ++ skipn (S n) l).
Proof.
  revert n. induction l as [|h t IH]; intros n Hin Hn Hne; [destruct Hin|].
  destruct n as [|n]; simpl in *.
  - inversion Hn; subst. destruct Hin; [congruence | assumption].
  - destruct Hin as [->|Hin]; [left; reflexivity | right; eauto].
Qed.

Lemma In_remove_nth_inv {A} (l : list A) n x :
  In x (firstn n l ++ skipn (S n) l) -> In x l.
Proof.
  revert n. induction l as [|h t IH]; intros n H.
  - destruct n; simpl in H; destruct H.
  - destruct n as [|n]; simpl in H.
    + right. exact H.
    + destruct H as [->|H]; [left; reflexivity | right; eauto].
Qed.

(** What a release timer does when it runs: it never throws; it deletes
    its lock if that is still stored and leaves the table alone otherwise. *)
Lemma fireTimer_effect n now d :
  locks_ok d ->
  fst (fireTimer n now d) = Ok tt
  /\ lockCounter (snd (fireTimer n now d)) = lockCounter d
  /\ match nth_error (timers d) n with
     | Some tm =>
         if tm_due tm <=? now then
           timers (snd (fireTimer n now d))
           = firstn n (timers d) ++ skipn (S n) (timers d)
           /\ rangeLocks (snd (fireTimer n now d))
              = JsMap.delete (tm_lockId tm) (rangeLocks d)
         else snd (fireTimer n now d) = d
     | None => snd (fireTimer n now d) = d
     end.
Proof.
  intros (Hkb & Hnd & Hid & Hex & Htm & Hhas).
  unfold fireTimer, bind, gets, modify, ret. simpl.
  destruct (nth_error (timers d) n) as [tm|] eqn:Hn; [|auto].
  destruct (tm_due tm <=? now); [|auto].
  unfold unlockRange, bind, gets, modify, ret, throw. simpl.
  destruct (JsMap.get (tm_lockId tm) (rangeLocks d)) as [lock|] eqn:Hg; simpl.
  - assert (Hu : lock_userId lock = tm_userId tm).
    { apply (proj2 (Htm tm (nth_error_In _ _ Hn))).
      now apply JsMap_get_In_pair. }
    rewrite Hu, user_neq_refl. simpl. auto.
  - repeat split.
    assert (Hno : ~ In (tm_lockId tm) (JsMap.keys (rangeLocks d))).
    { intros Hin. unfold JsMap.keys in Hin. apply in_map_iff in Hin.
      destruct Hin as ([k v] & Hk & Hin). simpl in Hk. subst k.
      apply (JsMap_In_get _ _ _ Hnd) in Hin. congruence. }
    clear - Hno. induction (rangeLocks d) as [|[k v] rest IH]; [reflexivity|].
    simpl in *. destruct (Z.eqb_spec k (tm_lockId tm)); [exfalso; auto|].
    f_equal. apply IH. auto.
Qed.

Lemma locks_ok_fireTimer n now : preserves locks_ok (fireTimer n now).
Proof.
  intros d H. destruct (fireTimer_effect n now d H) as (_ & Hc & He).
  destruct (nth_error (timers d) n) as [tm|] eqn:Hn; [|now rewrite He].
  destruct (tm_due tm <=? now); [|now rewrite He].
  destruct He as [Ht Hl].
  destruct H as (Hkb & Hnd & Hid & Hex & Htm & Hhas).
  unfold locks_ok. rewrite Hc, Ht, Hl. repeat split.
  - now apply keys_below_delete.
  - now apply NoDup_keys_delete.
  - intros id l Hin. apply (JsMap_In_delete _ _ _ _ Hnd) in Hin. apply Hid, Hin.
  - intros id1 l1 id2 l2 H1 H2.
    apply (JsMap_In_delete _ _ _ _ Hnd) in H1, H2.
    apply (Hex id1 l1 id2 l2); tauto.
  - apply In_remove_nth_inv in H. now apply Htm.
  - intros l Hin. apply In_remove_nth_inv in H.
    apply (JsMap_In_delete _ _ _ _ Hnd) in Hin.
    apply (proj2 (Htm tm0 H)), Hin.
  - intros id l Hin. apply (JsMap_In_delete _ _ _ _ Hnd) in Hin.
    destruct Hin as [Hne Hin].
    eapply In_remove_nth; [now apply Hhas | exact Hn |].
    intros Heq. apply Hne. now rewrite <- Heq.
Qed.

#[local] Hint Resolve locks_ok_isRangeLocked locks_ok_unlockRange
  locks_ok_lockRange locks_ok_fireTimer : pres.

Lemma locks_ok_runCall d c : locks_ok d -> locks_ok (runCall d c).
Proof.
  intros H.
  destruct c as [[[]| | | | | | | | | | | | | | | | ]| |];
    cbv beta iota delta [runCall runCmd runPrimitive exec];
    to_preserves locks_ok;
    unfold insertAt, deleteRange, replaceRange, applyDelta,
      handleTextChange, suggestEdit, acceptSuggestion, rejectSuggestion,
      clearSuggestions, applyQuickCorrection, revertCorrection,
      switchToAlternate, beginTransaction, commitTransaction,
      rollbackTransaction, subscribe, unsubscribe, clearOldCorrections;
    unfold insertAt, deleteRange, replaceRange, incrementVersion, logChange,
      notifySubscribers;
    pres.
Qed.

Lemma Reached_locks_ok d : Reached d -> locks_ok d.
Proof.
  intros (text & cs & ->).
  assert (H0 : locks_ok (newDoc text)).
  { unfold locks_ok. simpl.
    split; [intros k []|]. split; [constructor|].
    split; [intros id l []|]. split; [intros id1 l1 id2 l2 []|].
    split; [intros tm [] | intros id l []]. }
  revert H0. generalize (newDoc text).
  induction cs as [|c cs IH]; intros d H; simpl; [assumption|].
  apply IH, locks_ok_runCall, H.
Qed.

Lemma Reached_two_locks : Reached two_locks.
Proof. apply Reachable_Reached, Reachable_runCmds, Reachable_newDoc. Qed.

(** X5. Mutual exclusion: in every document a session can produce, two
    locks of the table held by different users never overlap, whether they
    have expired or not; on ranges of positive length they share no
    position. *)
Theorem locks_of_different_users_never_overlap d id1 l1 id2 l2 :
  Reached d ->
  In (id1, l1) (rangeLocks d) ->
  In (id2, l2) (rangeLocks d) ->
  lock_userId l1 <> lock_userId l2 ->
  rangesOverlap (lock_range l1) (lock_range l2) = false
  /\ (0 < r_length (lock_range l1) -> 0 < r_length (lock_range l2) ->
      forall x,
        r_index (lock_range l1) <= x
          < r_index (lock_range l1) + r_length (lock_range l1) ->
        ~ (r_index (lock_range l2) <= x
             < r_index (lock_range l2) + r_length (lock_range l2))).
Proof.
  intros Hr H1 H2 Hne. apply Reached_locks_ok in Hr.
  destruct Hr as (_ & _ & _ & Hex & _).
  pose proof (Hex id1 l1 id2 l2 H1 H2 Hne) as Hno.
  split; [exact Hno|].
  intros Hp1 Hp2 x Hx1 Hx2.
  assert (Ht : rangesOverlap (lock_range l1) (lock_range l2) = true)
    by (apply rangesOverlap_shared_position; eauto).
  congruence.
Qed.

Lemma locks_of_different_users_never_overlap_witness :
  rangesOverlap (mkRange 10 20) (mkRange 30 20) = false.
Proof.
  exact (proj1 (locks_of_different_users_never_overlap two_locks
                  1 (mkLock 1 "A" (mkRange 10 20) 0 60000)
                  2 (mkLock 2 "B" (mkRange 30 20) 1 60001)
                  Reached_two_locks
                  (or_introl eq_refl) (or_intror (or_introl eq_refl))
                  ltac:(discriminate))).
Defined.

(** X6. A release timer is harmless: whenever it runs it returns without
    throwing, it adds nothing to the lock table and it removes no lock but
    its own; if its lock was already released it changes nothing in the
    table. *)
Theorem release_timer_is_safe d n now :
  Reached d ->
  fst (fireTimer n now d) = Ok tt
  /\ (forall x, In x (rangeLocks (snd (fireTimer n now d))) ->
        In x (rangeLocks d))
  /\ (forall id l, In (id, l) (rangeLocks d) ->
        (forall tm, nth_error (timers d) n = Some tm -> tm_lockId tm <> id) ->
        In (id, l) (rangeLocks (snd (fireTimer n now d))))
  /\ (forall tm, nth_error (timers d) n = Some tm ->
        JsMap.get (tm_lockId tm) (rangeLocks d) = None ->
        rangeLocks (snd (fireTimer n now d)) = rangeLocks d).
Proof.
  intros Hr. apply Reached_locks_ok in Hr.
  destruct (fireTimer_effect n now d Hr) as (Hok & _ & He).
  destruct Hr as (_ & Hnd & _).
  split; [exact Hok|].
  destruct (nth_error (timers d) n) as [tm|] eqn:Hn;
    [|rewrite He; repeat split; auto; intros; discriminate].
  destruct (tm_due tm <=? now);
    [|rewrite He; repeat split; auto].
  destruct He as [_ Hl]. rewrite Hl. split; [|split].
  - intros [k v] Hin. eapply JsMap_In_delete; eauto.
  - intros id l Hin Hother. specialize (Hother tm eq_refl).
    clear - Hin Hother. induction (rangeLocks d) as [|[k v] rest IH];
      [destruct Hin|].
    simpl. destruct (Z.eqb_spec k (tm_lockId tm)).
    + destruct Hin as [Heq|Hin]; [inversion Heq; congruence | assumption].
    + destruct Hin as [Heq|Hin]; [left; assumption | right; auto].
  - intros tm' Heq Hnone. inversion Heq; subst tm'.
    clear - Hnone. induction (rangeLocks d) as [|[k v] rest IH]; [reflexivity|].
    simpl in *. destruct (Z.eqb_spec k (tm_lockId tm)); [discriminate|].
    f_equal. auto.
Qed.

Lemma Reached_one_lock : Reached one_lock.
Proof. apply Reachable_Reached, Reachable_runCmds, Reachable_newDoc. Qed.

Lemma release_timer_is_safe_witness :
  fst (fireTimer 0 1000 one_lock) = Ok tt.
Proof.
  exact (proj1 (release_timer_is_safe one_lock 0 1000 Reached_one_lock)).
Defined.

Lemma JsMap_get_delete_same {V} k (m : JsMap.t V) :
  NoDup (JsMap.keys m) -> JsMap.get k (JsMap.delete k m) = None.
Proof.
  intros Hnd. apply JsMap_get_None. intros Hin.
  unfold JsMap.keys in Hin. apply in_map_iff in Hin.
  destruct Hin as ([k0 v0] & Hk & Hin). simpl in Hk. subst k0.
  destruct (JsMap_In_delete _ _ _ _ Hnd Hin) as [Hne _]. congruence.
Qed.

(** X7. No lock without its release timer: every lock of the table has,
    pending in the timer queue, the timer [lockRange] scheduled for it,
    whose callback is [unlockRange] with the lock's id and the lock's
    owner; whenever that callback runs it reports success, the lock is
    gone from the table and every other lock is still there. *)
Theorem every_lock_has_its_release_timer d id l :
  Reached d ->
  In (id, l) (rangeLocks d) ->
  exists k tm,
    nth_error (timers d) k = Some tm
    /\ tm_lockId tm = id
    /\ tm_userId tm = lock_userId l
    /\ fst (unlockRange (tm_lockId tm) (tm_userId tm) d) = Ok (Unlocked id)
    /\ JsMap.get id
         (rangeLocks (snd (unlockRange (tm_lockId tm) (tm_userId tm) d)))
       = None
    /\ forall id' l', id' <> id ->
         JsMap.get id' (rangeLocks d) = Some l' ->
         JsMap.get id'
           (rangeLocks (snd (unlockRange (tm_lockId tm) (tm_userId tm) d)))
         = Some l'.
Proof.
  intros Hr Hin. apply Reached_locks_ok in Hr.
  pose proof Hr as (_ & Hnd & _ & _ & _ & Hhas).
  destruct (In_nth_error _ _ (Hhas id l Hin)) as [k Hk].
  exists k, (mkTimer (expiresAt l) id (lock_userId l)).
  split; [exact Hk|]. split; [reflexivity|]. split; [reflexivity|].
  cbn [tm_lockId tm_userId].
  assert (Hg : JsMap.get id (rangeLocks d) = Some l)
    by (apply JsMap_In_get; assumption).
  assert (Hrun : unlockRange id (lock_userId l) d
                 = (Ok (Unlocked id),
                    set_rangeLocks (JsMap.delete id (rangeLocks d)) d)).
  { unfold unlockRange, bind, gets, modify, ret. rewrite Hg.
    now rewrite user_neq_refl. }
  rewrite Hrun. cbn [fst snd].
  split; [reflexivity|]. split.
  - change (rangeLocks (set_rangeLocks (JsMap.delete id (rangeLocks d)) d))
      with (JsMap.delete id (rangeLocks d)).
    now apply JsMap_get_delete_same.
  - intros id' l' Hne Hg'.
    change (rangeLocks (set_rangeLocks (JsMap.delete id (rangeLocks d)) d))
      with (JsMap.delete id (rangeLocks d)).
    rewrite JsMap_get_delete_other by congruence. exact Hg'.
Qed.

Lemma every_lock_has_its_release_timer_witness :
  exists k tm,
    nth_error (timers one_lock) k = Some tm
    /\ tm_lockId tm = 1
    /\ JsMap.get 1
         (rangeLocks (snd (unlockRange (tm_lockId tm) (tm_userId tm) one_lock)))
       = None.
Proof.
  destruct (every_lock_has_its_release_timer one_lock 1
              (mkLock 1 "user1" (mkRange 10 20) 0 1000)
              Reached_one_lock (or_introl eq_refl))
    as (k & tm & Hk & Hid & _ & _ & Hgone & _).
  exists k, tm. split; [exact Hk|]. split; [exact Hid | exact Hgone].
Defined.

Lemma JsMap_delete_set_fresh {V} k (v : V) m :
  ~ In k (JsMap.keys m) -> JsMap.delete k (JsMap.set k v m) = m.
Proof.
  induction m as [|[k' v'] rest IH]; simpl.
  - now rewrite Z.eqb_refl.
  - intros H. destruct (Z.eqb_spec k' k); [exfalso; auto|].
    simpl. destruct (Z.eqb_spec k' k); [contradiction|].
    f_equal. auto.
Qed.

(** X8. Locking and unlocking undo each other, and only the owner can
    unlock: when [lockRange] by [u] returns a lock, [unlockRange] with its
    id by [u] returns success and leaves the lock table as it was before
    the lock; the same call by any other user throws and changes nothing;
    an id that is not in the table gives the 'Lock not found' result
    without throwing. *)
Theorem lock_unlock_round_trip d u i n dur now lock d1 :
  Reached d ->
  lockRange u i n dur now d = (Ok lock, d1) ->
  (fst (unlockRange (lockId lock) u d1) = Ok (Unlocked (lockId lock))
   /\ rangeLocks (snd (unlockRange (lockId lock) u d1)) = rangeLocks d)
  /\ (forall v, v <> u ->
        unlockRange (lockId lock) v d1 = (Throw CannotUnlock, d1))
  /\ (forall id v, JsMap.get id (rangeLocks d1) = None ->
        unlockRange id v d1 = (Ok LockNotFound, d1)).
Proof.
  intros Hr Hlock. apply Reached_locks_ok in Hr.
  destruct Hr as (Hkb & _).
  destruct (lockRange_spec u i n dur now d) as [Hok Hthrow].
  destruct (lockRange_conflict u i n (rangeLocks d)) as [other|] eqn:Hc.
  - rewrite (Hthrow other eq_refl) in Hlock. discriminate.
  - destruct (Hok eq_refl) as (Hres & Hl & _).
    rewrite Hlock in Hres, Hl. simpl in Hres, Hl.
    inversion Hres; subst lock. simpl.
    assert (Hg : JsMap.get (lockCounter d + 1) (rangeLocks d1)
                 = Some (mkLock (lockCounter d + 1) u (mkRange i n) now
                           (now + dur)))
      by (rewrite Hl; apply JsMap_get_set_same).
    split; [|split].
    + unfold unlockRange, bind, gets, modify, ret, throw. simpl.
      rewrite Hg. simpl. rewrite user_neq_refl. simpl.
      split; [reflexivity|]. rewrite Hl.
      apply JsMap_delete_set_fresh.
      intros Hin. specialize (Hkb _ Hin). lia.
    + intros v Hv. unfold unlockRange, bind, gets, modify, ret, throw. simpl.
      rewrite Hg. simpl.
      assert (Hn : user_neq u v = true) by (apply user_neq_true; congruence).
      now rewrite Hn.
    + intros id v Hnone. unfold unlockRange, bind, gets, modify, ret, throw.
      simpl. now rewrite Hnone.
Qed.

Lemma lock_unlock_round_trip_witness :
  rangeLocks (snd (unlockRange 1 "user1" one_lock)) = rangeLocks sample
  /\ unlockRange 1 "user2" one_lock = (Throw CannotUnlock, one_lock).
Proof.
  destruct (lock_unlock_round_trip sample "user1" 10 20 1000 0
              (mkLock 1 "user1" (mkRange 10 20) 0 1000) one_lock
              (Reached_newDoc _) eq_refl)
    as ((_ & Hround) & Hother & _).
  split; [exact Hround | apply Hother; discriminate].
Defined.

(** X9. The lock check purges lazily and never loses a live lock:
    [isRangeLocked] returns without throwing, adds nothing to the lock
    table and keeps every lock that has not expired; when it answers that
    the range is free, the table it leaves holds exactly the unexpired
    locks, in their order.  The buffer, the version and the change log are
    not touched. *)
Theorem isRangeLocked_purges_expired_only i n u now d :
  let r := isRangeLocked i n u now d in
  (exists b, fst r = Ok b
     /\ (b = false ->
         rangeLocks (snd r)
         = filter (fun kv => negb (now >? expiresAt (snd kv))) (rangeLocks d)))
  /\ (forall x, In x (rangeLocks (snd r)) -> In x (rangeLocks d))
  /\ (forall id l, In (id, l) (rangeLocks d) -> now <= expiresAt l ->
        In (id, l) (rangeLocks (snd r)))
  /\ quill (snd r) = quill d /\ version (snd r) = version d
  /\ changeLog (snd r) = changeLog d.
Proof.
  unfold isRangeLocked, bind, gets, modify, ret. simpl.
  split; [|split; [|split]]; [| apply scanLocks_keeps_only | | auto].
  - eexists. split; [reflexivity|].
    induction (rangeLocks d) as [|[id lock] rest IH]; simpl; [reflexivity|].
    destruct (now >? expiresAt lock); simpl; [exact IH|].
    destruct (user_neq (lock_userId lock) u
              && rangesOverlap (mkRange i n) (lock_range lock));
      [discriminate|].
    destruct (scanLocks i n u now rest) as [found rest']. simpl in *.
    intros ->. now rewrite IH.
  - induction (rangeLocks d) as [|[id0 lock] rest IH]; simpl; [auto|].
    intros id l Hin Hlive.
    destruct (Z.gtb_spec now (expiresAt lock)) as [Hexp|Hok].
    + destruct Hin as [Heq|Hin]; [inversion Heq; subst; lia | eauto].
    + destruct (user_neq (lock_userId lock) u
                && rangesOverlap (mkRange i n) (lock_range lock));
        [exact Hin|].
      destruct (scanLocks i n u now rest) as [found rest']. simpl in *.
      destruct Hin as [Heq|Hin]; [left; assumption | right; eauto].
Qed.

(** ** The correction store *)

Lemma runPrimitive_corrections_frame p now d :
  corrections (snd (runPrimitive p now d)) = corrections d
  /\ correctionCounter (snd (runPrimitive p now d)) = correctionCounter d.
Proof.
  destruct p; js_unfold; js_cases; auto.
Qed.

Lemma applyQuickCorrection_store u i n orig corr alts now d :
  let r := applyQuickCorrection u i n orig corr alts now d in
  correctionCounter (snd r) = correctionCounter d + 1
  /\ match fst r with
     | Ok c =>
         corrections (snd r)
         = evict_oldest (JsMap.set (correctionCounter d + 1) c (corrections d))
     | Throw _ => corrections (snd r) = corrections d
     end.
Proof.
  cbv beta iota zeta delta [applyQuickCorrection bind modify gets ret].
  change (deleteRange i n u now) with (runPrimitive (PDeleteRange i n u) now).
  change (insertAt i corr u now) with (runPrimitive (PInsertAt i corr u) now).
  set (d0 := set_corrections (corrections d) (correctionCounter d + 1) d).
  destruct (runPrimitive_corrections_frame (PDeleteRange i n u) now d0)
    as [Hc1 Hk1].
  destruct (runPrimitive (PDeleteRange i n u) now d0) as [[e1|err] d1];
    simpl in Hc1, Hk1; [|simpl; auto].
  destruct (runPrimitive_corrections_frame (PInsertAt i corr u) now d1)
    as [Hc2 Hk2].
  destruct (runPrimitive (PInsertAt i corr u) now d1) as [[e2|err] d2];
    simpl in Hc2, Hk2; [|simpl; rewrite Hc2, Hk2; auto].
  unfold evict_oldest. simpl. rewrite Hc2, Hc1, Hk2, Hk1. simpl.
  destruct (JsMap.size _ >? 100); simpl; [|auto].
  destruct (JsMap.keys _); simpl; auto.
Qed.

Lemma JsMap_size_set {V} k (v : V) m :
  JsMap.size (JsMap.set k v m) <= JsMap.size m + 1.
Proof.
  unfold JsMap.size. induction m as [|[k' v'] rest IH]; simpl; [lia|].
  destruct (Z.eqb_spec k' k); simpl in *; lia.
Qed.

Lemma JsMap_size_set_present {V} k (v v0 : V) m :
  JsMap.get k m = Some v0 -> JsMap.size (JsMap.set k v m) = JsMap.size m.
Proof.
  intros H. unfold JsMap.size.
  rewrite <- (length_map fst (JsMap.set k v m)), <- (length_map fst m).
  fold (JsMap.keys (JsMap.set k v m)). fold (JsMap.keys m).
  now rewrite (JsMap_keys_set_present k v v0 m H).
Qed.

Lemma evict_oldest_bounded m c :
  JsMap.size m <= 101 -> keys_below m c -> NoDup (JsMap.keys m) ->
  JsMap.size (evict_oldest m) <= 100
  /\ keys_below (evict_oldest m) c
  /\ NoDup (JsMap.keys (evict_oldest m)).
Proof.
  intros Hsz Hkb Hnd. unfold evict_oldest.
  destruct (Z.gtb_spec (JsMap.size m) 100) as [Hgt|Hle]; [|auto with zarith].
  destruct m as [|[k v] rest]; simpl; [auto with zarith|].
  rewrite Z.eqb_refl. unfold JsMap.size in *. simpl in *.
  inversion Hnd; subst. repeat split; [lia | | assumption].
  intros k0 Hin. apply Hkb. right. exact Hin.
Qed.

Lemma corrections_ok_applyQuickCorrection u i n orig corr alts now :
  preserves corrections_ok (applyQuickCorrection u i n orig corr alts now).
Proof.
  intros d (Hsz & Hkb & Hnd).
  destruct (applyQuickCorrection_store u i n orig corr alts now d) as [Hk Hc].
  unfold corrections_ok. rewrite Hk.
  destruct (fst (applyQuickCorrection u i n orig corr alts now d)) as [c|err].
  - rewrite Hc. apply evict_oldest_bounded.
    + pose proof (JsMap_size_set (correctionCounter d + 1) c (corrections d)).
      lia.
    + eapply keys_below_set; eauto; lia.
    + now apply NoDup_keys_set.
  - rewrite Hc. repeat split; [assumption | | assumption].
    eapply keys_below_weaken; eauto. lia.
Qed.

(** A correction call that rewrites a stored record: the store is as
    before, or the record with that id was replaced in place. *)
Lemma rewrite_in_place (m : JsMap.t Correction) c k c0 c' m' :
  JsMap.size m <= 100 /\ keys_below m c /\ NoDup (JsMap.keys m) ->
  JsMap.get k m = Some c0 ->
  m' = m \/ m' = JsMap.set k c' m ->
  JsMap.size m' <= 100 /\ keys_below m' c /\ NoDup (JsMap.keys m').
Proof.
  intros (Hsz & Hkb & Hnd) Hg [->| ->]; [auto|].
  rewrite (JsMap_size_set_present k c' c0 m Hg). repeat split; [assumption| |].
  - eapply keys_below_set; eauto; try lia. eapply keys_below_present; eauto.
  - now apply NoDup_keys_set.
Qed.

Lemma revertCorrection_store cid u now d :
  let r := revertCorrection cid u now d in
  correctionCounter (snd r) = correctionCounter d
  /\ match JsMap.get cid (corrections d) with
     | None => r = (Throw (CorrectionNotFound cid), d)
     | Some c =>
         corrections (snd r) = corrections d
         \/ corrections (snd r)
            = JsMap.set cid (mark_reverted c u now) (corrections d)
     end.
Proof.
  cbv beta iota zeta delta [revertCorrection bind modify gets ret throw].
  destruct (JsMap.get cid (corrections d)) as [c|]; [|auto].
  set (i := r_index (c_range c)). set (n := r_length (c_range c)).
  change (deleteRange i n u now) with (runPrimitive (PDeleteRange i n u) now).
  change (insertAt i (original c) u now)
    with (runPrimitive (PInsertAt i (original c) u) now).
  destruct (runPrimitive_corrections_frame (PDeleteRange i n u) now d)
    as [Hc1 Hk1].
  destruct (runPrimitive (PDeleteRange i n u) now d) as [[e1|err] d1];
    simpl in Hc1, Hk1; [|simpl; auto].
  destruct (runPrimitive_corrections_frame (PInsertAt i (original c) u) now d1)
    as [Hc2 Hk2].
  destruct (runPrimitive (PInsertAt i (original c) u) now d1)
    as [[e2|err] d2]; simpl in Hc2, Hk2; simpl; rewrite ?Hc2, ?Hc1, ?Hk2, ?Hk1;
    auto.
Qed.

Lemma switchToAlternate_store cid k u now d :
  let r := switchToAlternate cid k u now d in
  correctionCounter (snd r) = correctionCounter d
  /\ match JsMap.get cid (corrections d) with
     | None => r = (Throw (CorrectionNotFound cid), d)
     | Some c =>
         if (k <? 0) || (k >=? Z.of_nat (List.length (alternates c)))
         then r = (Throw (AlternateOutOfRange k), d)
         else
           corrections (snd r) = corrections d
           \/ corrections (snd r)
              = JsMap.set cid
                  (mark_switched c (nth (Z.to_nat k) (alternates c) EmptyString)
                     k u now)
                  (corrections d)
     end.
Proof.
  cbv beta iota zeta delta [switchToAlternate bind modify gets ret throw].
  destruct (JsMap.get cid (corrections d)) as [c|]; [|auto].
  destruct ((k <? 0) || (k >=? Z.of_nat (List.length (alternates c))));
    [auto|].
  set (i := r_index (c_range c)). set (n := r_length (c_range c)).
  set (alt := nth (Z.to_nat k) (alternates c) EmptyString).
  change (deleteRange i n u now) with (runPrimitive (PDeleteRange i n u) now).
  change (insertAt i alt u now) with (runPrimitive (PInsertAt i alt u) now).
  destruct (runPrimitive_corrections_frame (PDeleteRange i n u) now d)
    as [Hc1 Hk1].
  destruct (runPrimitive (PDeleteRange i n u) now d) as [[e1|err] d1];
    simpl in Hc1, Hk1; [|simpl; auto].
  destruct (runPrimitive_corrections_frame (PInsertAt i alt u) now d1)
    as [Hc2 Hk2].
  destruct (runPrimitive (PInsertAt i alt u) now d1)
    as [[e2|err] d2]; simpl in Hc2, Hk2; simpl; rewrite ?Hc2, ?Hc1, ?Hk2, ?Hk1;
    auto.
Qed.

Lemma corrections_ok_revertCorrection cid u now :
  preserves corrections_ok (revertCorrection cid u now).
Proof.
  intros d H. destruct (revertCorrection_store cid u now d) as [Hk Hc].
  unfold corrections_ok. rewrite Hk.
  destruct (JsMap.get cid (corrections d)) as [c|] eqn:Hg.
  - eapply rewrite_in_place; eauto.
  - rewrite Hc. exact H.
Qed.

Lemma corrections_ok_switchToAlternate cid k u now :
  preserves corrections_ok (switchToAlternate cid k u now).
Proof.
  intros d H. destruct (switchToAlternate_store cid k u now d) as [Hk Hc].
  unfold corrections_ok. rewrite Hk.
  destruct (JsMap.get cid (corrections d)) as [c|] eqn:Hg.
  - destruct ((k <? 0) || (k >=? Z.of_nat (List.length (alternates c)))).
    + rewrite Hc. exact H.
    + eapply rewrite_in_place; eauto.
  - rewrite Hc. exact H.
Qed.

(** The loop of [clearOldCorrections] keeps, in order, the entries that
    are not older than [maxAge], and counts the others. *)
Lemma clearOld_loop_spec maxAge now m :
  fst (clearOld_loop maxAge now m)
  = filter (fun kv => negb (now - c_timestamp (snd kv) >? maxAge)) m
  /\ snd (clearOld_loop maxAge now m)
     = JsMap.size m - JsMap.size (fst (clearOld_loop maxAge now m)).
Proof.
  unfold JsMap.size. induction m as [|[id c] rest [IH1 IH2]];
    [split; reflexivity|].
  cbn [clearOld_loop].
  destruct (clearOld_loop maxAge now rest) as [kept cleared].
  cbn [fst snd] in IH1, IH2. cbn [filter snd].
  destruct (now - c_timestamp c >? maxAge); cbn [negb fst snd];
    subst kept cleared; split; try reflexivity;
    cbn [List.length]; rewrite ?Nat2Z.inj_succ; lia.
Qed.

Lemma corrections_ok_clearOldCorrections maxAge now :
  preserves corrections_ok (clearOldCorrections maxAge now).
Proof.
  intros d (Hsz & Hkb & Hnd).
  unfold clearOldCorrections, bind, gets, modify, ret, corrections_ok. simpl.
  rewrite (proj1 (clearOld_loop_spec maxAge now (corrections d))).
  repeat split.
  - unfold JsMap.size in *.
    pose proof (filter_length_le
                  (fun kv => negb (now - c_timestamp (snd kv) >? maxAge))
                  (corrections d)).
    lia.
  - now apply keys_below_filter.
  - now apply NoDup_keys_filter.
Qed.

#[local] Hint Resolve corrections_ok_applyQuickCorrection
  corrections_ok_revertCorrection corrections_ok_switchToAlternate
  corrections_ok_clearOldCorrections : pres.

Lemma corrections_ok_runCall d c : corrections_ok d -> corrections_ok (runCall d c).
Proof.
  intros H.
  destruct c as [[[]| | | | | | | | | | | | | | | | ]| |];
    cbv beta iota delta [runCall runCmd runPrimitive exec];
    to_preserves corrections_ok;
    unfold insertAt, deleteRange, replaceRange, applyDelta,
      handleTextChange, lockRange, unlockRange, fireTimer,
      suggestEdit, acceptSuggestion, rejectSuggestion,
      clearSuggestions, beginTransaction, commitTransaction,
      rollbackTransaction, subscribe, unsubscribe;
    unfold replaceRange, unlockRange, isRangeLocked, incrementVersion,
      logChange, notifySubscribers;
    unfold isRangeLocked;
    pres.
Qed.

Lemma Reached_corrections_ok d : Reached d -> corrections_ok d.
Proof.
  intros (text & cs & ->).
  assert (H0 : corrections_ok (newDoc text)).
  { unfold corrections_ok. simpl.
    split; [unfold JsMap.size; simpl; lia|].
    split; [intros k [] | constructor]. }
  revert H0. generalize (newDoc text).
  induction cs as [|c cs IH]; intros d H; simpl; [assumption|].
  apply IH, corrections_ok_runCall, H.
Qed.

Lemma wf_runCall d c : wf d -> wf (runCall d c).
Proof.
  destruct c as [c|delta src now|maxAge now]; [apply runCmd_wf| |];
    unfold wf; intros (Hs & Hc & Hk); simpl;
    unfold handleTextChange, clearOldCorrections;
    js_unfold; js_cases; (split; [|split]); simpl; auto.
  rewrite (proj1 (clearOld_loop_spec maxAge now (corrections d))).
  now apply keys_below_filter.
Qed.

Lemma Reached_wf d : Reached d -> wf d.
Proof.
  intros (text & cs & ->). pose proof (newDoc_wf text) as H0.
  revert H0. generalize (newDoc text).
  induction cs as [|c cs IH]; intros d H; simpl; [assumption|].
  apply IH, wf_runCall, H.
Qed.

Lemma Reached_corrected_doc : Reached corrected_doc.
Proof. apply Reachable_Reached, Reachable_runCmds, Reachable_newDoc. Qed.

(** X10. The correction store never holds more than 100 corrections, and
    no correction id occurs twice in it. *)
Theorem corrections_never_exceed_100 d :
  Reached d ->
  JsMap.size (corrections d) <= 100
  /\ NoDup (JsMap.keys (corrections d)).
Proof.
  intros H. apply Reached_corrections_ok in H.
  destruct H as (H1 & _ & H2). auto.
Qed.

Lemma corrections_never_exceed_100_witness :
  JsMap.size (corrections corrected_doc) <= 100.
Proof.
  exact (proj1 (corrections_never_exceed_100 corrected_doc
                  Reached_corrected_doc)).
Defined.

(** X11. [applyQuickCorrection] stores the new correction last, under a
    fresh id, and evicts in insertion order: when the store already holds
    100 corrections the oldest one is dropped, otherwise nothing is; the
    correction just recorded is never the one evicted. *)
Theorem applyQuickCorrection_evicts_oldest d u i n orig corr alts now c d' :
  Reached d ->
  applyQuickCorrection u i n orig corr alts now d = (Ok c, d') ->
  correctionId c = correctionCounter d + 1
  /\ corrections d'
     = (if JsMap.size (corrections d) <? 100 then corrections d
        else tl (corrections d)) ++ [(correctionId c, c)]
  /\ JsMap.get (correctionId c) (corrections d') = Some c.
Proof.
  intros Hr Happly.
  pose proof (Reached_wf d Hr) as Hwf.
  destruct (Reached_corrections_ok d Hr) as (Hsz & Hkb & Hnd).
  destruct (applyQuickCorrection_ok _ _ _ _ _ _ _ _ _ _ Hwf Happly)
    as (Hc & _ & _ & Hg).
  assert (Hid : correctionId c = correctionCounter d + 1) by now subst c.
  destruct (applyQuickCorrection_store u i n orig corr alts now d) as [_ Hst].
  rewrite Happly in Hst. simpl in Hst.
  split; [exact Hid|]. split; [|now rewrite Hid].
  rewrite Hst, Hid. rewrite JsMap_set_fresh
    by (intros Hin; specialize (Hkb _ Hin); lia).
  unfold evict_oldest, JsMap.size in *. rewrite length_app. simpl.
  destruct (Z.ltb_spec (Z.of_nat (List.length (corrections d))) 100) as [Hlt|Hge].
  - destruct (Z.gtb_spec (Z.of_nat (List.length (corrections d) + 1)) 100);
      [lia | reflexivity].
  - destruct (Z.gtb_spec (Z.of_nat (List.length (corrections d) + 1)) 100);
      [|lia].
    destruct (corrections d) as [|[k0 v0] rest]; [simpl in Hge; lia|].
    simpl. now rewrite Z.eqb_refl.
Qed.

Lemma applyQuickCorrection_evicts_oldest_witness :
  corrections corrected_doc
  = [(1, mkCorrection 1 "llm" (mkRange 7 10) "document" "manuscript" [] 1 2
           false None None None None None)].
Proof.
  destruct (applyQuickCorrection_evicts_oldest sample "llm" 7 8 "document"
              "manuscript" [] 1
              (mkCorrection 1 "llm" (mkRange 7 10) "document" "manuscript"
                 [] 1 2 false None None None None None)
              corrected_doc (Reached_newDoc _))
    as (_ & H & _).
  - vm_compute. reflexivity.
  - rewrite H. reflexivity.
Defined.

(** X12. [clearOldCorrections(maxAge)] never throws; it keeps, in their
    order, exactly the corrections recorded at most [maxAge] before now,
    and the number it returns is the number of corrections it removed. *)
Theorem clearOldCorrections_counts_removed maxAge now d :
  let r := clearOldCorrections maxAge now d in
  corrections (snd r)
  = filter (fun kv => negb (now - c_timestamp (snd kv) >? maxAge))
           (corrections d)
  /\ fst r = Ok (JsMap.size (corrections d) - JsMap.size (corrections (snd r)))
  /\ (forall id c, In (id, c) (corrections (snd r)) <->
        In (id, c) (corrections d) /\ now - c_timestamp c <= maxAge)
  /\ quill (snd r) = quill d /\ version (snd r) = version d.
Proof.
  unfold clearOldCorrections, bind, gets, modify, ret. simpl.
  destruct (clearOld_loop_spec maxAge now (corrections d)) as [H1 H2].
  rewrite H2, H1.
  split; [reflexivity|]. split; [reflexivity|]. split; [|auto].
  intros id c. rewrite filter_In. simpl.
  destruct (Z.gtb_spec (now - c_timestamp c) maxAge); simpl.
  - split; [intros [_ Hf]; discriminate | intros [_ Hf]; lia].
  - tauto.
Qed.

Lemma switchToAlternate_ok cid k u now d c c' d' :
  JsMap.get cid (corrections d) = Some c ->
  switchToAlternate cid k u now d = (Ok c', d') ->
  c' = mark_switched c (nth (Z.to_nat k) (alternates c) EmptyString) k u now
  /\ quill d'
     = quill_insertText (r_index (c_range c))
         (nth (Z.to_nat k) (alternates c) EmptyString)
         (quill_deleteText (r_index (c_range c)) (r_length (c_range c))
            (quill d))
  /\ JsMap.get cid (corrections d') = Some c'.
Proof.
  intros Hg H.
  cbv beta iota zeta delta [switchToAlternate bind modify gets ret throw] in H.
  rewrite Hg in H. revert H.
  destruct ((k <? 0) || (k >=? Z.of_nat (List.length (alternates c))));
    intros H; cbv beta iota zeta in H; [discriminate H|].
  set (i := r_index (c_range c)) in *. set (n := r_length (c_range c)) in *.
  set (alt := nth (Z.to_nat k) (alternates c) EmptyString) in *.
  change (deleteRange i n u now) with (runPrimitive (PDeleteRange i n u) now) in H.
  change (insertAt i alt u now) with (runPrimitive (PInsertAt i alt u) now) in H.
  destruct (runPrimitive (PDeleteRange i n u) now d) as [[e1|err] d1] eqn:E1;
    [|discriminate].
  destruct (runPrimitive (PInsertAt i alt u) now d1) as [[e2|err] d2] eqn:E2;
    [|discriminate].
  apply runPrimitive_ok_inv in E1, E2. simpl in E1, E2.
  destruct E1 as (Hq1 & _). destruct E2 as (Hq2 & _).
  inversion H; subst; clear H. simpl.
  rewrite Hq2, Hq1. repeat split. apply JsMap_get_set_same.
Qed.

Lemma switchToAlternate_unhindered cid k u now d c :
  JsMap.get cid (corrections d) = Some c ->
  0 <= k < Z.of_nat (List.length (alternates c)) ->
  unhindered u now (rangeLocks d) ->
  exists c' d', switchToAlternate cid k u now d = (Ok c', d').
Proof.
  intros Hg Hk Hfree.
  cbv beta iota delta [switchToAlternate bind modify gets ret throw].
  rewrite Hg.
  destruct (Z.ltb_spec k 0); [lia|].
  destruct (Z.geb_spec k (Z.of_nat (List.length (alternates c)))); [lia|].
  simpl.
  set (i := r_index (c_range c)). set (n := r_length (c_range c)).
  set (alt := nth (Z.to_nat k) (alternates c) EmptyString).
  destruct (runPrimitive_unhindered (PDeleteRange i n u) now d Hfree)
    as (e1 & d1 & E1 & Hfree1).
  destruct (runPrimitive_unhindered (PInsertAt i alt u) now d1 Hfree1)
    as (e2 & d2 & E2 & _).
  simpl in E1, E2. rewrite E1, E2. eauto.
Qed.

Lemma switch_after_apply d u i n orig corr alts now c d1 u2 now2 k :
  Reached d ->
  (Z.to_nat i <= List.length (quill d))%nat ->
  applyQuickCorrection u i n orig corr alts now d = (Ok c, d1) ->
  unhindered u2 now2 (rangeLocks d1) ->
  0 <= k < Z.of_nat (List.length alts) ->
  exists c' d2,
    switchToAlternate (correctionId c) k u2 now2 d1 = (Ok c', d2)
    /\ c' = mark_switched c (nth (Z.to_nat k) alts EmptyString) k u2 now2
    /\ original c' = orig
    /\ quill d2
       = firstn (Z.to_nat i) (quill d)
         ++ chars (nth (Z.to_nat k) alts EmptyString)
         ++ skipn (Z.to_nat n) (skipn (Z.to_nat i) (quill d))
    /\ JsMap.get (correctionId c) (corrections d2) = Some c'.
Proof.
  intros Hr Hi Happly Hfree Hk. apply Reached_wf in Hr.
  destruct (applyQuickCorrection_ok _ _ _ _ _ _ _ _ _ _ Hr Happly)
    as (Hc & Hq1 & _ & Hg1).
  assert (Hid : correctionId c = correctionCounter d + 1) by now subst c.
  assert (Halts : alternates c = alts) by now subst c.
  assert (Hrange : c_range c = mkRange i (strlen corr)) by now subst c.
  assert (Horig : original c = orig) by now subst c.
  rewrite Hid.
  destruct (switchToAlternate_unhindered _ k u2 now2 d1 c Hg1
              ltac:(rewrite Halts; exact Hk) Hfree)
    as (c' & d2 & Hsw).
  destruct (switchToAlternate_ok _ _ _ _ _ _ _ _ Hg1 Hsw) as (Hc' & Hq2 & Hg2).
  rewrite Halts in Hc', Hq2. rewrite Hrange in Hq2. simpl in Hq2.
  exists c', d2. split; [exact Hsw|]. split; [exact Hc'|].
  split; [rewrite Hc'; exact Horig|]. split; [|exact Hg2].
  assert (Hpre : List.length (firstn (Z.to_nat i) (quill d)) = Z.to_nat i)
    by (rewrite length_firstn; lia).
  rewrite Hq2, Hq1, (quill_replace_text i n corr (quill d) Hi).
  rewrite (quill_delete_inserted i corr _ _ Hpre).
  now apply quill_insert_at_join.
Qed.

(** X13. After [applyQuickCorrection] has recorded a correction at an index
    inside the buffer, [switchToAlternate] with an index into its
    alternates, made while no unexpired lock of another user is held,
    replaces the applied text by that alternate: the buffer text at the
    correction's range is the alternate, and the record's applied text and
    range length are updated to it.  With an index outside the alternates
    the call throws and leaves the document as it was. *)
Theorem switchToAlternate_yields_alternate
  d u i n orig corr alts now c d1 u2 now2 k :
  Reached d ->
  (Z.to_nat i <= List.length (quill d))%nat ->
  applyQuickCorrection u i n orig corr alts now d = (Ok c, d1) ->
  unhindered u2 now2 (rangeLocks d1) ->
  (0 <= k < Z.of_nat (List.length alts) ->
   exists c' d2,
     switchToAlternate (correctionId c) k u2 now2 d1 = (Ok c', d2)
     /\ applied c' = nth (Z.to_nat k) alts EmptyString
     /\ c_range c' = mkRange i (strlen (nth (Z.to_nat k) alts EmptyString))
     /\ alternateSelected c' = Some k
     /\ getRangeText (r_index (c_range c')) (r_length (c_range c')) d2
        = chars (nth (Z.to_nat k) alts EmptyString)
     /\ JsMap.get (correctionId c) (corrections d2) = Some c')
  /\ (k < 0 \/ Z.of_nat (List.length alts) <= k ->
      switchToAlternate (correctionId c) k u2 now2 d1
      = (Throw (AlternateOutOfRange k), d1)).
Proof.
  intros Hr Hi Happly Hfree. split.
  - intros Hk.
    destruct (switch_after_apply _ _ _ _ _ _ _ _ _ _ u2 now2 k
                Hr Hi Happly Hfree Hk)
      as (c' & d2 & Hsw & Hc' & _ & Hq & Hg).
    exists c', d2. split; [exact Hsw|].
    assert (Hrange : c_range c = mkRange i (strlen corr)).
    { apply Reached_wf in Hr.
      destruct (applyQuickCorrection_ok _ _ _ _ _ _ _ _ _ _ Hr Happly)
        as (Hc & _). now subst c. }
    rewrite Hc'. simpl. rewrite Hrange. simpl.
    repeat split; try assumption.
    + unfold getRangeText. rewrite Hq.
      rewrite <- (quill_insert_at_join i _ (firstn (Z.to_nat i) (quill d)))
        by (rewrite length_firstn; lia).
      apply insert_then_getText. rewrite length_app, length_firstn. lia.
    + now rewrite <- Hc'.
  - intros Hk. apply Reached_wf in Hr.
    destruct (applyQuickCorrection_ok _ _ _ _ _ _ _ _ _ _ Hr Happly)
      as (Hc & _ & _ & Hg1).
    assert (Hid : correctionId c = correctionCounter d + 1) by now subst c.
    assert (Halts : alternates c = alts) by now subst c.
    destruct (switchToAlternate_store (correctionId c) k u2 now2 d1) as [_ Hst].
    rewrite Hid in *. rewrite Hg1, Halts in Hst.
    destruct (Z.ltb_spec k 0); [exact Hst|].
    destruct (Z.geb_spec k (Z.of_nat (List.length alts))); [exact Hst | lia].
Qed.

(** X14. Switching to an alternate and then reverting gives the original
    back: after [applyQuickCorrection], a [switchToAlternate] and a
    [revertCorrection], each made while no unexpired lock of another user
    is held, the buffer holds the original text where the correction was,
    and it is the buffer from before the correction when the original
    passed to [applyQuickCorrection] was the text of the corrected range. *)
Theorem switch_then_revert_restores_original
  d u i n orig corr alts now c d1 u2 now2 k c' d2 u3 now3 :
  Reached d ->
  (Z.to_nat i <= List.length (quill d))%nat ->
  applyQuickCorrection u i n orig corr alts now d = (Ok c, d1) ->
  unhindered u2 now2 (rangeLocks d1) ->
  0 <= k < Z.of_nat (List.length alts) ->
  switchToAlternate (correctionId c) k u2 now2 d1 = (Ok c', d2) ->
  unhindered u3 now3 (rangeLocks d2) ->
  exists res d3,
    revertCorrection (correctionId c) u3 now3 d2 = (Ok res, d3)
    /\ rr_originalText res = orig
    /\ quill d3
       = firstn (Z.to_nat i) (quill d) ++ chars orig
         ++ skipn (Z.to_nat n) (skipn (Z.to_nat i) (quill d))
    /\ (quill_getText i n (quill d) = chars orig -> quill d3 = quill d).
Proof.
  intros Hr Hi Happly Hfree Hk Hsw Hfree3.
  destruct (switch_after_apply _ _ _ _ _ _ _ _ _ _ u2 now2 k
              Hr Hi Happly Hfree Hk)
    as (c'' & d2' & Hsw' & Hc' & Horig & Hq & Hg).
  rewrite Hsw in Hsw'. injection Hsw' as E1 E2.
  rewrite <- E1 in Hc', Horig, Hg. rewrite <- E2 in Hq, Hg.
  clear E1 E2 c'' d2'.
  destruct (revertCorrection_unhindered _ u3 now3 d2 c' Hg Hfree3)
    as (res & d3 & Hrev).
  destruct (revertCorrection_ok _ _ _ _ _ _ _ Hg Hrev) as (Hq3 & _ & _ & Hres).
  assert (Hrange : c_range c'
                   = mkRange (r_index (c_range c))
                       (strlen (nth (Z.to_nat k) alts EmptyString)))
    by (rewrite Hc'; reflexivity).
  assert (Hindex : r_index (c_range c) = i).
  { apply Reached_wf in Hr.
    destruct (applyQuickCorrection_ok _ _ _ _ _ _ _ _ _ _ Hr Happly)
      as (Hc & _). now subst c. }
  rewrite Hrange, Horig, Hindex in Hq3. simpl in Hq3.
  assert (Hpre : List.length (firstn (Z.to_nat i) (quill d)) = Z.to_nat i)
    by (rewrite length_firstn; lia).
  rewrite Hq, (quill_delete_inserted i _ _ _ Hpre) in Hq3.
  rewrite (quill_insert_at_join i orig _ _ Hpre) in Hq3.
  exists res, d3. split; [exact Hrev|].
  split; [rewrite Hres; simpl; exact Horig|]. split; [exact Hq3|].
  intros Htext. rewrite Hq3, <- Htext. unfold quill_getText.
  now rewrite !firstn_skipn.
Qed.

Lemma switchToAlternate_yields_alternate_witness :
  exists c' d2,
    switchToAlternate 1 1 "user1" 2 corrected_alt = (Ok c', d2)
    /\ applied c' = "draft"%string
    /\ getRangeText 7 5 d2 = chars "draft".
Proof.
  destruct (switchToAlternate_yields_alternate sample "llm" 7 8 "document"
              "manuscript" ["paper"; "draft"]%string 1
              (mkCorrection 1 "llm" (mkRange 7 10) "document" "manuscript"
                 ["paper"; "draft"]%string 1 2 false None None None None None)
              corrected_alt "user1" 2 1)
    as [Hsw _].
  - apply Reached_newDoc.
  - simpl. lia.
  - vm_compute. reflexivity.
  - intros id lock [].
  - destruct Hsw as (c' & d2 & Hsw & Ha & Hrg & _ & Ht & _); [simpl; lia|].
    exists c', d2. split; [exact Hsw|]. split; [exact Ha|].
    rewrite Hrg in Ht. exact Ht.
Defined.

Lemma switch_then_revert_restores_original_witness :
  exists res d3,
    revertCorrection 1 "user1" 3
      (snd (switchToAlternate 1 1 "user1" 2 corrected_alt)) = (Ok res, d3)
    /\ quill d3 = chars "Sample document text".
Proof.
  destruct (switch_then_revert_restores_original sample "llm" 7 8 "document"
              "manuscript" ["paper"; "draft"]%string 1
              (mkCorrection 1 "llm" (mkRange 7 10) "document" "manuscript"
                 ["paper"; "draft"]%string 1 2 false None None None None None)
              corrected_alt "user1" 2 1
              (mkCorrection 1 "llm" (mkRange 7 5) "document" "draft"
                 ["paper"; "draft"]%string 1 2 false None None
                 (Some 1) (Some "user1"%string) (Some 2))
              (snd (switchToAlternate 1 1 "user1" 2 corrected_alt))
              "user1" 3)
    as (res & d3 & Hrev & _ & _ & Hq).
  - apply Reached_newDoc.
  - simpl. lia.
  - vm_compute. reflexivity.
  - intros id lock [].
  - simpl. lia.
  - vm_compute. reflexivity.
  - intros id lock [].
  - exists res, d3. split; [exact Hrev|]. apply Hq. reflexivity.
Defined.

Lemma scanLocks_keeps_live i n u now locks id l :
  In (id, l) locks -> now <= expiresAt l ->
  In (id, l) (snd (scanLocks i n u now locks)).
Proof.
  induction locks as [|[id0 lock] rest IH]; simpl; [auto|].
  intros Hin Hlive.
  destruct (Z.gtb_spec now (expiresAt lock)) as [Hexp|Hok].
  - destruct Hin as [Heq|Hin]; [inversion Heq; subst; lia | eauto].
  - destruct (user_neq (lock_userId lock) u
              && rangesOverlap (mkRange i n) (lock_range lock));
      [exact Hin|].
    destruct (scanLocks i n u now rest) as [found rest']. simpl in *.
    destruct Hin as [Heq|Hin]; [left; assumption | right; eauto].
Qed.

(** X15. [applyQuickCorrection] is not atomic under locks: when no
    unexpired lock of another user overlaps the range to delete but one
    overlaps the range the correction would occupy, the call throws 'Range
    is locked by another user' after the deletion has been made: the old
    text is gone from the buffer, the version has advanced by one, a
    correction id has been used up and no correction is recorded. *)
Theorem applyQuickCorrection_can_stop_halfway
  u i n orig corr alts now d id lock :
  (forall id' l', In (id', l') (rangeLocks d) ->
     ~ blocks (mkRange i n) u now l') ->
  In (id, lock) (rangeLocks d) ->
  blocks (mkRange i (strlen corr)) u now lock ->
  let r := applyQuickCorrection u i n orig corr alts now d in
  fst r = Throw RangeIsLocked
  /\ quill (snd r) = quill_deleteText i n (quill d)
  /\ version (snd r) = version d + 1
  /\ corrections (snd r) = corrections d
  /\ correctionCounter (snd r) = correctionCounter d + 1.
Proof.
  intros Hfree Hin Hblock.
  cbv beta iota zeta delta [applyQuickCorrection bind modify gets ret].
  change (deleteRange i n u now) with (runPrimitive (PDeleteRange i n u) now).
  change (insertAt i corr u now) with (runPrimitive (PInsertAt i corr u) now).
  set (d0 := set_corrections (corrections d) (correctionCounter d + 1) d).
  assert (L1 : lockedFor (PDeleteRange i n u) now d0 = false).
  { apply (lockedFor_false_iff _ (mkRange i n)); [reflexivity | exact Hfree]. }
  pose proof (runPrimitive_unlocked _ now d0 L1) as U1. cbv zeta in U1.
  destruct (runPrimitive (PDeleteRange i n u) now d0) as [[e1|err] d1] eqn:E1;
    cbn [fst snd] in U1;
    destruct U1 as (Hr1 & Hq1 & Hv1 & _ & _ & _ & Hc1 & Hk1 & _);
    [|discriminate Hr1].
  assert (Hl1 : In (id, lock) (rangeLocks d1)).
  { replace d1 with (snd (runPrimitive (PDeleteRange i n u) now d0))
      by now rewrite E1.
    unfold lockedFor in L1. simpl in L1.
    js_unfold. simpl. rewrite L1. simpl.
    destruct (Z.of_nat (List.length (changeLog d ++ _)) >? maxLogSize); simpl;
      apply scanLocks_keeps_live; auto; apply Hblock. }
  assert (L2 : lockedFor (PInsertAt i corr u) now d1 = true).
  { apply (lockedFor_true_iff _ (mkRange i (strlen corr))); [reflexivity|].
    exists id, lock. auto. }
  pose proof (runPrimitive_locked _ now d1 L2) as U2. cbv zeta in U2.
  destruct (runPrimitive (PInsertAt i corr u) now d1) as [[e2|err] d2] eqn:E2;
    cbn [fst snd] in U2; destruct U2 as (Hr2 & Hq2 & Hv2 & _ & _ & Hc2 & _);
    [discriminate Hr2|].
  destruct (runPrimitive_corrections_frame (PInsertAt i corr u) now d1)
    as [_ Hk2].
  rewrite E2 in Hk2. simpl in Hk2 |- *.
  inversion Hr2; subst err.
  rewrite Hq2, Hq1, Hv2, Hv1, Hc2, Hc1, Hk2, Hk1. auto.
Qed.

Lemma applyQuickCorrection_can_stop_halfway_witness :
  fst (applyQuickCorrection "llm" 7 8 "document" "manuscript" [] 1
         locked_behind) = Throw RangeIsLocked
  /\ quill (snd (applyQuickCorrection "llm" 7 8 "document" "manuscript" [] 1
                   locked_behind)) = chars "Sample  text".
Proof.
  destruct (applyQuickCorrection_can_stop_halfway "llm" 7 8 "document"
              "manuscript" [] 1 locked_behind 1
              (mkLock 1 "user9" (mkRange 15 5) 0 60000))
    as (Hthrow & Hq & _).
  - intros id' l' [Heq|[]] (_ & _ & Ho). inversion Heq; subst.
    discriminate Ho.
  - left. reflexivity.
  - repeat split; [simpl; lia | discriminate].
  - split; [exact Hthrow | rewrite Hq; reflexivity].
Defined.

(** ** Suggestions, further *)

Lemma Reached_one_suggestion : Reachable one_suggestion.
Proof. apply Reachable_runCmds, Reachable_newDoc. Qed.

(** X16. [suggestEdit] only records: it returns a pending suggestion under
    a fresh id that captures the buffer text of its range as [oldText],
    appends it after the suggestions already stored, which stay as they
    are, and leaves the buffer, the version and the change log untouched. *)
Theorem suggestEdit_only_records u i n t now d :
  Reached d ->
  let r := suggestEdit u i n t now d in
  let s := mkSuggestion (suggestionCounter d + 1) u (mkRange i n) t
             (string_of_list_ascii (getRangeText i n d)) Pending now
             None None None None None in
  fst r = Ok s
  /\ suggestions (snd r) = suggestions d ++ [(suggestionCounter d + 1, s)]
  /\ JsMap.get (suggestionCounter d + 1) (suggestions (snd r)) = Some s
  /\ (forall k, k <> suggestionCounter d + 1 ->
        JsMap.get k (suggestions (snd r)) = JsMap.get k (suggestions d))
  /\ getSuggestions None (snd r) = getSuggestions None d ++ [s]
  /\ quill (snd r) = quill d /\ version (snd r) = version d
  /\ changeLog (snd r) = changeLog d.
Proof.
  intros Hr r s. apply Reached_wf in Hr. destruct Hr as ((Hkb & _) & _).
  assert (Hfresh : ~ In (suggestionCounter d + 1) (JsMap.keys (suggestions d)))
    by (intros Hin; specialize (Hkb _ Hin); lia).
  unfold r, suggestEdit, bind, gets, modify, ret. simpl. fold s.
  split; [reflexivity|]. split; [now apply JsMap_set_fresh|].
  split; [apply JsMap_get_set_same|].
  split; [intros k Hk; now apply JsMap_get_set_other|].
  split; [|auto].
  unfold getSuggestions, JsMap.values. simpl.
  rewrite JsMap_set_fresh by assumption. now rewrite map_app.
Qed.

Lemma suggestEdit_only_records_witness :
  suggestions one_suggestion
  = [(1, mkSuggestion 1 "llm-agent" (mkRange 7 8) "manuscript" "document"
           Pending 1 None None None None None)]
  /\ quill one_suggestion = chars "Sample document text".
Proof.
  destruct (suggestEdit_only_records "llm-agent" 7 8 "manuscript" 1 sample
              (Reached_newDoc _))
    as (_ & Hs & _ & _ & _ & Hq & _).
  split; [exact Hs | exact Hq].
Defined.

(** X17. A pending suggestion that is rejected is never applied: on a
    reachable document [rejectSuggestion] on a stored pending suggestion
    returns it marked rejected, with the rejecting user and the reason and
    with no acceptance recorded, without changing the buffer, the version
    or the change log; and whatever calls follow, an [acceptSuggestion] on
    it throws and leaves the document as it is. *)
Theorem rejected_suggestion_is_never_applied d sid s u reason now :
  Reachable d ->
  JsMap.get sid (suggestions d) = Some s ->
  status s = Pending ->
  let r := rejectSuggestion sid u reason now d in
  fst r = Ok (mark_rejected s u reason now)
  /\ JsMap.get sid (suggestions (snd r)) = Some (mark_rejected s u reason now)
  /\ (status (mark_rejected s u reason now) = Rejected
      /\ acceptedBy (mark_rejected s u reason now) = None
      /\ acceptedAt (mark_rejected s u reason now) = None)
  /\ quill (snd r) = quill d /\ version (snd r) = version d
  /\ changeLog (snd r) = changeLog d
  /\ forall cs u2 now2,
       exists err,
         acceptSuggestion sid u2 now2 (runCmds (snd r) cs)
         = (Throw err, runCmds (snd r) cs)
         /\ (err = SuggestionNotFound
             \/ exists st, st <> Pending /\ err = SuggestionAlready st).
Proof.
  intros Hr Hg Hpending r. apply Reachable_wf in Hr.
  destruct Hr as ((Hkb & Hnd & Hfresh) & _).
  pose proof (rejectSuggestion_cases sid u reason now d) as H. cbv zeta in H.
  rewrite Hg in H. fold r in H. destruct H as (Hok & Hs & Hcnt & Hq & Hv).
  split; [exact Hok|]. split; [rewrite Hs; apply JsMap_get_set_same|].
  split.
  { destruct (Hfresh sid s (JsMap_get_In_pair _ _ _ Hg) Hpending)
      as (Hab & Haa & _).
    split; [reflexivity|]. split; [exact Hab | exact Haa]. }
  split; [exact Hq|]. split; [exact Hv|]. split.
  - unfold r, rejectSuggestion, bind, gets, modify, ret. rewrite Hg. reflexivity.
  - intros cs u2 now2.
    assert (Hset : settled sid (snd r)).
    { split.
      - rewrite Hcnt. eapply keys_below_present; eauto.
      - intros s' Hin. rewrite Hs in Hin.
        apply JsMap_In_set_same in Hin; [|exact s|assumption].
        subst s'. simpl. discriminate. }
    destruct (accept_settled_throws sid _ u2 now2
                (runCmds_settled sid cs _ Hset))
      as [[_ Hthrow]|(st & Hst & Hthrow)].
    + exists SuggestionNotFound. split; [exact Hthrow | auto].
    + exists (SuggestionAlready st). split; [exact Hthrow|]. right. eauto.
Qed.

Lemma rejected_suggestion_is_never_applied_witness :
  exists err,
    fst (acceptSuggestion 1 "user1" 3
           (snd (rejectSuggestion 1 "user1" "not needed" 2 one_suggestion)))
    = Throw err.
Proof.
  destruct (rejected_suggestion_is_never_applied one_suggestion 1
              (mkSuggestion 1 "llm-agent" (mkRange 7 8) "manuscript" "document"
                 Pending 1 None None None None None)
              "user1" "not needed" 2 Reached_one_suggestion eq_refl eq_refl)
    as (_ & _ & _ & _ & _ & _ & Hlater).
  destruct (Hlater [] "user1"%string 3) as (err & Hthrow & _).
  exists err.
  change (runCmds (snd (rejectSuggestion 1 "user1" "not needed" 2
                          one_suggestion)) [])
    with (snd (rejectSuggestion 1 "user1" "not needed" 2 one_suggestion))
    in Hthrow.
  rewrite Hthrow. reflexivity.
Defined.

Lemma status_name_inj a b : status_name a = status_name b -> a = b.
Proof. destruct a, b; simpl; intros H; try reflexivity; discriminate. Qed.

Lemma status_name_eqb a b :
  String.eqb (status_name a) (status_name b) = status_eqb a b.
Proof. destruct a, b; reflexivity. Qed.

Lemma filter_filter {A} (f g : A -> bool) l :
  filter f (filter g l) = filter (fun x => g x && f x) l.
Proof.
  induction l as [|x l IH]; simpl; [reflexivity|].
  destruct (g x); simpl; [destruct (f x)|]; now rewrite IH.
Qed.

Lemma filter_map_snd {V} (f : V -> bool) (m : JsMap.t V) :
  filter f (JsMap.values m) = JsMap.values (filter (fun kv => f (snd kv)) m).
Proof.
  unfold JsMap.values. induction m as [|[k v] rest IH]; simpl; [reflexivity|].
  destruct (f v); simpl; now rewrite IH.
Qed.

(** X18. [clearSuggestions(status)] removes exactly the suggestions of that
    status: afterwards [getSuggestions(status)] is empty, while for any
    other status [getSuggestions] returns what it returned before, in the
    same order; [clearSuggestions('all')] empties the table.  The buffer
    and the version are untouched. *)
Theorem clearSuggestions_removes_one_status st d :
  let d' := exec (clearSuggestions (Some st)) d in
  getSuggestions (Some (status_name st)) d' = []
  /\ (forall st', st' <> st ->
        getSuggestions (Some (status_name st')) d'
        = getSuggestions (Some (status_name st')) d)
  /\ getSuggestions None (exec (clearSuggestions None) d) = []
  /\ quill d' = quill d /\ version d' = version d.
Proof.
  assert (Hshape : forall st0 d0,
            getSuggestions (Some (status_name st0)) d0
            = filter (fun s => status_eqb (status s) st0)
                     (JsMap.values (suggestions d0))).
  { intros st0 d0. unfold getSuggestions.
    destruct st0; simpl; apply filter_ext; intros s;
      destruct (status s); reflexivity. }
  cbv zeta. unfold exec, clearSuggestions, modify. cbn [snd].
  split; [|split; [|split; [reflexivity | auto]]].
  - rewrite Hshape. simpl. rewrite filter_map_snd, filter_filter.
    rewrite (filter_ext _ (fun _ => false)).
    + unfold JsMap.values. induction (suggestions d); simpl; auto.
    + intros [k s]. simpl. destruct (status s), st; reflexivity.
  - intros st' Hne. rewrite !Hshape. simpl.
    rewrite !filter_map_snd, filter_filter. f_equal.
    apply filter_ext. intros [k s]. simpl.
    destruct (status s), st, st'; try reflexivity; congruence.
Qed.

(** ** Transactions, further *)

Lemma nth_error_update_nth {A} (f : A -> A) : forall (l : list A) i j,
  nth_error (update_nth i f l) j
  = if Nat.eqb j i then option_map f (nth_error l j) else nth_error l j.
Proof.
  induction l as [|x l IH]; intros i j.
  - destruct i, j; simpl; try reflexivity;
      destruct (Nat.eqb _ _); reflexivity.
  - destruct i as [|i], j as [|j]; simpl; try reflexivity. apply IH.
Qed.

Lemma length_update_nth {A} (f : A -> A) : forall (l : list A) i,
  List.length (update_nth i f l) = List.length l.
Proof.
  induction l as [|x l IH]; intros [|i]; simpl; auto.
Qed.

Lemma tx_ok_version_up d d' :
  tx_ok d ->
  version d <= version d' ->
  currentTransaction d' = currentTransaction d ->
  transactionStack d' = transactionStack d ->
  tx_ok d'.
Proof.
  intros [H1 H2] Hv Hc Hs. unfold tx_ok. rewrite Hc, Hs. split; [|exact H2].
  intros j t Hj. destruct (H1 j t Hj) as (Ha & Hb & Hcl & Hd).
  split; [lia|]. split; [exact Hb|]. split; [exact Hcl|].
  intros v Hv'. specialize (Hd v Hv'). lia.
Qed.

Lemma tx_ok_incrementVersion : preserves tx_ok incrementVersion.
Proof.
  intros d H. unfold incrementVersion, bind, modify, gets. simpl.
  apply (tx_ok_version_up d); simpl; auto; lia.
Qed.

Lemma tx_ok_beginTransaction u now : preserves tx_ok (beginTransaction u now).
Proof.
  intros d [H1 H2]. unfold beginTransaction, bind, gets, modify, ret, throw.
  simpl. destruct (currentTransaction d) as [i|] eqn:Hc; simpl;
    [split; [rewrite Hc; exact H1 | rewrite Hc; exact H2]|].
  unfold tx_ok, set_transaction. simpl. split.
  - intros j t Hj.
    destruct (Nat.lt_ge_cases j (List.length (transactionStack d))) as [Hlt|Hge].
    + rewrite nth_error_app1 in Hj by assumption.
      destruct (H1 j t Hj) as (Ha & _ & Hcl & Hd).
      split; [exact Ha|]. split; [|split; [|exact Hd]].
      * intros Heq. inversion Heq. lia.
      * intros _. apply Hcl. discriminate.
    + rewrite nth_error_app2 in Hj by assumption.
      destruct (j - List.length (transactionStack d))%nat as [|k] eqn:Hk;
        [|destruct k; discriminate].
      simpl in Hj. inversion Hj; subst t. simpl.
      split; [lia|]. split; [|split].
      * intros _. split; reflexivity.
      * intros Hne. exfalso. apply Hne. f_equal. lia.
      * intros v Hv. discriminate.
  - intros i Hi. inversion Hi. rewrite length_app. simpl. lia.
Qed.

Lemma tx_ok_close d i (f : Transaction -> Transaction) :
  tx_ok d ->
  currentTransaction d = Some i ->
  (forall t, tx_open t -> startVersion t <= version d ->
     (forall v, endVersion t = Some v -> startVersion t <= v <= version d) ->
     tx_closed (f t) /\ startVersion (f t) = startVersion t
     /\ forall v, endVersion (f t) = Some v -> startVersion t <= v <= version d) ->
  tx_ok (set_transaction None (update_nth i f (transactionStack d)) d).
Proof.
  intros [H1 H2] Hc Hf. unfold tx_ok, set_transaction. simpl.
  split; [|intros j Hj; discriminate].
  intros j t Hj. rewrite nth_error_update_nth in Hj.
  destruct (Nat.eqb_spec j i) as [->|Hne].
  - destruct (nth_error (transactionStack d) i) as [t0|] eqn:Ht0;
      [|discriminate].
    simpl in Hj. inversion Hj; subst t.
    destruct (H1 i t0 Ht0) as (Ha & Hopen & _ & Hd0).
    destruct (Hf t0 (Hopen Hc) Ha Hd0) as (Hcl & Hsv & Hev).
    rewrite Hsv. split; [exact Ha|]. split; [discriminate|].
    split; [intros _; exact Hcl | exact Hev].
  - destruct (H1 j t Hj) as (Ha & _ & Hcl & Hd).
    split; [exact Ha|]. split; [discriminate|].
    split; [|exact Hd].
    intros _. apply Hcl. rewrite Hc. congruence.
Qed.

Lemma tx_ok_commitTransaction now : preserves tx_ok (commitTransaction now).
Proof.
  intros d H. unfold commitTransaction, bind, gets, modify, ret, throw. simpl.
  destruct (currentTransaction d) as [i|] eqn:Hc; [|exact H]. simpl.
  apply tx_ok_close; auto.
  intros t [Hca Hrb] Hsv _. simpl. split; [|split; [reflexivity|]].
  - left. split; [discriminate | assumption].
  - intros v Hv. inversion Hv; subst. lia.
Qed.

Lemma tx_ok_rollbackTransaction now : preserves tx_ok (rollbackTransaction now).
Proof.
  intros d H. unfold rollbackTransaction, bind, gets, modify, ret, throw. simpl.
  destruct (currentTransaction d) as [i|] eqn:Hc; [|exact H]. simpl.
  apply tx_ok_close; auto.
  intros t [Hca Hrb] Hsv Hev. simpl. split; [|split; [reflexivity|]].
  - right. split; [assumption | reflexivity].
  - exact Hev.
Qed.

#[local] Hint Resolve tx_ok_incrementVersion tx_ok_beginTransaction
  tx_ok_commitTransaction tx_ok_rollbackTransaction : pres.

Lemma tx_ok_runCall d c : tx_ok d -> tx_ok (runCall d c).
Proof.
  intros H.
  destruct c as [[[]| | | | | | | | | | | | | | | | ]| |];
    cbv beta iota delta [runCall runCmd runPrimitive exec];
    to_preserves tx_ok;
    unfold insertAt, deleteRange, replaceRange, applyDelta,
      handleTextChange, lockRange, unlockRange, fireTimer,
      suggestEdit, acceptSuggestion, rejectSuggestion,
      clearSuggestions, applyQuickCorrection, revertCorrection,
      switchToAlternate, subscribe, unsubscribe, clearOldCorrections;
    unfold insertAt, deleteRange, replaceRange, unlockRange, isRangeLocked,
      logChange, notifySubscribers;
    unfold isRangeLocked, logChange, notifySubscribers;
    pres.
Qed.

Lemma Reached_tx_ok d : Reached d -> tx_ok d.
Proof.
  intros (text & cs & ->).
  assert (H0 : tx_ok (newDoc text)).
  { split; simpl; [intros [|j] t Hj; discriminate | intros i Hi; discriminate]. }
  revert H0. generalize (newDoc text).
  induction cs as [|c cs IH]; intros d H; simpl; [assumption|].
  apply IH, tx_ok_runCall, H.
Qed.

Lemma runPrimitive_tx_frame p now d :
  currentTransaction (snd (runPrimitive p now d)) = currentTransaction d
  /\ transactionStack (snd (runPrimitive p now d)) = transactionStack d.
Proof.
  destruct p; js_unfold; js_cases; auto.
Qed.

Lemma runPrimitives_tx_frame ps : forall d d',
  runPrimitives ps d = Some d' ->
  currentTransaction d' = currentTransaction d
  /\ transactionStack d' = transactionStack d
  /\ version d' = version d + Z.of_nat (List.length ps).
Proof.
  induction ps as [|[p now] rest IH]; intros d d' Hrun.
  - inversion Hrun; subst. simpl. repeat split; lia.
  - cbn [runPrimitives] in Hrun.
    destruct (runPrimitive p now d) as [[e|err] d1] eqn:Hp; [|discriminate].
    destruct (runPrimitive_tx_frame p now d) as [Hc Hs].
    rewrite Hp in Hc, Hs. cbn [snd] in Hc, Hs.
    apply runPrimitive_ok_version in Hp. destruct Hp as [Hv _].
    destruct (IH d1 d' Hrun) as (Hc' & Hs' & Hv').
    rewrite Hc', Hs', Hv', Hc, Hs, Hv.
    cbn [List.length]. rewrite Nat2Z.inj_succ. repeat split; lia.
Qed.

(** X19. The transaction stack of every document reached through the
    public calls: the transaction in progress, if there is one, is the
    last one pushed and is neither committed nor rolled back; every other
    transaction of the stack is committed or rolled back, never both; so
    no two transactions are ever open together.  Start and end versions
    of a transaction are in order and not above the document version. *)
Theorem transaction_stack_invariant d :
  Reached d ->
  (forall i, currentTransaction d = Some i ->
     S i = List.length (transactionStack d)
     /\ exists t, nth_error (transactionStack d) i = Some t /\ tx_open t)
  /\ (forall j t, nth_error (transactionStack d) j = Some t ->
        currentTransaction d <> Some j -> tx_closed t)
  /\ (forall j k t t', nth_error (transactionStack d) j = Some t ->
        nth_error (transactionStack d) k = Some t' ->
        tx_open t -> tx_open t' -> j = k)
  /\ (forall j t, nth_error (transactionStack d) j = Some t ->
        startVersion t <= version d
        /\ forall v, endVersion t = Some v -> startVersion t <= v <= version d).
Proof.
  intros HR. destruct (Reached_tx_ok d HR) as [H1 H2].
  assert (Hopen : forall j t, nth_error (transactionStack d) j = Some t ->
                    tx_open t -> currentTransaction d = Some j).
  { intros j t Hj [Hca Hrb].
    destruct (H1 j t Hj) as (_ & _ & Hcl & _).
    destruct (currentTransaction d) as [i|] eqn:Hc.
    - destruct (Nat.eq_dec i j) as [->|Hne]; [reflexivity|].
      destruct Hcl as [[Hn _]|[_ Hr]]; [congruence|contradiction|congruence].
    - destruct Hcl as [[Hn _]|[_ Hr]]; [discriminate|contradiction|congruence]. }
  split; [|split; [|split]].
  - intros i Hi. split; [apply H2, Hi|].
    pose proof (H2 i Hi) as Hlen.
    destruct (nth_error (transactionStack d) i) as [t|] eqn:Ht.
    + exists t. split; [reflexivity|]. now apply (H1 i t Ht).
    + apply nth_error_None in Ht. lia.
  - intros j t Hj Hne. now apply (H1 j t Hj).
  - intros j k t t' Hj Hk Ho Ho'.
    pose proof (Hopen j t Hj Ho) as E1. pose proof (Hopen k t' Hk Ho') as E2.
    congruence.
  - intros j t Hj. destruct (H1 j t Hj) as (Ha & _ & _ & Hd). now split.
Qed.

Lemma transaction_stack_invariant_witness :
  exists t, nth_error (transactionStack open_transaction) 0 = Some t
         /\ tx_open t.
Proof.
  destruct (transaction_stack_invariant open_transaction
              Reached_open_transaction) as [H _].
  destruct (H 0%nat eq_refl) as [_ Ht]. exact Ht.
Defined.

(** X20. What a commit records.  A transaction begun while none is in
    progress starts at the current version; after [n] primitive calls
    that return, [commitTransaction] returns that transaction with
    [endVersion = startVersion + n], committed at the time of the call and
    not rolled back, closes it, and leaves the buffer, the version and
    the change log as the primitive calls left them. *)
Theorem commit_records_version_span u now0 ps now1 d d1 :
  currentTransaction d = None ->
  runPrimitives ps (exec (beginTransaction u now0) d) = Some d1 ->
  exists t,
    outcome (commitTransaction now1) d1 = Ok (Some t)
    /\ t_userId t = u
    /\ startVersion t = version d
    /\ endVersion t = Some (version d + Z.of_nat (List.length ps))
    /\ committedAt t = Some now1
    /\ rolledBack t = false
    /\ currentTransaction (exec (commitTransaction now1) d1) = None
    /\ quill (exec (commitTransaction now1) d1) = quill d1
    /\ version (exec (commitTransaction now1) d1) = version d1
    /\ changeLog (exec (commitTransaction now1) d1) = changeLog d1.
Proof.
  intros Hnone Hrun.
  destruct (runPrimitives_tx_frame ps _ d1 Hrun) as (Hc & Hs & Hv).
  unfold exec, beginTransaction, bind, gets, modify, ret in Hc, Hs, Hv.
  rewrite Hnone in Hc, Hs, Hv. cbn in Hc, Hs, Hv.
  unfold exec, outcome, commitTransaction, bind, gets, modify, ret.
  rewrite Hc. cbn. rewrite Hs.
  rewrite nth_error_update_nth, Nat.eqb_refl.
  rewrite nth_error_app2 by lia. rewrite Nat.sub_diag. cbn.
  eexists. split; [reflexivity|]. cbn. rewrite Hv.
  repeat split.
Qed.

Lemma commit_records_version_span_witness :
  exists d1 t,
    runPrimitives four_calls (exec (beginTransaction "user1" 0) sample)
    = Some d1
    /\ outcome (commitTransaction 9) d1 = Ok (Some t)
    /\ startVersion t = 0 /\ endVersion t = Some 4.
Proof.
  destruct (runPrimitives four_calls (exec (beginTransaction "user1" 0) sample))
    as [d1|] eqn:E; [|discriminate E].
  destruct (commit_records_version_span "user1" 0 four_calls 9 sample d1
              eq_refl E) as (t & Ho & _ & Hs & He & _).
  exists d1, t. split; [reflexivity|]. split; [exact Ho|].
  split; [exact Hs | exact He].
Defined.

(** ** The text around a position *)




(** ** The director bridge while it is alive *)

Lemma JsMap_has_get {V} k (m : JsMap.t V) :
  JsMap.has k m = true <-> exists v, JsMap.get k m = Some v.
Proof.
  unfold JsMap.has. destruct (JsMap.get k m) as [v|].
  - split; [eauto | reflexivity].
  - split; [discriminate | intros [v Hv]; discriminate].
Qed.

Lemma JsMap_has_set {V} k k0 (v : V) m :
  JsMap.has k0 (JsMap.set k v m) = (k0 =? k) || JsMap.has k0 m.
Proof.
  unfold JsMap.has. destruct (Z.eqb_spec k0 k) as [->|Hne].
  - now rewrite JsMap_get_set_same.
  - now rewrite JsMap_get_set_other.
Qed.

Lemma JsMap_has_delete {V} k k0 (m : JsMap.t V) :
  NoDup (JsMap.keys m) ->
  JsMap.has k0 (JsMap.delete k m) = negb (k0 =? k) && JsMap.has k0 m.
Proof.
  intros Hnd. unfold JsMap.has. destruct (Z.eqb_spec k0 k) as [->|Hne].
  - now rewrite JsMap_get_delete_same.
  - rewrite JsMap_get_delete_other by congruence. reflexivity.
Qed.

Lemma settle_get_same k s ps :
  JsMap.get k ps = Some Bridge.Unsettled ->
  JsMap.get k (Bridge.settle k s ps) = Some s.
Proof.
  intros H. unfold Bridge.settle. rewrite H. apply JsMap_get_set_same.
Qed.

(** Taking a pending request out of the table and settling its promise. *)
Lemma alive_settle b id s :
  alive b ->
  JsMap.has id (Bridge.pendingRequests b) = true ->
  s <> Bridge.Unsettled ->
  alive (Bridge.mkBridge (Bridge.requestCounter b)
           (JsMap.delete id (Bridge.pendingRequests b))
           (Bridge.settle id s (Bridge.promises b))
           (Bridge.posted b) (Bridge.timeouts b) (Bridge.listening b)).
Proof.
  intros (Hl & Hnd & Hkb & Hself & Hiff) Hhas Hs.
  unfold alive. cbn.
  split; [exact Hl|]. split; [now apply NoDup_keys_delete|].
  split; [now apply settle_keys_below|]. split.
  - intros k promise Hk. destruct (Z.eq_dec k id) as [->|Hne].
    + rewrite JsMap_get_delete_same in Hk by assumption. discriminate.
    + rewrite JsMap_get_delete_other in Hk by congruence. now apply Hself.
  - intros k. rewrite JsMap_has_delete by assumption.
    destruct (Z.eqb_spec k id) as [->|Hne]; cbn.
    + rewrite settle_get_same by now apply Hiff.
      split; [discriminate | congruence].
    + rewrite settle_get_other by assumption. apply Hiff.
Qed.

Lemma alive_step b e :
  alive b -> is_destroy e = false -> alive (Bridge.step b e).
Proof.
  intros Ha He. destruct e as [cmd params now|data|n now|];
    [| | |discriminate]; cbn [Bridge.step].
  - destruct Ha as (Hl & Hnd & Hkb & Hself & Hiff).
    unfold alive, Bridge.run. cbn.
    split; [exact Hl|]. split; [now apply NoDup_keys_set|].
    split; [eapply keys_below_set; eauto; lia|]. split.
    + intros k promise Hk.
      destruct (Z.eq_dec k (Bridge.requestCounter b + 1)) as [->|Hne].
      * rewrite JsMap_get_set_same in Hk. congruence.
      * rewrite JsMap_get_set_other in Hk by assumption. now apply Hself.
    + intros k. rewrite JsMap_has_set.
      destruct (Z.eqb_spec k (Bridge.requestCounter b + 1)) as [->|Hne]; cbn.
      * rewrite JsMap_get_set_same. tauto.
      * rewrite JsMap_get_set_other by assumption. apply Hiff.
  - pose proof Ha as (Hl & _ & _ & Hself & _).
    unfold Bridge.deliver, Bridge.handleControlResponse. rewrite Hl.
    destruct (JsMap.get (Bridge.rs_requestId data) (Bridge.pendingRequests b))
      as [promise|] eqn:Hg; [|exact Ha].
    rewrite (Hself _ _ Hg).
    assert (Hhas : JsMap.has (Bridge.rs_requestId data)
                     (Bridge.pendingRequests b) = true)
      by (apply JsMap_has_get; eauto).
    assert (Hs : (if Bridge.rs_success data
                  then Bridge.Resolved (Bridge.rs_result data)
                  else Bridge.Rejected
                         (Bridge.errorOr (Bridge.rs_error data) "Unknown error"))
                 <> Bridge.Unsettled)
      by (destruct (Bridge.rs_success data); discriminate).
    pose proof (alive_settle b _ _ Ha Hhas Hs) as H.
    rewrite Hl in H. exact H.
  - unfold Bridge.fireTimeout.
    destruct (nth_error (Bridge.timeouts b) n) as [tm|]; [|exact Ha].
    destruct (Bridge.to_due tm <=? now); [|exact Ha].
    unfold Bridge.onTimeout. cbn.
    destruct (JsMap.has (Bridge.to_requestId tm) (Bridge.pendingRequests b))
      eqn:Hhas.
    + apply (alive_settle
               (Bridge.mkBridge (Bridge.requestCounter b)
                  (Bridge.pendingRequests b) (Bridge.promises b)
                  (Bridge.posted b)
                  (firstn n (Bridge.timeouts b)
                   ++ skipn (S n) (Bridge.timeouts b))
                  (Bridge.listening b))); [exact Ha | exact Hhas | discriminate].
    + exact Ha.
Qed.


Lemma alive_create : alive Bridge.create.
Proof.
  unfold alive. cbn. split; [reflexivity|]. split; [constructor|].
  split; [intros k []|]. split; [discriminate|].
  intros id. split; discriminate.
Qed.

(** Taking a request out of the table and settling its promise, on a
    bridge where posts may have failed. *)
Lemma live_ok_settle b id s :
  live_ok b ->
  s <> Bridge.Unsettled ->
  live_ok (Bridge.mkBridge (Bridge.requestCounter b)
             (JsMap.delete id (Bridge.pendingRequests b))
             (Bridge.settle id s (Bridge.promises b))
             (Bridge.posted b) (Bridge.timeouts b) (Bridge.listening b)).
Proof.
  intros (Hl & Hnd & Hkb & Hself & Hun) Hs.
  unfold live_ok.
  cbn [Bridge.listening Bridge.pendingRequests Bridge.promises
       Bridge.requestCounter].
  split; [exact Hl|]. split; [now apply NoDup_keys_delete|].
  split; [now apply settle_keys_below|]. split.
  - intros k promise Hk. destruct (Z.eq_dec k id) as [->|Hne].
    + rewrite JsMap_get_delete_same in Hk by assumption. discriminate.
    + rewrite JsMap_get_delete_other in Hk by congruence. now apply Hself.
  - intros k Hk. rewrite JsMap_has_delete by assumption.
    destruct (Z.eqb_spec k id) as [->|Hne]; cbn.
    + exfalso. revert Hk. unfold Bridge.settle.
      destruct (JsMap.get id (Bridge.promises b)) as [[]|] eqn:E;
        rewrite ?JsMap_get_set_same, ?E; congruence.
    + rewrite settle_get_other in Hk by assumption. now apply Hun.
Qed.

Lemma live_ok_step b e : live_ok b -> live_ok (live_step b e).
Proof.
  intros Ha. destruct e as [cmd params now|cmd params message|data|n now];
    cbn [live_step].
  - destruct Ha as (Hl & Hnd & Hkb & Hself & Hun).
    unfold live_ok, Bridge.run.
    cbn [snd Bridge.listening Bridge.pendingRequests Bridge.promises
         Bridge.requestCounter].
    split; [exact Hl|]. split; [now apply NoDup_keys_set|].
    split; [eapply keys_below_set; eauto; lia|]. split.
    + intros k promise Hk.
      destruct (Z.eq_dec k (Bridge.requestCounter b + 1)) as [->|Hne].
      * rewrite JsMap_get_set_same in Hk. congruence.
      * rewrite JsMap_get_set_other in Hk by assumption. now apply Hself.
    + intros k Hk. rewrite JsMap_has_set.
      destruct (Z.eqb_spec k (Bridge.requestCounter b + 1)) as [->|Hne];
        [reflexivity|].
      rewrite JsMap_get_set_other in Hk by assumption. now apply Hun.
  - destruct Ha as (Hl & Hnd & Hkb & Hself & Hun).
    unfold live_ok, run_post_throws.
    cbn [snd Bridge.listening Bridge.pendingRequests Bridge.promises
         Bridge.requestCounter].
    split; [exact Hl|]. split; [now apply NoDup_keys_set|].
    split; [eapply keys_below_set; eauto; lia|]. split.
    + intros k promise Hk.
      destruct (Z.eq_dec k (Bridge.requestCounter b + 1)) as [->|Hne].
      * rewrite JsMap_get_set_same in Hk. congruence.
      * rewrite JsMap_get_set_other in Hk by assumption. now apply Hself.
    + intros k Hk. rewrite JsMap_has_set.
      destruct (Z.eqb_spec k (Bridge.requestCounter b + 1)) as [->|Hne];
        [reflexivity|].
      rewrite JsMap_get_set_other in Hk by assumption. now apply Hun.
  - pose proof Ha as (Hl & _ & _ & Hself & _).
    unfold Bridge.deliver, Bridge.handleControlResponse. rewrite Hl.
    destruct (JsMap.get (Bridge.rs_requestId data) (Bridge.pendingRequests b))
      as [promise|] eqn:Hg; [|exact Ha].
    rewrite (Hself _ _ Hg).
    assert (Hs : (if Bridge.rs_success data
                  then Bridge.Resolved (Bridge.rs_result data)
                  else Bridge.Rejected
                         (Bridge.errorOr (Bridge.rs_error data) "Unknown error"))
                 <> Bridge.Unsettled)
      by (destruct (Bridge.rs_success data); discriminate).
    pose proof (live_ok_settle b (Bridge.rs_requestId data) _ Ha Hs) as H.
    rewrite Hl in H. exact H.
  - unfold Bridge.fireTimeout.
    destruct (nth_error (Bridge.timeouts b) n) as [tm|]; [|exact Ha].
    destruct (Bridge.to_due tm <=? now); [|exact Ha].
    unfold Bridge.onTimeout. cbn.
    destruct (JsMap.has (Bridge.to_requestId tm) (Bridge.pendingRequests b));
      [|exact Ha].
    apply (live_ok_settle
             (Bridge.mkBridge (Bridge.requestCounter b)
                (Bridge.pendingRequests b) (Bridge.promises b)
                (Bridge.posted b)
                (firstn n (Bridge.timeouts b)
                 ++ skipn (S n) (Bridge.timeouts b))
                (Bridge.listening b))); [exact Ha | discriminate].
Qed.

Lemma live_ok_steps es : forall b, live_ok b -> live_ok (live_steps b es).
Proof.
  induction es as [|e es IH]; intros b Ha; [exact Ha|].
  apply (IH (live_step b e)), live_ok_step, Ha.
Qed.

Lemma live_ok_create : live_ok Bridge.create.
Proof.
  unfold live_ok. cbn. split; [reflexivity|]. split; [constructor|].
  split; [intros k []|]. split; discriminate.
Qed.

(** While every post returns, the table and the unsettled promises stay
    in step. *)
Lemma alive_live_step b e :
  alive b -> post_returned e = true -> alive (live_step b e).
Proof.
  intros Ha He. destruct e as [cmd params now|cmd params message|data|n now];
    [ exact (alive_step b (Bridge.EvRun cmd params now) Ha eq_refl)
    | discriminate He
    | exact (alive_step b (Bridge.EvMessage data) Ha eq_refl)
    | exact (alive_step b (Bridge.EvTimer n now) Ha eq_refl) ].
Qed.

Lemma alive_live_steps es : forall b,
  alive b -> forallb post_returned es = true -> alive (live_steps b es).
Proof.
  induction es as [|e es IH]; intros b Ha Hes; [exact Ha|].
  cbn in Hes. apply andb_true_iff in Hes. destruct Hes as [He Hes].
  apply (IH (live_step b e)); [now apply alive_live_step | exact Hes].
Qed.

(** X22. As long as the director bridge has not been destroyed, whatever
    requests, responses and timeouts it has seen, and whether or not
    [postMessage] threw in some of its [run] calls, every request whose
    promise is still unsettled has its entry in the table of pending
    requests, so a response or the timeout can still settle it.  When
    [postMessage] returned in every [run], the table holds nothing else:
    a request is in the table exactly when its promise is unsettled. *)
Theorem unsettled_requests_are_pending es id :
  let b := live_steps Bridge.create es in
  (JsMap.get id (Bridge.promises b) = Some Bridge.Unsettled ->
   JsMap.has id (Bridge.pendingRequests b) = true)
  /\ (forallb post_returned es = true ->
      (JsMap.has id (Bridge.pendingRequests b) = true
       <-> JsMap.get id (Bridge.promises b) = Some Bridge.Unsettled)).
Proof.
  intros b. split.
  - destruct (live_ok_steps es Bridge.create live_ok_create)
      as (_ & _ & _ & _ & Hun).
    apply Hun.
  - intros Hes.
    destruct (alive_live_steps es Bridge.create alive_create Hes)
      as (_ & _ & _ & _ & Hiff).
    apply Hiff.
Qed.

Lemma unsettled_requests_are_pending_witness :
  JsMap.has 3 (Bridge.pendingRequests (live_steps Bridge.create failed_post))
  = true.
Proof.
  destruct (unsettled_requests_are_pending failed_post 3) as [H _].
  apply H. reflexivity.
Defined.





(** ** Cursors, selections and presence *)

Lemma UserMap_get_set_same {V} k (v : V) m :
  UserMap.get k (UserMap.set k v m) = Some v.
Proof.
  induction m as [|[k' v'] m IH]; cbn.
  - now rewrite String.eqb_refl.
  - destruct (String.eqb k' k) eqn:E; cbn; rewrite ?E, ?String.eqb_refl; auto.
Qed.

Lemma UserMap_get_set_other {V} k k0 (v : V) m :
  k0 <> k -> UserMap.get k0 (UserMap.set k v m) = UserMap.get k0 m.
Proof.
  intros Hne. induction m as [|[k' v'] m IH]; cbn.
  - destruct (String.eqb_spec k k0); [congruence | reflexivity].
  - destruct (String.eqb_spec k' k) as [->|Hk]; cbn.
    + destruct (String.eqb_spec k k0); [congruence | reflexivity].
    + destruct (String.eqb k' k0); auto.
Qed.

Lemma UserMap_get_delete_other {V} k k0 (m : UserMap.t V) :
  k0 <> k -> UserMap.get k0 (UserMap.delete k m) = UserMap.get k0 m.
Proof.
  intros Hne. induction m as [|[k' v'] m IH]; cbn; [reflexivity|].
  destruct (String.eqb_spec k' k) as [->|Hk]; cbn.
  - destruct (String.eqb_spec k k0); [congruence | reflexivity].
  - destruct (String.eqb k' k0); auto.
Qed.

Lemma UserMap_get_None {V} k (m : UserMap.t V) :
  ~ In k (UserMap.keys m) -> UserMap.get k m = None.
Proof.
  induction m as [|[k' v'] m IH]; cbn; [reflexivity|]. intros Hn.
  destruct (String.eqb_spec k' k) as [->|Hk]; [tauto | apply IH; tauto].
Qed.

Lemma UserMap_keys_set {V} k (v : V) m k0 :
  In k0 (UserMap.keys (UserMap.set k v m)) -> k0 = k \/ In k0 (UserMap.keys m).
Proof.
  induction m as [|[k' v'] m IH]; cbn.
  - intros [H|[]]; auto.
  - destruct (String.eqb_spec k' k) as [->|Hk]; cbn; intros [H|H]; auto.
    destruct (IH H); auto.
Qed.

Lemma UserMap_keys_delete {V} k (m : UserMap.t V) k0 :
  In k0 (UserMap.keys (UserMap.delete k m)) -> In k0 (UserMap.keys m).
Proof.
  induction m as [|[k' v'] m IH]; cbn; [tauto|].
  destruct (String.eqb k' k); cbn; intros H; [auto|]. destruct H; auto.
Qed.

Lemma UserMap_NoDup_set {V} k (v : V) m :
  NoDup (UserMap.keys m) -> NoDup (UserMap.keys (UserMap.set k v m)).
Proof.
  induction m as [|[k' v'] m IH]; cbn; intros H.
  - constructor; [intros [] | constructor].
  - inversion H as [|? ? Hn Hnd]; subst.
    destruct (String.eqb_spec k' k) as [->|Hk]; cbn.
    + constructor; assumption.
    + constructor; [|auto]. intros Hin.
      apply UserMap_keys_set in Hin. destruct Hin; [congruence | contradiction].
Qed.

Lemma UserMap_NoDup_delete {V} k (m : UserMap.t V) :
  NoDup (UserMap.keys m) -> NoDup (UserMap.keys (UserMap.delete k m)).
Proof.
  induction m as [|[k' v'] m IH]; cbn; intros H; [constructor|].
  inversion H as [|? ? Hn Hnd]; subst.
  destruct (String.eqb k' k); cbn; [assumption|].
  constructor; [|auto]. intros Hin. apply Hn.
  eapply UserMap_keys_delete; eauto.
Qed.

Lemma UserMap_delete_absent {V} k (m : UserMap.t V) :
  NoDup (UserMap.keys m) -> ~ In k (UserMap.keys (UserMap.delete k m)).
Proof.
  induction m as [|[k' v'] m IH]; cbn; intros H; [tauto|].
  inversion H as [|? ? Hn Hnd]; subst.
  destruct (String.eqb_spec k' k) as [->|Hk]; cbn; [assumption|].
  intros [E|Hin]; [congruence | now apply IH].
Qed.

Lemma presence_wf_step p e : Presence.wf p -> Presence.wf (Presence.step p e).
Proof.
  intros (Hc & Hs & Ha).
  destruct e as [u i now|u i l now|[r|] [|] now|u n ty now|u now|u];
    unfold Presence.wf; cbn;
    unfold Presence.updatePresence;
    try destruct (UserMap.get u (Presence.activeUsers p)); cbn;
    (split; [|split]);
    first [ assumption
          | apply UserMap_NoDup_set; assumption
          | apply UserMap_NoDup_delete; assumption ].
Qed.

Lemma presence_wf_steps es : forall p,
  Presence.wf p -> Presence.wf (Presence.steps p es).
Proof.
  induction es as [|e es IH]; intros p H; [exact H|].
  apply (IH (Presence.step p e)), presence_wf_step, H.
Qed.

Lemma presence_wf_create : Presence.wf Presence.create.
Proof. repeat split; constructor. Qed.

(** One event other than the removal of [u] keeps the time [u] joined. *)
Lemma joinedAt_step p e u usr :
  UserMap.get u (Presence.activeUsers p) = Some usr ->
  Presence.removes u e = false ->
  exists usr',
    UserMap.get u (Presence.activeUsers (Presence.step p e)) = Some usr'
    /\ Presence.joinedAt usr' = Presence.joinedAt usr.
Proof.
  intros Hg He.
  destruct e as [v i now|v i l now|[r|] [|] now|v n ty now|v now|v]; cbn;
    try (exists usr; split; [exact Hg | reflexivity]).
  - destruct (String.eqb_spec v u) as [->|Hne].
    + rewrite Hg, UserMap_get_set_same. eexists. split; reflexivity.
    + rewrite UserMap_get_set_other by congruence.
      exists usr. split; [exact Hg | reflexivity].
  - unfold Presence.updatePresence.
    destruct (String.eqb_spec v u) as [->|Hne].
    + rewrite Hg. cbn. rewrite UserMap_get_set_same.
      eexists. split; reflexivity.
    + destruct (UserMap.get v (Presence.activeUsers p)); cbn;
        rewrite ?UserMap_get_set_other by congruence;
        exists usr; (split; [exact Hg | reflexivity]).
  - cbn in He. rewrite UserMap_get_delete_other;
      [exists usr; split; [exact Hg | reflexivity]|].
    intros ->. rewrite String.eqb_refl in He. discriminate.
Qed.

(** X24. [announcePresence] keeps the time a user joined: after a user's
    first announcement at time [t0], whatever cursor, selection and
    presence calls follow (re-announcements of the same user under
    another name or type included), the user's [joinedAt] is [t0] as long
    as the user is not removed. *)
Theorem joinedAt_is_the_first_announcement p u userName userType t0 es :
  UserMap.has u (Presence.activeUsers p) = false ->
  forallb (fun e => negb (Presence.removes u e)) es = true ->
  exists usr,
    UserMap.get u
      (Presence.activeUsers
         (Presence.steps
            (snd (Presence.announcePresence u userName userType t0 p)) es))
    = Some usr
    /\ Presence.joinedAt usr = t0.
Proof.
  intros Hnew Hes.
  assert (H0 : exists usr,
             UserMap.get u
               (Presence.activeUsers
                  (snd (Presence.announcePresence u userName userType t0 p)))
             = Some usr /\ Presence.joinedAt usr = t0).
  { cbn. rewrite UserMap_get_set_same. eexists. split; [reflexivity|].
    unfold UserMap.has in Hnew.
    destruct (UserMap.get u (Presence.activeUsers p)); [discriminate|].
    reflexivity. }
  revert H0.
  generalize (snd (Presence.announcePresence u userName userType t0 p)).
  induction es as [|e es IH]; intros q H0; [exact H0|].
  cbn in Hes. apply andb_true_iff in Hes. destruct Hes as [He Hes].
  apply negb_true_iff in He.
  destruct H0 as (usr & Hg & Hj).
  destruct (joinedAt_step q e u usr Hg He) as (usr' & Hg' & Hj').
  apply (IH Hes (Presence.step q e)).
  exists usr'. split; [exact Hg' | congruence].
Qed.

Lemma joinedAt_is_the_first_announcement_witness :
  exists usr,
    UserMap.get "llm"
      (Presence.activeUsers
         (Presence.steps
            (snd (Presence.announcePresence "llm" "Assistant" "llm" 10
                    Presence.create))
            [Presence.Announce "llm" "Helper" "llm" 70]))
    = Some usr
    /\ Presence.joinedAt usr = 10.
Proof.
  apply (joinedAt_is_the_first_announcement Presence.create "llm"
           "Assistant" "llm" 10 [Presence.Announce "llm" "Helper" "llm" 70]);
    reflexivity.
Defined.

(** X25. [removePresence] forgets the user and nobody else: in any state
    of the three tables reached from the constructor, after
    [removePresence(u)] the user has no cursor and no selection and is not
    among the active users, whatever the threshold, while the cursor, the
    selection and the presence record of every other user are as
    before. *)
Theorem removePresence_forgets_only_that_user es u :
  let p := Presence.steps Presence.create es in
  let p' := Presence.removePresence u p in
  Presence.getCursor u p' = None
  /\ Presence.getSelection u p' = None
  /\ (forall threshold now,
        ~ In u (map fst (Presence.getActiveUsers threshold now p')))
  /\ (forall v, v <> u ->
        Presence.getCursor v p' = Presence.getCursor v p
        /\ Presence.getSelection v p' = Presence.getSelection v p
        /\ UserMap.get v (Presence.activeUsers p')
           = UserMap.get v (Presence.activeUsers p)).
Proof.
  intros p p'.
  destruct (presence_wf_steps es _ presence_wf_create) as (Hc & Hs & Ha).
  fold p in Hc, Hs, Ha.
  assert (Hcu : Presence.getCursor u p' = None).
  { apply UserMap_get_None, UserMap_delete_absent, Hc. }
  split; [exact Hcu|]. split; [|split].
  - unfold Presence.getSelection. rewrite Hcu.
    replace (UserMap.get u (Presence.selections p')) with (@None Presence.Cursor);
      [reflexivity|].
    symmetry. apply UserMap_get_None, UserMap_delete_absent, Hs.
  - intros threshold now Hin.
    apply (UserMap_delete_absent u (Presence.activeUsers p) Ha).
    unfold Presence.getActiveUsers in Hin.
    apply in_map_iff in Hin. destruct Hin as ([k usr] & Hk & Hin).
    apply filter_In in Hin. destruct Hin as [Hin _].
    cbn in Hk. subst k. apply in_map_iff. exists (u, usr). split; auto.
  - intros v Hne. unfold Presence.getSelection, Presence.getCursor. cbn.
    rewrite !UserMap_get_delete_other by assumption. auto.
Qed.

(** X26. A selection outlives later cursor moves.  [setSelection] puts
    the cursor at the start of the selection; a later [setCursor] moves
    the cursor only, and [getSelection] keeps answering with the old
    selection, not with the cursor. *)
Theorem selection_outlives_cursor_moves p u index len now index' now' :
  let p1 := Presence.setSelection u index len now p in
  let p2 := Presence.setCursor u index' now' p1 in
  Presence.getCursor u p1 = Some (Presence.mkCursor index 0 now)
  /\ Presence.getSelection u p1 = Some (Presence.mkCursor index len now)
  /\ Presence.getCursor u p2 = Some (Presence.mkCursor index' 0 now')
  /\ Presence.getSelection u p2 = Some (Presence.mkCursor index len now).
Proof.
  unfold Presence.getSelection, Presence.getCursor. cbn.
  rewrite !UserMap_get_set_same. repeat split.
Qed.

(** ** Annotations *)

Lemma keys_above_fresh {V} (m : JsMap.t V) c k :
  keys_below m c -> c < k -> ~ In k (JsMap.keys m).
Proof. intros H Hlt Hin. apply H in Hin. lia. Qed.

Lemma StronglySorted_keys_snoc {V} (m : JsMap.t V) c k (v : V) :
  keys_below m c -> c < k ->
  StronglySorted Z.lt (JsMap.keys m) ->
  StronglySorted Z.lt (JsMap.keys (m ++ [(k, v)])).
Proof.
  intros Hb Hlt. unfold JsMap.keys in *.
  induction m as [|[k' v'] m IH]; cbn; intros Hs.
  - constructor; constructor.
  - inversion Hs as [|? ? Hs' Hf]; subst. constructor.
    + apply IH; [|exact Hs']. intros x Hx. apply Hb. now right.
    + rewrite map_app. apply Forall_app. split; [exact Hf|].
      constructor; [|constructor]. cbn.
      assert (k' <= c) by (apply Hb; now left). lia.
Qed.

Lemma StronglySorted_keys_delete {V} k (m : JsMap.t V) :
  StronglySorted Z.lt (JsMap.keys m) ->
  StronglySorted Z.lt (JsMap.keys (JsMap.delete k m)).
Proof.
  unfold JsMap.keys. induction m as [|[k' v'] m IH]; cbn; intros Hs;
    [constructor|].
  inversion Hs as [|? ? Hs' Hf]; subst.
  destruct (k' =? k); [exact Hs'|]. cbn. constructor; [auto|].
  rewrite Forall_forall in *. intros x Hx. apply Hf.
  apply (JsMap_keys_delete k m x Hx).
Qed.

Lemma JsMap_In_delete_incl {V} k (m : JsMap.t V) kv :
  In kv (JsMap.delete k m) -> In kv m.
Proof.
  induction m as [|[k' v'] m IH]; cbn; [tauto|].
  destruct (k' =? k); cbn; intros H; [auto|]. destruct H; auto.
Qed.

Lemma annotations_wf_step a e :
  Annotations.wf a -> Annotations.wf (Annotations.step a e).
Proof.
  intros (Hb & Hs & Hid).
  destruct e as [u i l text ty now|k]; unfold Annotations.wf; cbn.
  - assert (Hfresh : ~ In (Annotations.annotationCounter a + 1)
                       (JsMap.keys (Annotations.annotations a)))
      by (eapply keys_above_fresh; eauto; lia).
    rewrite JsMap_set_fresh by exact Hfresh.
    split; [|split].
    + intros x Hx. unfold JsMap.keys in Hx. rewrite map_app in Hx.
      apply in_app_iff in Hx. destruct Hx as [Hx|[<-|[]]]; [|cbn; lia].
      apply Hb in Hx. lia.
    + eapply StronglySorted_keys_snoc; eauto. lia.
    + intros x an Hin. apply in_app_iff in Hin.
      destruct Hin as [Hin|[E|[]]]; [now apply Hid|].
      inversion E; subst. reflexivity.
  - split; [|split].
    + now apply keys_below_delete.
    + now apply StronglySorted_keys_delete.
    + intros x an Hin. apply Hid. eapply JsMap_In_delete_incl; eauto.
Qed.

Lemma annotations_wf_steps es : forall a,
  Annotations.wf a -> Annotations.wf (Annotations.steps a es).
Proof.
  induction es as [|e es IH]; intros a H; [exact H|].
  apply (IH (Annotations.step a e)), annotations_wf_step, H.
Qed.

Lemma annotations_wf_create : Annotations.wf Annotations.create.
Proof.
  split; [intros k []|]. split; [constructor | intros k an []].
Qed.



(** X29. Filtering annotations by type.  A new annotation of a non-empty
    type is appended to the list of its type and leaves the list of every
    other non-empty type alone; but an empty filter string counts as no
    filter: [getAnnotations('')] returns every annotation, whatever its
    type. *)
Theorem getAnnotations_by_type es u index len text type now other :
  type <> EmptyString -> other <> EmptyString -> other <> type ->
  let a := Annotations.steps Annotations.create es in
  let r := Annotations.annotate u index len text type now a in
  Annotations.getAnnotations (Some type) (snd r)
  = Annotations.getAnnotations (Some type) a ++ [fst r]
  /\ Annotations.getAnnotations (Some other) (snd r)
     = Annotations.getAnnotations (Some other) a
  /\ Annotations.getAnnotations (Some EmptyString) (snd r)
     = Annotations.getAnnotations None a ++ [fst r].
Proof.
  intros Hty Hother Hne a r.
  destruct (annotations_wf_steps es _ annotations_wf_create) as (Hb & Hs & Hid).
  fold a in Hb, Hs, Hid.
  assert (Hfresh : ~ In (Annotations.annotationCounter a + 1)
                     (JsMap.keys (Annotations.annotations a)))
    by (eapply keys_above_fresh; eauto; lia).
  assert (Hv : JsMap.values (Annotations.annotations (snd r))
               = JsMap.values (Annotations.annotations a) ++ [fst r]).
  { cbn. rewrite JsMap_set_fresh by exact Hfresh.
    unfold JsMap.values. now rewrite map_app. }
  assert (Hf : forall ty b, ty <> EmptyString ->
                 Annotations.getAnnotations (Some ty) b
                 = filter (fun an => String.eqb (Annotations.a_type an) ty)
                          (JsMap.values (Annotations.annotations b))).
  { intros [|c ty] b Hc; [congruence | reflexivity]. }
  split; [|split].
  - rewrite !Hf, Hv, filter_app by assumption.
    cbn [filter fst r Annotations.annotate Annotations.a_type].
    now rewrite String.eqb_refl.
  - rewrite !Hf, Hv, filter_app by assumption.
    cbn [filter fst r Annotations.annotate Annotations.a_type].
    destruct (String.eqb_spec type other) as [E|E]; [congruence|].
    now rewrite app_nil_r.
  - exact Hv.
Qed.

Lemma getAnnotations_by_type_witness :
  let a := Annotations.steps Annotations.create three_annotations in
  let r := Annotations.annotate "user1" 3 2 "typo" "comment" 4 a in
  map Annotations.annotationId
    (Annotations.getAnnotations (Some "comment"%string) (snd r))
  = [1; 3; 4]
  /\ Annotations.getAnnotations (Some "style"%string) (snd r) = [].
Proof.
  destruct (getAnnotations_by_type three_annotations "user1" 3 2 "typo"
              "comment" 4 "style") as (H1 & H2 & _);
    [discriminate | discriminate | discriminate |].
  split; [rewrite H1 | rewrite H2]; reflexivity.
Defined.

(** ** The streaming director bridge *)

Lemma JsMap_In_keys_get {V} k (m : JsMap.t V) :
  In k (JsMap.keys m) <-> exists v, JsMap.get k m = Some v.
Proof.
  split.
  - induction m as [|[k' v'] m IH]; cbn; [tauto|].
    destruct (Z.eqb_spec k' k) as [->|Hne]; [eauto|].
    intros [E|Hin]; [contradiction | auto].
  - intros [v Hv]. eapply JsMap_get_In; eauto.
Qed.

Lemma JsMap_keys_delete_iff {V} k k0 (m : JsMap.t V) :
  NoDup (JsMap.keys m) ->
  In k0 (JsMap.keys (JsMap.delete k m)) <-> k0 <> k /\ In k0 (JsMap.keys m).
Proof.
  intros Hnd. rewrite !JsMap_In_keys_get.
  destruct (Z.eq_dec k0 k) as [->|Hne].
  - rewrite JsMap_get_delete_same by assumption.
    split; [intros [v Hv]; discriminate | tauto].
  - rewrite JsMap_get_delete_other by congruence. tauto.
Qed.

Lemma sd_settle_get_same k s ps :
  JsMap.get k ps = Some StreamDirector.Unsettled ->
  JsMap.get k (StreamDirector.settle k s ps) = Some s.
Proof.
  intros H. unfold StreamDirector.settle. rewrite H. apply JsMap_get_set_same.
Qed.

Lemma sd_settle_get_other k id s ps :
  id <> k -> JsMap.get id (StreamDirector.settle k s ps) = JsMap.get id ps.
Proof.
  intros Hne. unfold StreamDirector.settle.
  destruct (JsMap.get k ps) as [[]|]; try reflexivity.
  now apply JsMap_get_set_other.
Qed.

Lemma sd_settle_keys_below k s ps c :
  keys_below ps c -> keys_below (StreamDirector.settle k s ps) c.
Proof.
  intros H. unfold StreamDirector.settle.
  destruct (JsMap.get k ps) as [[]|] eqn:E; try assumption.
  eapply keys_below_set; eauto; try lia. eapply keys_below_present; eauto.
Qed.

(** Taking a request out of the table and settling its promise. *)
Lemma sd_wf_settle b id s sid tms :
  StreamDirector.wf b ->
  In id (JsMap.keys (StreamDirector.pendingRequests b)) ->
  s <> StreamDirector.Unsettled ->
  StreamDirector.wf
    (StreamDirector.mkBridge (StreamDirector.requestIdCounter b)
       (JsMap.delete id (StreamDirector.pendingRequests b))
       (StreamDirector.settle id s (StreamDirector.promises b)) sid tms).
Proof.
  intros (Hnd & Hkb & Hself & Hiff) Hin Hs.
  unfold StreamDirector.wf.
  cbn [StreamDirector.pendingRequests StreamDirector.promises
       StreamDirector.requestIdCounter].
  split; [now apply NoDup_keys_delete|].
  split; [now apply sd_settle_keys_below|]. split.
  - intros k promise Hk. destruct (Z.eq_dec k id) as [->|Hne].
    + rewrite JsMap_get_delete_same in Hk by assumption. discriminate.
    + rewrite JsMap_get_delete_other in Hk by congruence. now apply Hself.
  - intros k. rewrite JsMap_keys_delete_iff by assumption.
    destruct (Z.eq_dec k id) as [->|Hne].
    + rewrite sd_settle_get_same by now apply Hiff.
      split; [tauto | congruence].
    + rewrite sd_settle_get_other by assumption.
      rewrite <- Hiff. tauto.
Qed.

Lemma sd_wf_request delay message now b :
  StreamDirector.wf b ->
  StreamDirector.wf (snd (StreamDirector.request delay message now b)).
Proof.
  intros (Hnd & Hkb & Hself & Hiff).
  unfold StreamDirector.wf, StreamDirector.request.
  cbn [snd StreamDirector.pendingRequests StreamDirector.promises
       StreamDirector.requestIdCounter].
  split; [now apply NoDup_keys_set|].
  split; [eapply keys_below_set; eauto; lia|]. split.
  - intros k promise Hk.
    destruct (Z.eq_dec k (StreamDirector.requestIdCounter b + 1)) as [->|Hne].
    + rewrite JsMap_get_set_same in Hk. congruence.
    + rewrite JsMap_get_set_other in Hk by assumption. now apply Hself.
  - intros k. rewrite JsMap_In_keys_get.
    destruct (Z.eq_dec k (StreamDirector.requestIdCounter b + 1)) as [->|Hne].
    + rewrite !JsMap_get_set_same. split; eauto.
    + rewrite !JsMap_get_set_other by assumption.
      rewrite <- JsMap_In_keys_get. apply Hiff.
Qed.

(** The loop of the [woolf-stream-registered] branch, run over the whole
    table. *)
Lemma resolve_entries_spec sid : forall entries b,
  StreamDirector.wf b ->
  StreamDirector.pendingRequests b = entries ->
  let b' := StreamDirector.resolve_entries entries sid b in
  StreamDirector.wf b'
  /\ StreamDirector.pendingRequests b' = JsMap.empty
  /\ StreamDirector.streamId b' = StreamDirector.streamId b
  /\ StreamDirector.requestIdCounter b' = StreamDirector.requestIdCounter b
  /\ StreamDirector.timeouts b' = StreamDirector.timeouts b
  /\ forall id,
       (In id (JsMap.keys entries) ->
        JsMap.get id (StreamDirector.promises b')
        = Some (StreamDirector.Resolved (StreamDirector.StreamId sid)))
       /\ (~ In id (JsMap.keys entries) ->
           JsMap.get id (StreamDirector.promises b')
           = JsMap.get id (StreamDirector.promises b)).
Proof.
  induction entries as [|[k p] rest IH]; intros b Hwf He.
  - cbn. split; [exact Hwf|]. split; [exact He|].
    repeat (split; [reflexivity|]). intros id. split; [intros [] | reflexivity].
  - pose proof Hwf as (Hnd & Hkb & Hself & Hiff).
    assert (Hp : p = k).
    { apply Hself. rewrite He. cbn. now rewrite Z.eqb_refl. }
    subst p.
    assert (Hk : In k (JsMap.keys (StreamDirector.pendingRequests b)))
      by (rewrite He; now left).
    assert (Hun : JsMap.get k (StreamDirector.promises b)
                  = Some StreamDirector.Unsettled) by now apply Hiff.
    assert (Hrest : ~ In k (JsMap.keys rest)).
    { rewrite He in Hnd. cbn in Hnd. now inversion Hnd. }
    set (b1 := StreamDirector.mkBridge (StreamDirector.requestIdCounter b)
                 (JsMap.delete k (StreamDirector.pendingRequests b))
                 (StreamDirector.settle k
                    (StreamDirector.Resolved (StreamDirector.StreamId sid))
                    (StreamDirector.promises b))
                 (StreamDirector.streamId b) (StreamDirector.timeouts b)).
    assert (Hwf1 : StreamDirector.wf b1)
      by (apply sd_wf_settle; [exact Hwf | exact Hk | discriminate]).
    assert (He1 : StreamDirector.pendingRequests b1 = rest).
    { unfold b1. cbn. rewrite He. cbn. now rewrite Z.eqb_refl. }
    destruct (IH b1 Hwf1 He1) as (Hw & Hpe & Hsi & Hco & Hti & Hpr).
    change (StreamDirector.resolve_entries ((k, k) :: rest) sid b)
      with (StreamDirector.resolve_entries rest sid b1).
    cbv zeta. split; [exact Hw|]. split; [exact Hpe|].
    split; [exact Hsi|]. split; [exact Hco|]. split; [exact Hti|].
    intros id. split.
    + intros [E|Hin].
      * cbn in E. subst id. rewrite (proj2 (Hpr k) Hrest).
        unfold b1. cbn. now apply sd_settle_get_same.
      * now apply Hpr.
    + intros Hn. cbn in Hn.
      rewrite (proj2 (Hpr id)) by tauto.
      unfold b1. cbn. apply sd_settle_get_other.
      intros ->. apply Hn. now left.
Qed.

Lemma sd_wf_step b e : StreamDirector.wf b -> StreamDirector.wf (StreamDirector.step b e).
Proof.
  intros Hwf. destruct e as [now|cmd params now| |[sid| |rid ok res err]|n now];
    cbn [StreamDirector.step StreamDirector.handleMessage].
  - now apply sd_wf_request.
  - now apply sd_wf_request.
  - unfold StreamDirector.unregisterStream.
    destruct (StreamDirector.streamId b) as [[| |]|]; exact Hwf.
  - apply (resolve_entries_spec sid (StreamDirector.pendingRequests b)
             (StreamDirector.mkBridge (StreamDirector.requestIdCounter b)
                (StreamDirector.pendingRequests b) (StreamDirector.promises b)
                (Some sid) (StreamDirector.timeouts b)));
      [exact Hwf | reflexivity].
  - exact Hwf.
  - destruct (JsMap.get rid (StreamDirector.pendingRequests b))
      as [pending|] eqn:Hg; [|exact Hwf].
    pose proof Hwf as (_ & _ & Hself & _). rewrite (Hself _ _ Hg).
    apply sd_wf_settle; [exact Hwf | eapply JsMap_get_In; eauto |].
    destruct ok; discriminate.
  - unfold StreamDirector.fireTimeout.
    destruct (nth_error (StreamDirector.timeouts b) n) as [tm|]; [|exact Hwf].
    destruct (StreamDirector.to_due tm <=? now); [|exact Hwf].
    unfold StreamDirector.onTimeout. cbn.
    destruct (JsMap.has (StreamDirector.to_requestId tm)
                (StreamDirector.pendingRequests b)) eqn:Hhas; [|exact Hwf].
    apply sd_wf_settle;
      [exact Hwf | now apply JsMap_has_In | discriminate].
Qed.

Lemma sd_wf_steps es : forall b,
  StreamDirector.wf b -> StreamDirector.wf (StreamDirector.steps b es).
Proof.
  induction es as [|e es IH]; intros b H; [exact H|].
  apply (IH (StreamDirector.step b e)), sd_wf_step, H.
Qed.

Lemma sd_wf_create : StreamDirector.wf StreamDirector.create.
Proof.
  unfold StreamDirector.wf. cbn. split; [constructor|].
  split; [intros k []|]. split; [discriminate|].
  intros id. split; [intros [] | discriminate].
Qed.

(** X30. A [woolf-stream-registered] message settles the whole table of
    the streaming director, not only the registration: whatever the
    bridge did before, after the message the table of pending requests is
    empty, the stream id is the one of the message, and every promise
    that was unsettled, those returned by [run] for commands included, is
    resolved with the stream id; the promises settled earlier keep their
    state. *)
Theorem stream_registered_resolves_every_pending_request es sid id :
  let b := StreamDirector.steps StreamDirector.create es in
  let b' := StreamDirector.handleMessage (StreamDirector.StreamRegistered sid) b in
  StreamDirector.pendingRequests b' = JsMap.empty
  /\ StreamDirector.streamId b' = Some sid
  /\ (JsMap.get id (StreamDirector.promises b) = Some StreamDirector.Unsettled ->
      JsMap.get id (StreamDirector.promises b')
      = Some (StreamDirector.Resolved (StreamDirector.StreamId sid)))
  /\ (JsMap.get id (StreamDirector.promises b) <> Some StreamDirector.Unsettled ->
      JsMap.get id (StreamDirector.promises b')
      = JsMap.get id (StreamDirector.promises b)).
Proof.
  intros b b'.
  pose proof (sd_wf_steps es _ sd_wf_create) as Hwf. fold b in Hwf.
  destruct (resolve_entries_spec sid (StreamDirector.pendingRequests b)
              (StreamDirector.mkBridge (StreamDirector.requestIdCounter b)
                 (StreamDirector.pendingRequests b) (StreamDirector.promises b)
                 (Some sid) (StreamDirector.timeouts b)) Hwf eq_refl)
    as (_ & Hpe & Hsi & _ & _ & Hpr).
  destruct Hwf as (_ & _ & _ & Hiff).
  split; [exact Hpe|]. split; [exact Hsi|]. split.
  - intros Hun. apply (proj1 (Hpr id)). now apply Hiff.
  - intros Hn. apply (proj2 (Hpr id)). intros Hin. apply Hn. now apply Hiff.
Qed.

Lemma stream_registered_resolves_every_pending_request_witness :
  JsMap.get 2
    (StreamDirector.promises
       (StreamDirector.handleMessage (StreamDirector.StreamRegistered 7)
          (StreamDirector.steps StreamDirector.create register_and_run)))
  = Some (StreamDirector.Resolved (StreamDirector.StreamId 7)).
Proof.
  destruct (stream_registered_resolves_every_pending_request
              register_and_run 7 2) as (_ & _ & H & _).
  apply H. reflexivity.
Defined.
